(** * Matrix<T>: a shallow embedding of src/matrix.cpp

    The dense row-major matrix template of the repository, its
    constructors, operators and queries, embedded as Rocq functions.

    - [unsigned] is a 32-bit and [size_t] a 64-bit unsigned integer, both
      carried by [N] with the wrap-around written out ([u32], [u64]);
    - [std::vector<T>] is [list T]; an access outside the vector is
      undefined behaviour and is reported as [Undefined];
    - [assert] aborts the program ([AssertFail]) unless the translation
      unit is compiled with NDEBUG, in which case it expands to nothing;
    - the element type [T] is any type with the arithmetic the template
      uses ([Numeric]); [T()] is its zero. *)

From Stdlib Require Import List NArith ZArith Lia Bool.
Import ListNotations.
Local Open Scope N_scope.

(** ** Outcomes of a call *)

Inductive outcome (A : Type) : Type :=
| Ok (a : A)
| AssertFail
| Undefined.
Arguments Ok {A} a.
Arguments AssertFail {A}.
Arguments Undefined {A}.

Definition bind {A B : Type} (c : outcome A) (k : A -> outcome B) : outcome B :=
  match c with
  | Ok a => k a
  | AssertFail => AssertFail
  | Undefined => Undefined
  end.

Notation "x <- c ;; k" := (bind c (fun x => k))
  (at level 61, c at next level, right associativity).
Notation "c ;;; k" := (bind c (fun _ => k))
  (at level 61, right associativity).

(** ** Machine integers *)

Definition UINT_MOD : N := 4294967296.
Definition SIZE_MOD : N := 18446744073709551616.

Definition u32 (x : N) : N := x mod UINT_MOD.
Definition u64 (x : N) : N := x mod SIZE_MOD.

(** ** for (size_t i = 0; i < n; ++i) body *)

Fixpoint for_loop {S : Type} (n : nat) (i : N) (body : N -> S -> outcome S) (s : S)
  : outcome S :=
  match n with
  | O => Ok s
  | Datatypes.S n' => s' <- body i s ;; for_loop n' (i + 1) body s'
  end.

Definition for_range {S : Type} (n : N) (body : N -> S -> outcome S) (s : S) : outcome S :=
  for_loop (N.to_nat n) 0 body s.

(** The indices [0, n) in increasing order. *)
Definition Nrange (n : N) : list N := map N.of_nat (seq 0 (N.to_nat n)).

(** ** The element type *)

Class Numeric (T : Type) : Type := {
  Tzero : T;
  Tadd : T -> T -> T;
  Tsub : T -> T -> T;
  Tmul : T -> T -> T;
  Tdiv : T -> T -> T;
  Topp : T -> T
}.

#[export] Instance Numeric_Z : Numeric Z := {
  Tzero := 0%Z;
  Tadd := Z.add;
  Tsub := Z.sub;
  Tmul := Z.mul;
  Tdiv := Z.quot;
  Topp := Z.opp
}.

Section MatrixDef.

Context {T : Type} `{Numeric T}.

(** Compiled with NDEBUG? *)
Variable ndebug : bool.

Definition assert (b : bool) : outcome unit :=
  if ndebug then Ok tt else if b then Ok tt else AssertFail.

(** ** std::vector<T> *)

Definition vec_get (v : list T) (i : N) : outcome T :=
  match nth_error v (N.to_nat i) with
  | Some x => Ok x
  | None => Undefined
  end.

Fixpoint list_set (v : list T) (i : nat) (x : T) : option (list T) :=
  match v, i with
  | [], _ => None
  | _ :: v', O => Some (x :: v')
  | y :: v', Datatypes.S i' =>
      match list_set v' i' x with
      | Some r => Some (y :: r)
      | None => None
      end
  end.

Definition vec_set (v : list T) (i : N) (x : T) : outcome (list T) :=
  match list_set v (N.to_nat i) x with
  | Some r => Ok r
  | None => Undefined
  end.

(** std::transform(first1, last1, d_first, op): the destination must hold
    at least as many elements as the input range. *)
Fixpoint transform1 (op : T -> T) (l out : list T) : outcome (list T) :=
  match l with
  | [] => Ok out
  | x :: l' =>
      match out with
      | _ :: out' => r <- transform1 op l' out' ;; Ok (op x :: r)
      | [] => Undefined
      end
  end.

(** std::transform(first1, last1, first2, d_first, op). *)
Fixpoint transform2 (op : T -> T -> T) (l1 l2 out : list T) : outcome (list T) :=
  match l1 with
  | [] => Ok out
  | x :: l1' =>
      match l2, out with
      | y :: l2', _ :: out' => r <- transform2 op l1' l2' out' ;; Ok (op x y :: r)
      | _, _ => Undefined
      end
  end.

(** std::copy(first, last, d_first + off). *)
Fixpoint copy_at (src : list T) (off : N) (dst : list T) : outcome (list T) :=
  match src with
  | [] => Ok dst
  | x :: src' => d <- vec_set dst off x ;; copy_at src' (off + 1) d
  end.

(** ** The class

    Modelled from the spec: the member declarations of matrix.h, which is
    not part of the sources: [unsigned rows], [unsigned cols] and the
    row-major [std::vector<T> mat], declared in this order. *)

Record Matrix : Type := mkMatrix {
  rows : N;
  cols : N;
  mat : list T
}.

Definition set_mat (m : Matrix) (v : list T) : Matrix :=
  mkMatrix (rows m) (cols m) v.

(** Matrix(unsigned _rows, unsigned _cols, const T& _initial): the vector
    size [_rows * _cols] is an [unsigned] product. *)
Definition Matrix_filled (_rows _cols : N) (_initial : T) : Matrix :=
  let r := u32 _rows in
  let c := u32 _cols in
  mkMatrix r c (repeat _initial (N.to_nat (u32 (r * c)))).

(** const T& operator()(const unsigned& row, const unsigned& col) const:
    the offset [row * cols + col] is computed in [unsigned]. *)
Definition operator_call (m : Matrix) (row col : N) : outcome T :=
  let row := u32 row in
  let col := u32 col in
  assert ((row <? rows m) && (col <? cols m)) ;;;
  vec_get (mat m) (u32 (row * cols m + col)).

(** T& operator()(const unsigned& row, const unsigned& col): the reference
    it returns is the offset of the element in [mat]. *)
Definition operator_call_ref (m : Matrix) (row col : N) : outcome N :=
  let row := u32 row in
  let col := u32 col in
  assert ((row <? rows m) && (col <? cols m)) ;;;
  Ok (u32 (row * cols m + col)).

(** [m(row, col) = x] on a non-const matrix. *)
Definition operator_call_store (m : Matrix) (row col : N) (x : T) : outcome Matrix :=
  r <- operator_call_ref m row col ;;
  v <- vec_set (mat m) r x ;;
  Ok (set_mat m v).

(** [m(row, col)] read on a non-const matrix. *)
Definition operator_call_load (m : Matrix) (row col : N) : outcome T :=
  r <- operator_call_ref m row col ;;
  vec_get (mat m) r.

Definition get_rows (m : Matrix) : N := rows m.
Definition get_cols (m : Matrix) : N := cols m.

(** ** Constructors *)

(** Matrix(const std::vector<std::vector<T>>& _mat) *)
Definition Matrix_nested (_mat : list (list T)) : outcome Matrix :=
  let r := u32 (N.of_nat (length _mat)) in
  let c := u32 (match _mat with [] => 0 | row0 :: _ => N.of_nat (length row0) end) in
  let this := mkMatrix r c (repeat Tzero (N.to_nat (u32 (r * c)))) in
  for_range r (fun i this =>
    match nth_error _mat (N.to_nat i) with
    | None => Undefined
    | Some row =>
        assert (N.of_nat (length row) =? cols this) ;;;
        v <- copy_at row (u64 (i * cols this)) (mat this) ;;
        Ok (set_mat this v)
    end) this.

(** Matrix(const std::vector<T>& _mat, size_t _rows, size_t _cols): the
    sizes are narrowed to the [unsigned] members, the vector is copied as
    it is. *)
Definition Matrix_flat (_mat : list T) (_rows _cols : N) : Matrix :=
  mkMatrix (u32 _rows) (u32 _cols) _mat.

(** Matrix(Matrix&& rhs): the new object and what is left of [rhs]. *)
Definition Matrix_move (rhs : Matrix) : Matrix * Matrix :=
  let this := mkMatrix (rows rhs) (cols rhs) (mat rhs) in
  let rhs := set_mat rhs [] in
  let rhs := mkMatrix 0 (cols rhs) (mat rhs) in
  let rhs := mkMatrix (rows rhs) 0 (mat rhs) in
  (this, rhs).

(** Matrix(const Matrix& rhs) *)
Definition Matrix_copy (rhs : Matrix) : Matrix :=
  mkMatrix (rows rhs) (cols rhs) (mat rhs).

(** static std::mt19937 gen{42} and std::uniform_real_distribution<T> are
    the standard library's: the generator is a state of type [Gen], and
    [uniform_real a b g] is one draw [d(gen)] of the distribution
    [d(a, b)], with the generator it leaves. *)
Variable Gen : Type.
Variable uniform_real : T -> T -> Gen -> T * Gen.

(** static Matrix<T> initRandomQSMatrix(size_t, size_t, const T&): the
    loop bound [_rows * _cols] is a [size_t] product. *)
Definition initRandomQSMatrix (_rows _cols : N) (maxWeight : T) (gen : Gen)
  : outcome (Matrix * Gen) :=
  let my_matrix := Matrix_filled _rows _cols Tzero in
  for_range (u64 (_rows * _cols)) (fun i st =>
    let '(my_matrix, gen) := st in
    let '(x, gen) := uniform_real (Topp maxWeight) maxWeight gen in
    v <- vec_set (mat my_matrix) i x ;;
    Ok (set_mat my_matrix v, gen)) (my_matrix, gen).

(** ** Assignment

    Both assignment operators compare the addresses of their operands, so
    they are modelled on a store of matrix objects. *)

Definition store : Type := nat -> option Matrix.

Definition store_upd (h : store) (a : nat) (m : Matrix) : store :=
  fun b => if Nat.eqb b a then Some m else h b.

(** The three member assignments of operator=(const Matrix&). *)
Definition copy_fields (this rhs : Matrix) : Matrix :=
  let this := mkMatrix (rows rhs) (cols this) (mat this) in
  let this := mkMatrix (rows this) (cols rhs) (mat this) in
  mkMatrix (rows this) (cols this) (mat rhs).

(** Matrix& operator=(const Matrix& rhs) *)
Definition operator_assign (this rhs : nat) (h : store) : outcome store :=
  if Nat.eqb this rhs then Ok h
  else
    match h this, h rhs with
    | Some t, Some r => Ok (store_upd h this (copy_fields t r))
    | _, _ => Undefined
    end.

(** The body of operator=(Matrix&&) on two distinct objects: std::exchange
    on [rows] and [cols], then the vector is moved (the moved-from vector
    is left empty). *)
Definition move_fields (this rhs : Matrix) : Matrix * Matrix :=
  let '(this, rhs) :=
    (mkMatrix (rows rhs) (cols this) (mat this), mkMatrix 0 (cols rhs) (mat rhs)) in
  let '(this, rhs) :=
    (mkMatrix (rows this) (cols rhs) (mat this), mkMatrix (rows rhs) 0 (mat rhs)) in
  (mkMatrix (rows this) (cols this) (mat rhs), mkMatrix (rows rhs) (cols rhs) []).

(** Matrix& operator=(Matrix&& rhs) noexcept *)
Definition operator_assign_move (this rhs : nat) (h : store) : outcome store :=
  if negb (Nat.eqb this rhs) then
    match h this, h rhs with
    | Some t, Some r =>
        let '(t', r') := move_fields t r in
        Ok (store_upd (store_upd h rhs r') this t')
    | _, _ => Undefined
    end
  else Ok h.

(** ** Addition, subtraction *)

(** Matrix<T> operator+(const Matrix<T>& rhs) const *)
Definition operator_plus (this rhs : Matrix) : outcome Matrix :=
  if (rows this =? rows rhs) && (cols this =? cols rhs) then
    let result := Matrix_filled (rows this) (cols this) Tzero in
    v <- transform2 Tadd (mat this) (mat rhs) (mat result) ;;
    Ok (set_mat result v)
  else if (rows rhs =? 1) && (cols rhs =? cols this) then
    let result := Matrix_filled (rows this) (cols this) Tzero in
    for_range (rows this) (fun i result =>
      for_range (cols this) (fun j result =>
        a <- operator_call this i j ;;
        b <- operator_call rhs 0 j ;;
        operator_call_store result i j (Tadd a b)) result) result
  else if (rows this =? 1) && (cols this =? cols rhs) then
    let result := Matrix_filled (rows rhs) (cols this) Tzero in
    for_range (rows rhs) (fun i result =>
      for_range (cols this) (fun j result =>
        a <- operator_call this 0 j ;;
        b <- operator_call rhs i j ;;
        operator_call_store result i j (Tadd a b)) result) result
  else
    assert false ;;;
    Ok (Matrix_filled 0 0 Tzero).

(** for (size_t i = 0; i < rows * cols; ++i) mat[i] op= rhs.mat[i]; *)
Definition compound_loop (op : T -> T -> T) (this rhs : Matrix) : outcome Matrix :=
  for_range (u32 (rows this * cols this)) (fun i this =>
    a <- vec_get (mat this) i ;;
    b <- vec_get (mat rhs) i ;;
    v <- vec_set (mat this) i (op a b) ;;
    Ok (set_mat this v)) this.

(** Matrix<T>& operator+=(const Matrix<T>& rhs) *)
Definition operator_plus_assign (this rhs : Matrix) : outcome Matrix :=
  assert ((rows this =? rows rhs) && (cols this =? cols rhs)) ;;;
  compound_loop Tadd this rhs.

(** Matrix<T> operator-(const Matrix<T>& rhs) const *)
Definition operator_minus (this rhs : Matrix) : outcome Matrix :=
  assert ((rows this =? rows rhs) && (cols this =? cols rhs)) ;;;
  let result := Matrix_filled (rows this) (cols this) Tzero in
  v <- transform2 Tsub (mat this) (mat rhs) (mat result) ;;
  Ok (set_mat result v).

(** Matrix<T>& operator-=(const Matrix<T>& rhs) *)
Definition operator_minus_assign (this rhs : Matrix) : outcome Matrix :=
  assert ((rows this =? rows rhs) && (cols this =? cols rhs)) ;;;
  compound_loop Tsub this rhs.

(** ** Multiplication *)

(** Matrix<T> operator*(const Matrix<T>& rhs) const: loops i, k, j; the
    two offsets are [size_t] products. *)
Definition operator_mul (this rhs : Matrix) : outcome Matrix :=
  assert (cols this =? rows rhs) ;;;
  let result := Matrix_filled (rows this) (cols rhs) Tzero in
  for_range (rows this) (fun i result =>
    for_range (cols this) (fun k result =>
      temp <- operator_call this i k ;;
      let rhs_offset := u64 (k * cols rhs) in
      let result_offset := u64 (i * cols result) in
      for_range (cols rhs) (fun j result =>
        r <- vec_get (mat result) (u64 (result_offset + j)) ;;
        b <- vec_get (mat rhs) (u64 (rhs_offset + j)) ;;
        v <- vec_set (mat result) (u64 (result_offset + j)) (Tadd r (Tmul temp b)) ;;
        Ok (set_mat result v)) result) result) result.

(** Matrix<T>& operator*=(const Matrix<T>& rhs): the product is a
    temporary, distinct from [*this], that is move-assigned to it. *)
Definition operator_mul_assign (this rhs : Matrix) : outcome Matrix :=
  tmp <- operator_mul this rhs ;;
  Ok (fst (move_fields this tmp)).

(** ** Transpose *)

(** Matrix<T> transpose() const *)
Definition transpose (this : Matrix) : outcome Matrix :=
  let result := Matrix_filled (cols this) (rows this) Tzero in
  for_range (rows this) (fun i result =>
    for_range (cols this) (fun j result =>
      x <- operator_call this i j ;;
      operator_call_store result j i x) result) result.

(** Matrix<T>& transpose_in_place() *)
Definition transpose_in_place (this : Matrix) : outcome Matrix :=
  tmp <- transpose this ;;
  Ok (fst (move_fields this tmp)).

(** ** Scalar and component-wise operations *)

Definition scalar_op (f : T -> T) (this : Matrix) : outcome Matrix :=
  let result := Matrix_filled (rows this) (cols this) Tzero in
  v <- transform1 f (mat this) (mat result) ;;
  Ok (set_mat result v).

(** Matrix<T> operator+(const T& rhs) const *)
Definition operator_plus_scalar (this : Matrix) (rhs : T) : outcome Matrix :=
  scalar_op (fun val => Tadd val rhs) this.

(** Matrix<T> operator-(const T& rhs) const *)
Definition operator_minus_scalar (this : Matrix) (rhs : T) : outcome Matrix :=
  scalar_op (fun val => Tsub val rhs) this.

(** Matrix<T> operator*(const T& rhs) const *)
Definition operator_mul_scalar (this : Matrix) (rhs : T) : outcome Matrix :=
  scalar_op (fun val => Tmul val rhs) this.

(** Matrix<T> operator/(const T& rhs) const *)
Definition operator_div_scalar (this : Matrix) (rhs : T) : outcome Matrix :=
  scalar_op (fun val => Tdiv val rhs) this.

(** Matrix<T>& operator*=(const T& rhs) *)
Definition operator_mul_assign_scalar (this : Matrix) (rhs : T) : outcome Matrix :=
  for_range (u32 (rows this * cols this)) (fun i this =>
    a <- vec_get (mat this) i ;;
    v <- vec_set (mat this) i (Tmul a rhs) ;;
    Ok (set_mat this v)) this.

(** Matrix<T> component_wise_transformation(const std::function<T(T)>&) const *)
Definition component_wise_transformation (this : Matrix) (transformation : T -> T)
  : outcome Matrix :=
  scalar_op transformation this.

(** Matrix<T>& component_wise_transformation_in_place(const std::function<T(T)>&):
    source and destination of std::transform are the same vector. *)
Definition component_wise_transformation_in_place (this : Matrix) (transformation : T -> T)
  : outcome Matrix :=
  v <- transform1 transformation (mat this) (mat this) ;;
  Ok (set_mat this v).

(** Matrix<T> hadamardMultiplication(const Matrix<T>& rhs) const *)
Definition hadamardMultiplication (this rhs : Matrix) : outcome Matrix :=
  assert ((rows this =? rows rhs) && (cols this =? cols rhs)) ;;;
  let result := Matrix_filled (rows this) (cols this) Tzero in
  v <- transform2 Tmul (mat this) (mat rhs) (mat result) ;;
  Ok (set_mat result v).

(** Matrix<T>& hadamardMultiplicationInPlace(const Matrix<T>& rhs) *)
Definition hadamardMultiplicationInPlace (this rhs : Matrix) : outcome Matrix :=
  assert ((rows this =? rows rhs) && (cols this =? cols rhs)) ;;;
  compound_loop Tmul this rhs.

(** ** Non-const queries

    Both are non-const member functions: they run on [*this] as a state
    and return it next to their result. *)

(** std::vector<T> operator*(const std::vector<T>& rhs) *)
Definition operator_mul_vec (this : Matrix) (rhs : list T) : outcome (list T * Matrix) :=
  assert (N.of_nat (length rhs) =? cols this) ;;;
  let result := repeat Tzero (N.to_nat (rows this)) in
  for_range (rows this) (fun i st =>
    let '(result, this) := st in
    st' <- for_range (cols this) (fun j st =>
             let '(sum, this) := st in
             a <- operator_call_load this i j ;;
             b <- vec_get rhs j ;;
             Ok (Tadd sum (Tmul a b), this)) (Tzero, this) ;;
    let '(sum, this) := st' in
    v <- vec_set result i sum ;;
    Ok (v, this)) (result, this).

(** std::vector<T> diag_vec() *)
Definition diag_vec (this : Matrix) : outcome (list T * Matrix) :=
  let n := if rows this <? cols this then rows this else cols this in
  let result := repeat Tzero (N.to_nat n) in
  for_range n (fun i st =>
    let '(result, this) := st in
    x <- operator_call_load this i i ;;
    v <- vec_set result i x ;;
    Ok (v, this)) (result, this).

(** ** The data model

    The element at [(i, j)] sits at offset [i * cols + j]. *)
Definition elem (m : Matrix) (i j : N) : T :=
  nth (N.to_nat (i * cols m + j)) (mat m) Tzero.

(** The invariant of the data model: the two sizes are [unsigned] values
    and the vector holds [rows * cols] elements. *)
Definition storage_invariant (m : Matrix) : Prop :=
  rows m < UINT_MOD /\ cols m < UINT_MOD /\
  N.of_nat (length (mat m)) = rows m * cols m.

(** [valid m]: the invariant of the data model and, beyond it, an element
    count below 2^32, so that the [unsigned] products of the code
    ([_rows * _cols], [row * cols + col]) do not wrap on [m]. *)
Definition valid (m : Matrix) : Prop :=
  rows m < UINT_MOD /\ cols m < UINT_MOD /\ rows m * cols m < UINT_MOD /\
  N.of_nat (length (mat m)) = rows m * cols m.

Definition same_shape (a b : Matrix) : Prop :=
  rows a = rows b /\ cols a = cols b.

(** ** Reference product

    The product as the specification words it: for each output row [i],
    for each output column [j], the sum over [k] of [A(i,k) * B(k,j)],
    accumulated from [T()] in increasing [k]. *)
Definition inner_product (A B : Matrix) (i j : N) : T :=
  fold_left (fun sum k => Tadd sum (Tmul (elem A i k) (elem B k j)))
            (Nrange (cols A)) Tzero.

Definition mul_naive (A B : Matrix) : Matrix :=
  mkMatrix (rows A) (cols B)
    (flat_map (fun i => map (fun j => inner_product A B i j) (Nrange (cols B)))
              (Nrange (rows A))).

(** The same reference as a program: the loops in the naive order, output
    row [i], output column [j], then the summation over [k]. *)
Definition mul_naive_loops (A B : Matrix) : outcome Matrix :=
  assert (cols A =? rows B) ;;;
  let result := Matrix_filled (rows A) (cols B) Tzero in
  for_range (rows A) (fun i result =>
    for_range (cols B) (fun j result =>
      sum <- for_range (cols A) (fun k sum =>
               a <- operator_call A i k ;;
               b <- operator_call B k j ;;
               Ok (Tadd sum (Tmul a b))) Tzero ;;
      operator_call_store result i j sum) result) result.

(** ** The matrices a program can hold

    [produced m]: [m] is the value of a matrix object after a constructor
    or an operation of the interface has returned.  The shapes that the
    filled, nested-sequence and random constructors and the products make
    are those of fewer than 2^32 elements; the flat-sequence constructor
    is given [rows * cols] elements, of any count. *)
Inductive produced : Matrix -> Prop :=
| P_filled : forall r c x,
    u32 r * u32 c < UINT_MOD -> produced (Matrix_filled r c x)
| P_nested : forall l m,
    Matrix_nested l = Ok m -> rows m * cols m < UINT_MOD -> produced m
| P_flat : forall l r c,
    N.of_nat (length l) = u32 r * u32 c -> produced (Matrix_flat l r c)
| P_random : forall r c w g m g',
    initRandomQSMatrix r c w g = Ok (m, g') -> rows m * cols m < UINT_MOD ->
    produced m
| P_copy : forall m, produced m -> produced (Matrix_copy m)
| P_move_new : forall m, produced m -> produced (fst (Matrix_move m))
| P_move_source : forall m, produced m -> produced (snd (Matrix_move m))
| P_assign : forall (h h' : store) this rhs a m,
    (forall b x, h b = Some x -> produced x) ->
    operator_assign this rhs h = Ok h' -> h' a = Some m -> produced m
| P_assign_move : forall (h h' : store) this rhs a m,
    (forall b x, h b = Some x -> produced x) ->
    operator_assign_move this rhs h = Ok h' -> h' a = Some m -> produced m
| P_store : forall m i j x m',
    produced m -> operator_call_store m i j x = Ok m' -> produced m'
| P_plus : forall a b m,
    produced a -> produced b -> operator_plus a b = Ok m -> produced m
| P_plus_assign : forall a b m,
    produced a -> produced b -> operator_plus_assign a b = Ok m -> produced m
| P_minus : forall a b m,
    produced a -> produced b -> operator_minus a b = Ok m -> produced m
| P_minus_assign : forall a b m,
    produced a -> produced b -> operator_minus_assign a b = Ok m -> produced m
| P_mul : forall a b m,
    produced a -> produced b -> operator_mul a b = Ok m ->
    rows m * cols m < UINT_MOD -> produced m
| P_mul_assign : forall a b m,
    produced a -> produced b -> operator_mul_assign a b = Ok m ->
    rows m * cols m < UINT_MOD -> produced m
| P_transpose : forall a m, produced a -> transpose a = Ok m -> produced m
| P_transpose_in_place : forall a m,
    produced a -> transpose_in_place a = Ok m -> produced m
| P_plus_scalar : forall a x m,
    produced a -> operator_plus_scalar a x = Ok m -> produced m
| P_minus_scalar : forall a x m,
    produced a -> operator_minus_scalar a x = Ok m -> produced m
| P_mul_scalar : forall a x m,
    produced a -> operator_mul_scalar a x = Ok m -> produced m
| P_div_scalar : forall a x m,
    produced a -> operator_div_scalar a x = Ok m -> produced m
| P_mul_assign_scalar : forall a x m,
    produced a -> operator_mul_assign_scalar a x = Ok m -> produced m
| P_mul_vec : forall a v r m,
    produced a -> operator_mul_vec a v = Ok (r, m) -> produced m
| P_diag_vec : forall a r m, produced a -> diag_vec a = Ok (r, m) -> produced m
| P_cwt : forall a f m,
    produced a -> component_wise_transformation a f = Ok m -> produced m
| P_cwt_in_place : forall a f m,
    produced a -> component_wise_transformation_in_place a f = Ok m -> produced m
| P_hadamard : forall a b m,
    produced a -> produced b -> hadamardMultiplication a b = Ok m -> produced m
| P_hadamard_in_place : forall a b m,
    produced a -> produced b -> hadamardMultiplicationInPlace a b = Ok m -> produced m.

(** The sum over the first [k] terms of the inner product. *)
Definition dot_upto (A B : Matrix) (i j k : N) : T :=
  fold_left (fun sum k => Tadd sum (Tmul (elem A i k) (elem B k j)))
            (Nrange k) Tzero.

(** The sum over the first [k] terms of row [i] times a vector. *)
Definition row_dot_upto (m : Matrix) (v : list T) (i k : N) : T :=
  fold_left (fun sum j => Tadd sum (Tmul (elem m i j) (nth (N.to_nat j) v Tzero)))
            (Nrange k) Tzero.

(** What the storage invariant depends on. *)
Definition shape_of (m : Matrix) : N * N * nat :=
  (rows m, cols m, length (mat m)).

(** ** Auxiliary notions for the statements *)

(** The first [n] draws [d(gen)] of the distribution [d(a, b)], in order,
    and the generator they leave. *)
Fixpoint draws (n : nat) (a b : T) (gen : Gen) : list T * Gen :=
  match n with
  | O => ([], gen)
  | Datatypes.S n' =>
      let '(x, gen) := uniform_real a b gen in
      let '(xs, gen) := draws n' a b gen in
      (x :: xs, gen)
  end.

(** A process that calls [initRandomQSMatrix] once for each
    (rows, cols, maxWeight) of [calls], in order: the static generator is
    the one state that passes from a call to the next. *)
Fixpoint random_calls (calls : list (N * N * T)) (gen : Gen)
  : outcome (list Matrix * Gen) :=
  match calls with
  | [] => Ok ([], gen)
  | (r, c, w) :: rest =>
      st <- initRandomQSMatrix r c w gen ;;
      let '(m, gen) := st in
      st' <- random_calls rest gen ;;
      let '(ms, gen) := st' in
      Ok (m :: ms, gen)
  end.

(** What the specification says of such a sequence of calls: one stream
    of draws, cut into the matrices of the calls, each call taking its
    rows * cols draws where the call before it stopped; the shape of a
    matrix is the one asked for, as its [unsigned] members hold it. *)
Fixpoint stream_matrices (calls : list (N * N * T)) (gen : Gen)
  : list Matrix * Gen :=
  match calls with
  | [] => ([], gen)
  | (r, c, w) :: rest =>
      let '(xs, gen) := draws (N.to_nat (r * c)) (Topp w) w gen in
      let '(ms, gen) := stream_matrices rest gen in
      (mkMatrix (u32 r) (u32 c) xs :: ms, gen)
  end.

(** The sum of [f 0], ..., [f (n - 1)], accumulated from [T()] in this
    order. *)
Definition sum_upto (n : N) (f : N -> T) : T :=
  fold_left (fun sum k => Tadd sum (f k)) (Nrange n) Tzero.

(** The column count that the nested-sequence constructor takes from its
    argument: the length of the first row, 0 without rows. *)
Definition nested_cols (_mat : list (list T)) : N :=
  match _mat with
  | [] => 0
  | row0 :: _ => N.of_nat (length row0)
  end.

(** The laws of exact arithmetic that the associativity of the product
    needs: the elements form a semiring. *)
Definition semiring_laws : Prop :=
  (forall a b c : T, Tadd (Tadd a b) c = Tadd a (Tadd b c)) /\
  (forall a b : T, Tadd a b = Tadd b a) /\
  (forall a : T, Tadd Tzero a = a) /\
  (forall a b c : T, Tmul (Tmul a b) c = Tmul a (Tmul b c)) /\
  (forall a b c : T, Tmul a (Tadd b c) = Tadd (Tmul a b) (Tmul a c)) /\
  (forall a b c : T, Tmul (Tadd a b) c = Tadd (Tmul a c) (Tmul b c)) /\
  (forall a : T, Tmul Tzero a = Tzero) /\
  (forall a : T, Tmul a Tzero = Tzero).

(** ** Loop invariants *)

(** What the loops of [transpose] have stored once they are at [(i, j)]. *)
Definition transposed_upto (A : Matrix) (i j : N) (res : Matrix) : Prop :=
  rows res = cols A /\ cols res = rows A /\ valid res /\
  forall i' j', i' < rows A -> j' < cols A -> i' < i \/ (i' = i /\ j' < j) ->
                elem res j' i' = elem A i' j'.

(** What two nested loops storing [f i j] at [(i, j)], row after row,
    have stored once they are at [(i, j)]. *)
Definition stored_upto (f : N -> N -> T) (r c : N) (i j : N) (res : Matrix) : Prop :=
  rows res = r /\ cols res = c /\ valid res /\
  forall i' j', i' < r -> j' < c -> i' < i \/ (i' = i /\ j' < j) ->
                elem res i' j' = f i' j'.

(** What the loops of [operator_mul] have accumulated once they are at
    [(i, k, j)]: the rows before [i] are finished, row [i] holds the sums
    over the first [k] terms, one term more in the columns before [j], and
    the rows after [i] are still zero. *)
Definition mul_upto (A B : Matrix) (i k j : N) (res : Matrix) : Prop :=
  rows res = rows A /\ cols res = cols B /\ valid res /\
  forall i' j', i' < rows A -> j' < cols B ->
    elem res i' j' =
      if i' <? i then inner_product A B i' j'
      else if i' =? i then dot_upto A B i j' (if j' <? j then k + 1 else k)
      else Tzero.

End MatrixDef.

Arguments Matrix T : clear implicits.

(** ** Concrete matrices over the integers *)

Definition M_2x2_A : Matrix Z := mkMatrix 2 2 [1; 2; 3; 4]%Z.
Definition M_2x2_B : Matrix Z := mkMatrix 2 2 [5; 6; 7; 8]%Z.
Definition M_2x3 : Matrix Z := mkMatrix 2 3 [1; 2; 3; 4; 5; 6]%Z.
Definition M_3x4 : Matrix Z := mkMatrix 3 4 [1; 2; 3; 4; 5; 6; 7; 8; 9; 10; 11; 12]%Z.
Definition M_1x4 : Matrix Z := mkMatrix 1 4 [10; 20; 30; 40]%Z.

(** A 65536 x 65536 matrix of 2^32 ones, as the flat-sequence constructor
    builds it: it meets the invariant of the data model. *)
Definition M_65536x65536 : Matrix Z :=
  Matrix_flat (repeat 1%Z (N.to_nat 4294967296)) 65536 65536.

(** A 3 x 2^31 matrix, as the flat-sequence constructor builds it: 2^32
    zeros followed by 2^31 ones, so that row 2 starts with ones. *)
Definition M_3x2147483648 : Matrix Z :=
  Matrix_flat (repeat 0%Z (N.to_nat 4294967296) ++ repeat 1%Z (N.to_nat 2147483648))
              3 2147483648.

(** Two matrices without elements whose product shape is 65536 x 65536. *)
Definition M_65536x0 : Matrix Z := Matrix_filled 65536 0 0%Z.
Definition M_0x65536 : Matrix Z := Matrix_filled 0 65536 0%Z.

Definition M_3x2 : Matrix Z := mkMatrix 3 2 [1; 0; 2; 1; 0; 3]%Z.

(** A store with one matrix object, at address 0. *)
Definition store_one (m : Matrix Z) : store :=
  store_upd (fun _ => None) 0%nat m.

(** A store with two matrix objects, at addresses 0 and 1. *)
Definition store_two (a b : Matrix Z) : store :=
  store_upd (store_upd (fun _ => None) 0%nat a) 1%nat b.

(** A linear congruential generator, standing for the random source when
    [initRandomQSMatrix] is run on concrete inputs. *)
Definition lcg_draw (a b : Z) (g : N) : Z * N :=
  let g' := (g * 1103515245 + 12345) mod 2147483648 in
  ((a + Z.of_N g' mod (b - a + 1))%Z, g').

(** * Proofs *)

(** ** Outcomes and loops *)

Lemma bind_ok {A B : Type} (c : outcome A) (k : A -> outcome B) (b : B) :
  bind c k = Ok b -> exists a, c = Ok a /\ k a = Ok b.
Proof.
  destruct c as [a| |]; simpl; intros E; try discriminate.
  exists a; split; [reflexivity | exact E].
Qed.

Ltac bind_inv H :=
  let a := fresh "a" in
  let Ha := fresh "Ha" in
  apply bind_ok in H; destruct H as (a & Ha & H).

Lemma u32_small (x : N) : x < UINT_MOD -> u32 x = x.
Proof. intros L; unfold u32; apply N.mod_small; exact L. Qed.

Lemma u64_small (x : N) : x < SIZE_MOD -> u64 x = x.
Proof. intros L; unfold u64; apply N.mod_small; exact L. Qed.

Lemma u32_lt (x : N) : u32 x < UINT_MOD.
Proof. unfold u32; apply N.mod_lt; discriminate. Qed.

Lemma UINT_lt_SIZE (x : N) : x < UINT_MOD -> x < SIZE_MOD.
Proof. unfold UINT_MOD, SIZE_MOD; lia. Qed.

(** Total correctness of a counted loop from an invariant on
    [(counter, state)]. *)
Lemma for_loop_total {S : Type} (P : N -> S -> Prop)
      (body : N -> S -> outcome S) (n : nat) :
  forall (i0 : N) (s : S),
    P i0 s ->
    (forall i s, i0 <= i < i0 + N.of_nat n -> P i s ->
                 exists s', body i s = Ok s' /\ P (i + 1) s') ->
    exists s', for_loop n i0 body s = Ok s' /\ P (i0 + N.of_nat n) s'.
Proof.
  induction n as [|n IH]; intros i0 s P0 Step.
  - exists s; split; [reflexivity|].
    replace (i0 + N.of_nat 0) with i0 by lia; exact P0.
  - destruct (Step i0 s) as (s1 & E1 & P1); [lia | exact P0 |].
    destruct (IH (i0 + 1) s1 P1) as (s2 & E2 & P2).
    + intros i t Hi Pi; apply Step; [lia | exact Pi].
    + exists s2; split.
      * simpl; rewrite E1; simpl; exact E2.
      * replace (i0 + N.of_nat (Datatypes.S n)) with (i0 + 1 + N.of_nat n) by lia.
        exact P2.
Qed.

Lemma for_range_total {S : Type} (P : N -> S -> Prop)
      (body : N -> S -> outcome S) (n : N) (s : S) :
  P 0 s ->
  (forall i s, i < n -> P i s -> exists s', body i s = Ok s' /\ P (i + 1) s') ->
  exists s', for_range n body s = Ok s' /\ P n s'.
Proof.
  intros P0 Step.
  destruct (for_loop_total P body (N.to_nat n) 0 s P0) as (s' & E & Ps).
  - intros i t Hi Pi; apply Step; [lia | exact Pi].
  - exists s'; split; [exact E|].
    replace (0 + N.of_nat (N.to_nat n)) with n in Ps by lia; exact Ps.
Qed.

(** Partial correctness: what every iteration keeps, the loop keeps. *)
Lemma for_loop_keeps {S : Type} (I : S -> Prop) (body : N -> S -> outcome S) :
  (forall i s s', I s -> body i s = Ok s' -> I s') ->
  forall (n : nat) (i0 : N) (s s' : S),
    I s -> for_loop n i0 body s = Ok s' -> I s'.
Proof.
  intros Step n; induction n as [|n IH]; intros i0 s s' Is E; simpl in E.
  - injection E as <-; exact Is.
  - bind_inv E. eapply IH; [|exact E]. eapply Step; eassumption.
Qed.

Lemma for_range_keeps {S : Type} (I : S -> Prop) (body : N -> S -> outcome S)
      (n : N) (s s' : S) :
  (forall i s s', I s -> body i s = Ok s' -> I s') ->
  I s -> for_range n body s = Ok s' -> I s'.
Proof. intros Step Is E; eapply for_loop_keeps; eassumption. Qed.

Lemma Nrange_succ (n : N) : Nrange (n + 1) = Nrange n ++ [n].
Proof.
  unfold Nrange.
  replace (N.to_nat (n + 1)) with (N.to_nat n + 1)%nat by lia.
  rewrite seq_app, map_app; simpl.
  rewrite N2Nat.id; reflexivity.
Qed.

Lemma Nrange_length (n : N) : length (Nrange n) = N.to_nat n.
Proof. unfold Nrange; rewrite length_map, length_seq; reflexivity. Qed.

Lemma Nrange_nth (n : N) (k : nat) (d : N) :
  (k < N.to_nat n)%nat -> nth k (Nrange n) d = N.of_nat k.
Proof.
  intros L; unfold Nrange.
  rewrite (nth_indep _ d (N.of_nat 0)) by (rewrite length_map, length_seq; exact L).
  rewrite map_nth, seq_nth by exact L; reflexivity.
Qed.

Section MatrixFacts.

Context {T : Type} `{Numeric T}.
Variable ndebug : bool.

(** ** Vectors *)

Lemma list_set_spec (v : list T) : forall (i : nat) (x : T),
  (i < length v)%nat ->
  exists v', list_set v i x = Some v' /\ length v' = length v /\
             nth i v' Tzero = x /\
             forall k, k <> i -> nth k v' Tzero = nth k v Tzero.
Proof.
  induction v as [|y v IH]; intros i x L; simpl in L; [lia|].
  destruct i as [|i].
  - exists (x :: v); simpl; repeat split; try reflexivity.
    intros [|k] Hk; [congruence | reflexivity].
  - destruct (IH i x) as (v' & E & Len & Here & Else); [lia|].
    exists (y :: v'); simpl; rewrite E; repeat split.
    + f_equal; exact Len.
    + exact Here.
    + intros [|k] Hk; [reflexivity | apply Else; congruence].
Qed.

Lemma list_set_length (v : list T) : forall (i : nat) (x : T) (v' : list T),
  list_set v i x = Some v' -> length v' = length v /\ (i < length v)%nat.
Proof.
  induction v as [|y v IH]; intros i x v' E; simpl in E; [discriminate|].
  destruct i as [|i].
  - injection E as <-; simpl; split; [reflexivity | lia].
  - destruct (list_set v i x) as [r|] eqn:Er; [|discriminate].
    injection E as <-; apply IH in Er; simpl; split; [f_equal; tauto | lia].
Qed.

Lemma vec_get_ok (v : list T) (i : N) :
  (N.to_nat i < length v)%nat -> vec_get v i = Ok (nth (N.to_nat i) v Tzero).
Proof.
  intros L; unfold vec_get.
  rewrite (nth_error_nth' v Tzero L); reflexivity.
Qed.

Lemma vec_set_ok (v : list T) (i : N) (x : T) :
  (N.to_nat i < length v)%nat ->
  exists v', vec_set v i x = Ok v' /\ length v' = length v /\
             nth (N.to_nat i) v' Tzero = x /\
             forall k, k <> N.to_nat i -> nth k v' Tzero = nth k v Tzero.
Proof.
  intros L; destruct (list_set_spec v (N.to_nat i) x L) as (v' & E & R).
  exists v'; unfold vec_set; rewrite E; split; [reflexivity | exact R].
Qed.

Lemma vec_set_length (v : list T) (i : N) (x : T) (v' : list T) :
  vec_set v i x = Ok v' -> length v' = length v.
Proof.
  unfold vec_set; intros E.
  destruct (list_set v (N.to_nat i) x) as [r|] eqn:Er; [|discriminate].
  injection E as <-; apply list_set_length in Er; tauto.
Qed.

(** ** Row-major offsets *)

Lemma offset_lt (r c i j : N) : i < r -> j < c -> i * c + j < r * c.
Proof. intros Hi Hj; nia. Qed.

Lemma offset_inj (c i j i' j' : N) :
  j < c -> j' < c -> i * c + j = i' * c + j' -> i = i' /\ j = j'.
Proof.
  intros Hj Hj' E.
  assert (Ei : i = i').
  { destruct (N.lt_trichotomy i i') as [L | [E' | L]]; [nia | exact E' | nia]. }
  subst i'; split; [reflexivity | lia].
Qed.

Lemma offset_split (r c k : N) :
  k < r * c -> exists i j, i < r /\ j < c /\ k = i * c + j.
Proof.
  intros L.
  assert (c <> 0) by (intros ->; lia).
  exists (k / c), (k mod c); repeat split.
  - apply N.Div0.div_lt_upper_bound; lia.
  - apply N.mod_lt; assumption.
  - rewrite (N.div_mod k c) at 1 by assumption; lia.
Qed.

(** ** Element access *)

Lemma valid_offset (m : Matrix T) (i j : N) :
  valid m -> i < rows m -> j < cols m ->
  u32 i = i /\ u32 j = j /\ u32 (i * cols m + j) = i * cols m + j /\
  (N.to_nat (i * cols m + j) < length (mat m))%nat.
Proof.
  intros (Hr & Hc & Hrc & Hlen) Hi Hj.
  pose proof (offset_lt _ _ _ _ Hi Hj) as Lt.
  repeat split; try (apply u32_small; lia); lia.
Qed.

Lemma assert_true (b : bool) : b = true -> assert ndebug b = Ok tt.
Proof. intros ->; unfold assert; destruct ndebug; reflexivity. Qed.

Lemma in_range_true (m : Matrix T) (i j : N) :
  i < rows m -> j < cols m -> (i <? rows m) && (j <? cols m) = true.
Proof.
  intros Hi Hj; apply andb_true_intro; split; apply N.ltb_lt; assumption.
Qed.

Lemma operator_call_ok (m : Matrix T) (i j : N) :
  valid m -> i < rows m -> j < cols m ->
  operator_call ndebug m i j = Ok (elem m i j).
Proof.
  intros V Hi Hj.
  destruct (valid_offset m i j V Hi Hj) as (Ei & Ej & Eo & L).
  unfold operator_call; rewrite Ei, Ej, Eo.
  rewrite assert_true by (apply in_range_true; assumption); simpl.
  apply vec_get_ok; exact L.
Qed.

Lemma operator_call_ref_ok (m : Matrix T) (i j : N) :
  valid m -> i < rows m -> j < cols m ->
  operator_call_ref ndebug m i j = Ok (i * cols m + j).
Proof.
  intros V Hi Hj.
  destruct (valid_offset m i j V Hi Hj) as (Ei & Ej & Eo & L).
  unfold operator_call_ref; rewrite Ei, Ej, Eo.
  rewrite assert_true by (apply in_range_true; assumption); reflexivity.
Qed.

Lemma operator_call_load_ok (m : Matrix T) (i j : N) :
  valid m -> i < rows m -> j < cols m ->
  operator_call_load ndebug m i j = Ok (elem m i j).
Proof.
  intros V Hi Hj.
  destruct (valid_offset m i j V Hi Hj) as (Ei & Ej & Eo & L).
  unfold operator_call_load; rewrite operator_call_ref_ok by assumption; simpl.
  apply vec_get_ok; exact L.
Qed.

(** A store through [m(i, j)] changes that element and no other. *)
Lemma operator_call_store_ok (m : Matrix T) (i j : N) (x : T) :
  valid m -> i < rows m -> j < cols m ->
  exists m', operator_call_store ndebug m i j x = Ok m' /\
             rows m' = rows m /\ cols m' = cols m /\ valid m' /\
             elem m' i j = x /\
             forall i' j', j' < cols m -> (i', j') <> (i, j) ->
                           elem m' i' j' = elem m i' j'.
Proof.
  intros V Hi Hj.
  destruct (valid_offset m i j V Hi Hj) as (Ei & Ej & Eo & L).
  destruct (vec_set_ok (mat m) (i * cols m + j) x L) as (v & Ev & Len & Here & Else).
  exists (set_mat m v).
  unfold operator_call_store; rewrite operator_call_ref_ok by assumption; simpl.
  rewrite Ev; simpl.
  split; [reflexivity|]. split; [reflexivity|]. split; [reflexivity|].
  split; [|split].
  - destruct V as (Hr & Hc & Hrc & Hlen); unfold valid; simpl.
    rewrite Len; tauto.
  - unfold elem; simpl; exact Here.
  - intros i' j' Hj' Ne; unfold elem; simpl; apply Else.
    intros E; apply Ne.
    assert (E' : i' * cols m + j' = i * cols m + j) by lia.
    apply offset_inj in E'; [|assumption|assumption].
    destruct E' as [-> ->]; reflexivity.
Qed.

(** ** The filled constructor *)

Lemma Matrix_filled_ok (r c : N) (x : T) :
  r < UINT_MOD -> c < UINT_MOD -> r * c < UINT_MOD ->
  rows (Matrix_filled r c x) = r /\ cols (Matrix_filled r c x) = c /\
  mat (Matrix_filled r c x) = repeat x (N.to_nat (r * c)) /\
  valid (Matrix_filled r c x).
Proof.
  intros Hr Hc Hrc; unfold Matrix_filled.
  rewrite (u32_small r Hr), (u32_small c Hc), (u32_small _ Hrc); simpl.
  repeat split; try assumption.
  simpl; rewrite repeat_length; lia.
Qed.

Lemma elem_filled_zero (r c i j : N) :
  elem (Matrix_filled r c (Tzero : T)) i j = Tzero.
Proof.
  unfold elem, Matrix_filled; simpl.
  generalize (N.to_nat (i * u32 c + j)), (N.to_nat (u32 (u32 r * u32 c))).
  intros k n; revert k; induction n as [|n IH]; intros [|k]; simpl; auto.
Qed.

(** ** Extensionality *)

Lemma matrix_ext (a b : Matrix T) :
  valid a -> valid b -> rows a = rows b -> cols a = cols b ->
  (forall i j, i < rows a -> j < cols a -> elem a i j = elem b i j) ->
  a = b.
Proof.
  destruct a as [ra ca va], b as [rb cb vb]; unfold valid, elem; simpl.
  intros (_ & _ & Fa & La) (_ & _ & Fb & Lb) <- <- E.
  f_equal.
  apply (nth_ext _ _ Tzero Tzero); [lia|].
  intros n Hn.
  destruct (offset_split ra ca (N.of_nat n)) as (i & j & Hi & Hj & Ek); [lia|].
  specialize (E i j Hi Hj).
  replace (N.to_nat (i * ca + j)) with n in E by lia.
  exact E.
Qed.

(** ** Transpose *)

Lemma transpose_ok (A : Matrix T) :
  valid A ->
  exists R, transpose ndebug A = Ok R /\ rows R = cols A /\ cols R = rows A /\
            valid R /\
            forall i j, i < rows A -> j < cols A -> elem R j i = elem A i j.
Proof.
  intros V; pose proof V as (Hr & Hc & Hrc & Hlen).
  unfold transpose.
  destruct (Matrix_filled_ok (cols A) (rows A) (Tzero : T)) as (R0 & C0 & _ & V0);
    [assumption | assumption | lia |].
  destruct (for_range_total (fun i res => transposed_upto A i 0 res)
              (fun i result =>
                 for_range (cols A) (fun j result =>
                   x <- operator_call ndebug A i j ;;
                   operator_call_store ndebug result j i x) result)
              (rows A) (Matrix_filled (cols A) (rows A) Tzero))
    as (R & E & (Rr & Rc & RV & RE)).
  - split; [exact R0|]. split; [exact C0|]. split; [exact V0|].
    intros i' j' _ _ [L | [_ L]]; lia.
  - intros i res Hi Inv.
    destruct (for_range_total (fun j res => transposed_upto A i j res)
                (fun j result =>
                   x <- operator_call ndebug A i j ;;
                   operator_call_store ndebug result j i x)
                (cols A) res Inv) as (res' & E' & (Rr & Rc & RV & RE)).
    + intros j r Hj (Rr & Rc & RV & RE).
      rewrite operator_call_ok by assumption; simpl.
      destruct (operator_call_store_ok r j i (elem A i j) RV)
        as (r' & Es & Rr' & Rc' & RV' & Here & Else); [lia | lia |].
      exists r'; split; [exact Es|].
      split; [lia|]. split; [lia|]. split; [exact RV'|].
      intros i' j' Hi' Hj' Done.
      destruct (N.eq_dec i' i) as [-> | Ni].
      * destruct (N.eq_dec j' j) as [-> | Nj]; [exact Here|].
        rewrite Else; [apply RE; try assumption; lia | lia | congruence].
      * rewrite Else; [apply RE; try assumption; lia | lia | congruence].
    + exists res'; split; [exact E'|].
      split; [exact Rr|]. split; [exact Rc|]. split; [exact RV|].
      intros i' j' Hi' Hj' Done; apply RE; try assumption; lia.
  - exists R; split; [exact E|].
    split; [exact Rr|]. split; [exact Rc|]. split; [exact RV|].
    intros i j Hi Hj; apply RE; try assumption; lia.
Qed.

(** X24: for every valid matrix A (fewer than 2^32 elements),
    transpose(A) is returned, has shape (cols, rows), holds A(i,j) at
    (j,i) for all (i,j) of the shape, and its own transpose is A again. *)
Theorem X24_transpose_involution (A : Matrix T) :
  valid A ->
  exists R,
    transpose ndebug A = Ok R /\
    get_rows R = get_cols A /\ get_cols R = get_rows A /\
    (forall i j, i < get_rows A -> j < get_cols A ->
       exists x, operator_call ndebug A i j = Ok x /\
                 operator_call ndebug R j i = Ok x) /\
    transpose ndebug R = Ok A.
Proof.
  intros V.
  destruct (transpose_ok A V) as (R & E & Rr & Rc & RV & RE).
  exists R; unfold get_rows, get_cols.
  split; [exact E|]. split; [exact Rr|]. split; [exact Rc|]. split.
  - intros i j Hi Hj; exists (elem A i j); split.
    + apply operator_call_ok; assumption.
    + rewrite operator_call_ok by (try assumption; lia).
      rewrite RE by assumption; reflexivity.
  - destruct (transpose_ok R RV) as (RR & E2 & Rr2 & Rc2 & RV2 & RE2).
    rewrite E2; f_equal.
    apply matrix_ext; try assumption; try lia.
    intros i j Hi Hj.
    rewrite RE2 by lia. apply RE; lia.
Qed.

(** ** std::transform *)

Lemma transform2_ok (op : T -> T -> T) (l1 : list T) : forall (l2 out : list T),
  length l2 = length l1 -> length out = length l1 ->
  exists r, transform2 op l1 l2 out = Ok r /\ length r = length l1 /\
            forall k, (k < length l1)%nat ->
                      nth k r Tzero = op (nth k l1 Tzero) (nth k l2 Tzero).
Proof.
  induction l1 as [|x l1 IH]; intros l2 out L2 Lo.
  - exists out; simpl in *; repeat split; try assumption. intros k Hk; lia.
  - destruct l2 as [|y l2]; [discriminate|].
    destruct out as [|z out]; [discriminate|].
    destruct (IH l2 out) as (r & E & Len & Nth); [simpl in *; lia .. |].
    exists (op x y :: r); simpl; rewrite E; simpl.
    split; [reflexivity|]. split; [f_equal; exact Len|].
    intros [|k] Hk; [reflexivity | apply Nth; lia].
Qed.

Lemma transform2_length (op : T -> T -> T) (l1 : list T) : forall (l2 out r : list T),
  transform2 op l1 l2 out = Ok r -> length r = length out.
Proof.
  induction l1 as [|x l1 IH]; intros l2 out r E; simpl in E.
  - injection E as <-; reflexivity.
  - destruct l2 as [|y l2]; [discriminate|].
    destruct out as [|z out]; [discriminate|].
    bind_inv E. injection E as <-. simpl; f_equal; eapply IH; eassumption.
Qed.

Lemma transform1_ok (op : T -> T) (l : list T) : forall (out : list T),
  length out = length l ->
  exists r, transform1 op l out = Ok r /\ length r = length l /\
            forall k, (k < length l)%nat -> nth k r Tzero = op (nth k l Tzero).
Proof.
  induction l as [|x l IH]; intros out Lo.
  - exists out; simpl in *; repeat split; try assumption. intros k Hk; lia.
  - destruct out as [|z out]; [discriminate|].
    destruct (IH out) as (r & E & Len & Nth); [simpl in *; lia|].
    exists (op x :: r); simpl; rewrite E; simpl.
    split; [reflexivity|]. split; [f_equal; exact Len|].
    intros [|k] Hk; [reflexivity | apply Nth; lia].
Qed.

Lemma transform1_length (op : T -> T) (l : list T) : forall (out r : list T),
  transform1 op l out = Ok r -> length r = length out.
Proof.
  induction l as [|x l IH]; intros out r E; simpl in E.
  - injection E as <-; reflexivity.
  - destruct out as [|z out]; [discriminate|].
    bind_inv E. injection E as <-. simpl; f_equal; eapply IH; eassumption.
Qed.

(** The body shared by the elementwise operators on equal shapes. *)
Lemma elementwise_ok (op : T -> T -> T) (A B : Matrix T) :
  valid A -> valid B -> same_shape A B ->
  exists v,
    transform2 op (mat A) (mat B) (mat (Matrix_filled (rows A) (cols A) Tzero)) = Ok v /\
    let R := set_mat (Matrix_filled (rows A) (cols A) Tzero) v in
    rows R = rows A /\ cols R = cols A /\ valid R /\
    forall i j, i < rows A -> j < cols A ->
                elem R i j = op (elem A i j) (elem B i j).
Proof.
  intros VA VB (Sr & Sc).
  pose proof VA as (Hr & Hc & Hrc & Hlen).
  pose proof VB as (Hr' & Hc' & Hrc' & Hlen').
  destruct (Matrix_filled_ok (rows A) (cols A) (Tzero : T) Hr Hc Hrc)
    as (R0 & C0 & M0 & V0).
  destruct (transform2_ok op (mat A) (mat B)
              (mat (Matrix_filled (rows A) (cols A) Tzero)))
    as (v & E & Len & Nth).
  - rewrite <- Sr, <- Sc in Hlen'; lia.
  - rewrite M0, repeat_length; lia.
  - exists v; split; [exact E|]; simpl.
    rewrite (u32_small _ Hr), (u32_small _ Hc).
    split; [reflexivity|]. split; [reflexivity|]. split.
    + unfold valid; simpl. rewrite (u32_small _ Hr), (u32_small _ Hc), Len; tauto.
    + intros i j Hi Hj; unfold elem; simpl.
      rewrite (u32_small _ Hc), <- Sc.
      apply Nth. pose proof (offset_lt _ _ _ _ Hi Hj); lia.
Qed.

(** ** Two nested loops that store one element per iteration *)

Lemma store_loops_ok (f : N -> N -> T) (r c : N)
      (body : N -> N -> Matrix T -> outcome (Matrix T)) (res0 : Matrix T) :
  rows res0 = r -> cols res0 = c -> valid res0 ->
  (forall i j res, i < r -> j < c ->
     body i j res = operator_call_store ndebug res i j (f i j)) ->
  exists R,
    for_range r (fun i res => for_range c (fun j res => body i j res) res) res0 = Ok R /\
    rows R = r /\ cols R = c /\ valid R /\
    forall i j, i < r -> j < c -> elem R i j = f i j.
Proof.
  intros R0 C0 V0 Body.
  destruct (for_range_total (fun i res => stored_upto f r c i 0 res)
              (fun i res => for_range c (fun j res => body i j res) res) r res0)
    as (R & E & (Rr & Rc & RV & RE)).
  - split; [exact R0|]. split; [exact C0|]. split; [exact V0|].
    intros i' j' _ _ [L | [_ L]]; lia.
  - intros i res Hi Inv.
    destruct (for_range_total (fun j res => stored_upto f r c i j res)
                (fun j res => body i j res) c res Inv)
      as (res' & E' & (Rr & Rc & RV & RE)).
    + intros j t Hj (Rr & Rc & RV & RE).
      rewrite Body by assumption.
      destruct (operator_call_store_ok t i j (f i j) RV)
        as (t' & Es & Rr' & Rc' & RV' & Here & Else); [lia | lia |].
      exists t'; split; [exact Es|].
      split; [lia|]. split; [lia|]. split; [exact RV'|].
      intros i' j' Hi' Hj' Done.
      destruct (N.eq_dec i' i) as [-> | Ni].
      * destruct (N.eq_dec j' j) as [-> | Nj]; [exact Here|].
        rewrite Else; [apply RE; try assumption; lia | lia | congruence].
      * rewrite Else; [apply RE; try assumption; lia | lia | congruence].
    + exists res'; split; [exact E'|].
      split; [exact Rr|]. split; [exact Rc|]. split; [exact RV|].
      intros i' j' Hi' Hj' Done; apply RE; try assumption; lia.
  - exists R; split; [exact E|].
    split; [exact Rr|]. split; [exact Rc|]. split; [exact RV|].
    intros i j Hi Hj; apply RE; try assumption; lia.
Qed.

(** ** Addition *)

Lemma dims_eqb_iff (a b c d : N) :
  (a =? b) && (c =? d) = true <-> a = b /\ c = d.
Proof.
  rewrite andb_true_iff, !N.eqb_eq; reflexivity.
Qed.

Lemma dims_eqb_false (a b c d : N) :
  ~ (a = b /\ c = d) -> (a =? b) && (c =? d) = false.
Proof.
  intros Hn; apply not_true_is_false; intros E; apply Hn, dims_eqb_iff, E.
Qed.

Lemma operator_plus_same (A B : Matrix T) :
  valid A -> valid B -> same_shape A B ->
  exists R, operator_plus ndebug A B = Ok R /\
            rows R = rows A /\ cols R = cols A /\ valid R /\
            forall i j, i < rows A -> j < cols A ->
                        elem R i j = Tadd (elem A i j) (elem B i j).
Proof.
  intros VA VB S.
  destruct (elementwise_ok Tadd A B VA VB S) as (v & E & P).
  unfold operator_plus.
  rewrite (proj2 (dims_eqb_iff _ _ _ _) S), E; simpl.
  eexists; split; [reflexivity | exact P].
Qed.

Lemma operator_plus_row_rhs (A B : Matrix T) :
  valid A -> valid B -> ~ same_shape A B ->
  rows B = 1 /\ cols B = cols A ->
  exists R, operator_plus ndebug A B = Ok R /\
            rows R = rows A /\ cols R = cols A /\ valid R /\
            forall i j, i < rows A -> j < cols A ->
                        elem R i j = Tadd (elem A i j) (elem B 0 j).
Proof.
  intros VA VB NS C2.
  pose proof VA as (Hr & Hc & Hrc & Hlen).
  destruct (Matrix_filled_ok (rows A) (cols A) (Tzero : T) Hr Hc Hrc)
    as (R0 & C0 & _ & V0).
  unfold operator_plus.
  rewrite (dims_eqb_false _ _ _ _ NS), (proj2 (dims_eqb_iff _ _ _ _) C2).
  apply (store_loops_ok (fun i j => Tadd (elem A i j) (elem B 0 j))
           (rows A) (cols A)
           (fun i j result =>
              a <- operator_call ndebug A i j ;;
              b <- operator_call ndebug B 0 j ;;
              operator_call_store ndebug result i j (Tadd a b)));
    try assumption.
  intros i j res Hi Hj.
  rewrite (operator_call_ok A i j VA Hi Hj); simpl.
  rewrite (operator_call_ok B 0 j VB) by lia; reflexivity.
Qed.

Lemma operator_plus_row_this (A B : Matrix T) :
  valid A -> valid B -> ~ same_shape A B ->
  ~ (rows B = 1 /\ cols B = cols A) ->
  rows A = 1 /\ cols A = cols B ->
  exists R, operator_plus ndebug A B = Ok R /\
            rows R = rows B /\ cols R = cols B /\ valid R /\
            forall i j, i < rows B -> j < cols B ->
                        elem R i j = Tadd (elem A 0 j) (elem B i j).
Proof.
  intros VA VB NS N2 C3.
  pose proof VB as (Hr & Hc & Hrc & Hlen).
  destruct C3 as (A1 & Ac).
  destruct (Matrix_filled_ok (rows B) (cols B) (Tzero : T) Hr Hc Hrc)
    as (R0 & C0 & _ & V0).
  unfold operator_plus.
  rewrite (dims_eqb_false _ _ _ _ NS), (dims_eqb_false _ _ _ _ N2).
  rewrite (proj2 (dims_eqb_iff _ _ _ _) (conj A1 Ac)).
  rewrite Ac.
  apply (store_loops_ok (fun i j => Tadd (elem A 0 j) (elem B i j))
           (rows B) (cols B)
           (fun i j result =>
              a <- operator_call ndebug A 0 j ;;
              b <- operator_call ndebug B i j ;;
              operator_call_store ndebug result i j (Tadd a b)));
    try assumption.
  intros i j res Hi Hj.
  rewrite (operator_call_ok A 0 j VA) by lia; simpl.
  rewrite (operator_call_ok B i j VB Hi Hj); reflexivity.
Qed.

(** X23: on valid matrices (fewer than 2^32 elements each) A + B
    resolves three shape cases in priority order: (1) equal shapes give
    the elementwise sum in the same shape; (2) otherwise a one-row B with
    A's column count is added to every row of A, in A's shape; (3)
    otherwise a one-row A with B's column count is added to every row of
    B, in B's shape. *)
Theorem X23_plus_broadcast_cases (A B : Matrix T) :
  valid A -> valid B ->
  (same_shape A B ->
   exists R, operator_plus ndebug A B = Ok R /\ same_shape R A /\ valid R /\
             forall i j, i < rows A -> j < cols A ->
                         elem R i j = Tadd (elem A i j) (elem B i j)) /\
  (~ same_shape A B -> rows B = 1 /\ cols B = cols A ->
   exists R, operator_plus ndebug A B = Ok R /\ same_shape R A /\ valid R /\
             forall i j, i < rows A -> j < cols A ->
                         elem R i j = Tadd (elem A i j) (elem B 0 j)) /\
  (~ same_shape A B -> ~ (rows B = 1 /\ cols B = cols A) ->
   rows A = 1 /\ cols A = cols B ->
   exists R, operator_plus ndebug A B = Ok R /\ same_shape R B /\ valid R /\
             forall i j, i < rows B -> j < cols B ->
                         elem R i j = Tadd (elem A 0 j) (elem B i j)).
Proof.
  intros VA VB; split; [|split].
  - intros S.
    destruct (operator_plus_same A B VA VB S) as (R & E & Rr & Rc & RV & RE).
    exists R; unfold same_shape; auto.
  - intros NS C2.
    destruct (operator_plus_row_rhs A B VA VB NS C2) as (R & E & Rr & Rc & RV & RE).
    exists R; unfold same_shape; auto.
  - intros NS N2 C3.
    destruct (operator_plus_row_this A B VA VB NS N2 C3)
      as (R & E & Rr & Rc & RV & RE).
    exists R; unfold same_shape; auto.
Qed.

(** ** Subtraction *)

Lemma operator_minus_same (A B : Matrix T) :
  valid A -> valid B -> same_shape A B ->
  exists R, operator_minus ndebug A B = Ok R /\
            rows R = rows A /\ cols R = cols A /\ valid R /\
            forall i j, i < rows A -> j < cols A ->
                        elem R i j = Tsub (elem A i j) (elem B i j).
Proof.
  intros VA VB S.
  destruct (elementwise_ok Tsub A B VA VB S) as (v & E & P).
  unfold operator_minus.
  rewrite assert_true by (apply dims_eqb_iff, S); cbn [bind].
  rewrite E; cbn [bind].
  eexists; split; [reflexivity | exact P].
Qed.

(** X25: for valid matrices A and B of one shape (fewer than 2^32
    elements), A + B and then (A + B) - B are returned and the latter is
    A, when the element arithmetic is exact (subtracting what was added
    gives the element back). *)
Theorem X25_plus_minus_cancel (A B : Matrix T) :
  (forall a b : T, Tsub (Tadd a b) b = a) ->
  valid A -> valid B -> same_shape A B ->
  exists S, operator_plus ndebug A B = Ok S /\ operator_minus ndebug S B = Ok A.
Proof.
  intros Exact VA VB Sh.
  destruct (operator_plus_same A B VA VB Sh) as (S & E & Sr & Sc & SV & SE).
  exists S; split; [exact E|].
  destruct (operator_minus_same S B SV VB) as (D & E' & Dr & Dc & DV & DE).
  { destruct Sh; split; congruence. }
  rewrite E'; f_equal.
  apply matrix_ext; try assumption; try congruence.
  intros i j Hi Hj.
  rewrite DE, SE by congruence. apply Exact.
Qed.

(** C4 as amended: when no case of operator+ applies, a build with
    assertions stops at the assertion and returns nothing, and a build
    with NDEBUG returns the empty 0x0 matrix. *)
Theorem C4_plus_unsupported_shapes (A B : Matrix T) :
  ~ same_shape A B ->
  ~ (rows B = 1 /\ cols B = cols A) ->
  ~ (rows A = 1 /\ cols A = cols B) ->
  operator_plus ndebug A B =
    if ndebug then Ok (mkMatrix 0 0 []) else AssertFail.
Proof.
  intros N1 N2 N3; unfold operator_plus.
  rewrite (dims_eqb_false _ _ _ _ N1), (dims_eqb_false _ _ _ _ N2),
          (dims_eqb_false _ _ _ _ N3).
  unfold assert; destruct ndebug; reflexivity.
Qed.

(** ** Multiplication *)

Lemma dot_upto_succ (A B : Matrix T) (i j k : N) :
  dot_upto A B i j (k + 1) =
  Tadd (dot_upto A B i j k) (Tmul (elem A i k) (elem B k j)).
Proof.
  unfold dot_upto; rewrite Nrange_succ, fold_left_app; reflexivity.
Qed.

Lemma dot_upto_all (A B : Matrix T) (i j : N) :
  dot_upto A B i j (cols A) = inner_product A B i j.
Proof. reflexivity. Qed.

(** A store at the offset of [(i, j)] changes that element and no other. *)
Lemma vec_set_elem (m : Matrix T) (i j : N) (x : T) :
  valid m -> i < rows m -> j < cols m ->
  exists v, vec_set (mat m) (i * cols m + j) x = Ok v /\
            valid (set_mat m v) /\
            elem (set_mat m v) i j = x /\
            forall i' j', j' < cols m -> (i', j') <> (i, j) ->
                          elem (set_mat m v) i' j' = elem m i' j'.
Proof.
  intros V Hi Hj.
  destruct (valid_offset m i j V Hi Hj) as (Ei & Ej & Eo & L).
  destruct (vec_set_ok (mat m) (i * cols m + j) x L) as (v & Ev & Len & Here & Else).
  exists v; split; [exact Ev|]. split; [|split].
  - destruct V as (Hr & Hc & Hrc & Hlen); unfold valid; simpl.
    rewrite Len; tauto.
  - unfold elem; simpl; exact Here.
  - intros i' j' Hj' Ne; unfold elem; simpl; apply Else.
    intros E; apply Ne.
    assert (E' : i' * cols m + j' = i * cols m + j) by lia.
    apply offset_inj in E'; [|assumption|assumption].
    destruct E' as [-> ->]; reflexivity.
Qed.

Lemma operator_mul_ok (A B : Matrix T) :
  valid A -> valid B -> cols A = rows B -> rows A * cols B < UINT_MOD ->
  exists R, operator_mul ndebug A B = Ok R /\
            rows R = rows A /\ cols R = cols B /\ valid R /\
            forall i j, i < rows A -> j < cols B ->
                        elem R i j = inner_product A B i j.
Proof.
  intros VA VB Inner Fit.
  pose proof VA as (Hr & Hc & Hrc & Hlen).
  pose proof VB as (Hr' & Hc' & Hrc' & Hlen').
  destruct (Matrix_filled_ok (rows A) (cols B) (Tzero : T) Hr Hc' Fit)
    as (R0 & C0 & _ & V0).
  unfold operator_mul.
  rewrite assert_true by (apply N.eqb_eq; exact Inner); cbn [bind].
  destruct (for_range_total (fun i res => mul_upto A B i 0 0 res)
    (fun i result =>
       for_range (cols A) (fun k result =>
         temp <- operator_call ndebug A i k ;;
         let rhs_offset := u64 (k * cols B) in
         let result_offset := u64 (i * cols result) in
         for_range (cols B) (fun j result =>
           r <- vec_get (mat result) (u64 (result_offset + j)) ;;
           b <- vec_get (mat B) (u64 (rhs_offset + j)) ;;
           v <- vec_set (mat result) (u64 (result_offset + j))
                        (Tadd r (Tmul temp b)) ;;
           Ok (set_mat result v)) result) result)
    (rows A) (Matrix_filled (rows A) (cols B) Tzero))
    as (R & E & (Rr & Rc & RV & RE)).
  - (* before the first row *)
    split; [exact R0|]. split; [exact C0|]. split; [exact V0|].
    intros i' j' Hi' Hj'; rewrite elem_filled_zero.
    replace (i' <? 0) with false by (symmetry; apply N.ltb_ge; lia).
    replace (j' <? 0) with false by (symmetry; apply N.ltb_ge; lia).
    destruct (i' =? 0); reflexivity.
  - (* row i *)
    intros i res Hi Inv.
    destruct (for_range_total (fun k res => mul_upto A B i k 0 res)
      (fun k result =>
         temp <- operator_call ndebug A i k ;;
         let rhs_offset := u64 (k * cols B) in
         let result_offset := u64 (i * cols result) in
         for_range (cols B) (fun j result =>
           r <- vec_get (mat result) (u64 (result_offset + j)) ;;
           b <- vec_get (mat B) (u64 (rhs_offset + j)) ;;
           v <- vec_set (mat result) (u64 (result_offset + j))
                        (Tadd r (Tmul temp b)) ;;
           Ok (set_mat result v)) result)
      (cols A) res Inv) as (res' & E' & (Rr & Rc & RV & RE)).
    + (* term k *)
      intros k t Hk Invk.
      rewrite (operator_call_ok A i k VA Hi Hk); cbn [bind]; cbv zeta.
      assert (Ct : cols t = cols B) by apply Invk.
      rewrite Ct.
      assert (Ok1 : u64 (k * cols B) = k * cols B).
      { apply u64_small, UINT_lt_SIZE. nia. }
      assert (Ok2 : u64 (i * cols B) = i * cols B).
      { apply u64_small, UINT_lt_SIZE. nia. }
      rewrite Ok1, Ok2.
      destruct (for_range_total (fun j res => mul_upto A B i k j res)
        (fun j result =>
           r <- vec_get (mat result) (u64 (i * cols B + j)) ;;
           b <- vec_get (mat B) (u64 (k * cols B + j)) ;;
           v <- vec_set (mat result) (u64 (i * cols B + j))
                        (Tadd r (Tmul (elem A i k) b)) ;;
           Ok (set_mat result v))
        (cols B) t Invk) as (t' & Et & (Rr & Rc & RV & RE)).
      * (* column j *)
        intros j u Hj (Ur & Uc & UV & UE).
        assert (Hiu : i < rows u) by lia.
        assert (Hju : j < cols u) by lia.
        assert (Hkb : k < rows B) by lia.
        destruct (valid_offset u i j UV Hiu Hju) as (_ & _ & _ & Lu).
        destruct (valid_offset B k j VB Hkb Hj) as (_ & _ & _ & Lb).
        rewrite Uc in Lu.
        assert (Ok3 : u64 (i * cols B + j) = i * cols B + j).
        { apply u64_small, UINT_lt_SIZE.
          pose proof (offset_lt _ _ _ _ Hi Hj); lia. }
        assert (Ok4 : u64 (k * cols B + j) = k * cols B + j).
        { apply u64_small, UINT_lt_SIZE.
          pose proof (offset_lt _ _ _ _ Hkb Hj); lia. }
        rewrite Ok3, Ok4.
        rewrite (vec_get_ok _ _ Lu), (vec_get_ok _ _ Lb); cbn [bind].
        destruct (vec_set_elem u i j
                    (Tadd (nth (N.to_nat (i * cols B + j)) (mat u) Tzero)
                          (Tmul (elem A i k)
                                (nth (N.to_nat (k * cols B + j)) (mat B) Tzero)))
                    UV Hiu Hju) as (v & Ev & VV & Here & Else).
        rewrite Uc in Ev; rewrite Ev; cbn [bind].
        exists (set_mat u v); split; [reflexivity|].
        split; [exact Ur|]. split; [exact Uc|]. split; [exact VV|].
        intros i' j' Hi' Hj'.
        destruct (N.eq_dec i' i) as [-> | Ni].
        -- destruct (N.eq_dec j' j) as [-> | Nj].
           ++ rewrite Here.
              rewrite N.ltb_irrefl, N.eqb_refl.
              replace (j <? j + 1) with true by (symmetry; apply N.ltb_lt; lia).
              rewrite dot_upto_succ.
              specialize (UE i j Hi Hj).
              rewrite N.ltb_irrefl, N.eqb_refl, N.ltb_irrefl in UE.
              unfold elem in UE at 1; rewrite Uc in UE; rewrite UE.
              reflexivity.
           ++ rewrite Else by (try lia; congruence).
              rewrite (UE i j' Hi Hj').
              rewrite N.ltb_irrefl, N.eqb_refl.
              replace (j' <? j + 1) with (j' <? j); [reflexivity|].
              destruct (j' <? j) eqn:L; symmetry.
              ** apply N.ltb_lt in L; apply N.ltb_lt; lia.
              ** apply N.ltb_ge in L; apply N.ltb_ge; lia.
        -- rewrite Else by (try lia; congruence).
           rewrite (UE i' j' Hi' Hj').
           destruct (i' <? i); [reflexivity|].
           replace (i' =? i) with false by (symmetry; apply N.eqb_neq; exact Ni).
           reflexivity.
      * (* all columns of term k done *)
        exists t'; split; [exact Et|].
        split; [exact Rr|]. split; [exact Rc|]. split; [exact RV|].
        intros i' j' Hi' Hj'; rewrite (RE i' j' Hi' Hj').
        destruct (i' <? i); [reflexivity|].
        destruct (i' =? i); [|reflexivity].
        replace (j' <? cols B) with true by (symmetry; apply N.ltb_lt; exact Hj').
        replace (j' <? 0) with false by (symmetry; apply N.ltb_ge; lia).
        reflexivity.
    + (* all terms of row i done *)
      exists res'; split; [exact E'|].
      split; [exact Rr|]. split; [exact Rc|]. split; [exact RV|].
      intros i' j' Hi' Hj'; rewrite (RE i' j' Hi' Hj').
      replace (j' <? 0) with false by (symmetry; apply N.ltb_ge; lia).
      destruct (N.lt_trichotomy i' i) as [L | [-> | L]].
      * replace (i' <? i) with true by (symmetry; apply N.ltb_lt; exact L).
        replace (i' <? i + 1) with true by (symmetry; apply N.ltb_lt; lia).
        reflexivity.
      * rewrite N.ltb_irrefl, N.eqb_refl.
        replace (i <? i + 1) with true by (symmetry; apply N.ltb_lt; lia).
        apply dot_upto_all.
      * replace (i' <? i) with false by (symmetry; apply N.ltb_ge; lia).
        replace (i' =? i) with false by (symmetry; apply N.eqb_neq; lia).
        replace (i' <? i + 1) with false by (symmetry; apply N.ltb_ge; lia).
        destruct (i' =? i + 1); reflexivity.
  - exists R; split; [exact E|].
    split; [exact Rr|]. split; [exact Rc|]. split; [exact RV|].
    intros i j Hi Hj; rewrite (RE i j Hi Hj).
    replace (i <? rows A) with true by (symmetry; apply N.ltb_lt; exact Hi).
    reflexivity.
Qed.

(** ** The reference product *)

Lemma flat_rows_length (f : N -> N -> T) (c : N) (n : nat) : forall (s : nat),
  length (flat_map (fun i => map (f i) (Nrange c)) (map N.of_nat (seq s n))) =
  (n * N.to_nat c)%nat.
Proof.
  induction n as [|n IH]; intros s; simpl; [reflexivity|].
  rewrite length_app, length_map, Nrange_length, IH; reflexivity.
Qed.

Lemma flat_rows_nth (f : N -> N -> T) (c : N) (n : nat) : forall (s i j : nat),
  (i < n)%nat -> (j < N.to_nat c)%nat ->
  nth (i * N.to_nat c + j)
      (flat_map (fun i => map (f i) (Nrange c)) (map N.of_nat (seq s n))) Tzero =
  f (N.of_nat (s + i)) (N.of_nat j).
Proof.
  induction n as [|n IH]; intros s i j Hi Hj; [lia|]; simpl.
  destruct i as [|i]; simpl.
  - rewrite app_nth1 by (rewrite length_map, Nrange_length; exact Hj).
    rewrite (nth_indep _ Tzero (f (N.of_nat s) 0))
      by (rewrite length_map, Nrange_length; exact Hj).
    rewrite map_nth, Nrange_nth by exact Hj.
    rewrite Nat.add_0_r; reflexivity.
  - rewrite app_nth2 by (rewrite length_map, Nrange_length; lia).
    rewrite length_map, Nrange_length.
    replace (N.to_nat c + i * N.to_nat c + j - N.to_nat c)%nat
      with (i * N.to_nat c + j)%nat by lia.
    rewrite IH by lia.
    f_equal; lia.
Qed.

Lemma mul_naive_ok (A B : Matrix T) :
  valid A -> valid B -> rows A * cols B < UINT_MOD ->
  valid (mul_naive A B) /\
  forall i j, i < rows A -> j < cols B ->
              elem (mul_naive A B) i j = inner_product A B i j.
Proof.
  intros (Hr & _) (_ & Hc & _) Fit; split.
  - unfold valid, mul_naive; cbn [rows cols mat].
    split; [exact Hr|]. split; [exact Hc|]. split; [exact Fit|].
    rewrite (flat_rows_length (inner_product A B) (cols B) (N.to_nat (rows A)) 0).
    lia.
  - intros i j Hi Hj; unfold elem, mul_naive; cbn [rows cols mat].
    replace (N.to_nat (i * cols B + j))
      with (N.to_nat i * N.to_nat (cols B) + N.to_nat j)%nat by lia.
    rewrite (flat_rows_nth (inner_product A B) (cols B) (N.to_nat (rows A)) 0)
      by lia.
    simpl; rewrite !N2Nat.id; reflexivity.
Qed.

Lemma mul_naive_loops_ok (A B : Matrix T) :
  valid A -> valid B -> cols A = rows B -> rows A * cols B < UINT_MOD ->
  exists R, mul_naive_loops ndebug A B = Ok R /\
            rows R = rows A /\ cols R = cols B /\ valid R /\
            forall i j, i < rows A -> j < cols B ->
                        elem R i j = inner_product A B i j.
Proof.
  intros VA VB Inner Fit.
  pose proof VA as (Hr & Hc & Hrc & Hlen).
  pose proof VB as (Hr' & Hc' & Hrc' & Hlen').
  destruct (Matrix_filled_ok (rows A) (cols B) (Tzero : T) Hr Hc' Fit)
    as (R0 & C0 & _ & V0).
  unfold mul_naive_loops.
  rewrite assert_true by (apply N.eqb_eq; exact Inner); cbn [bind].
  apply (store_loops_ok (inner_product A B) (rows A) (cols B)
           (fun i j result =>
              sum <- for_range (cols A) (fun k sum =>
                       a <- operator_call ndebug A i k ;;
                       b <- operator_call ndebug B k j ;;
                       Ok (Tadd sum (Tmul a b))) Tzero ;;
              operator_call_store ndebug result i j sum));
    try assumption.
  intros i j res Hi Hj.
  destruct (for_range_total (fun k sum => sum = dot_upto A B i j k)
              (fun k sum =>
                 a <- operator_call ndebug A i k ;;
                 b <- operator_call ndebug B k j ;;
                 Ok (Tadd sum (Tmul a b)))
              (cols A) Tzero) as (sum & E & Esum).
  - reflexivity.
  - intros k s Hk ->.
    rewrite (operator_call_ok A i k VA Hi Hk); cbn [bind].
    rewrite (operator_call_ok B k j VB) by (try assumption; lia); cbn [bind].
    eexists; split; [reflexivity|]. symmetry; apply dot_upto_succ.
  - rewrite E; cbn [bind]. rewrite Esum, dot_upto_all; reflexivity.
Qed.

(** X22: for valid matrices A and B (fewer than 2^32 elements each) with
    A.cols == B.rows whose product shape has fewer than 2^32 elements,
    A * B computed by the i, k, j loops is returned and is the matrix that
    the naive i, j, k loops return: its shape is (A.rows, B.cols) and its
    element (i, j) is the inner product of row i of A and column j of
    B. *)
Theorem X22_mul_refines_naive (A B : Matrix T) :
  valid A -> valid B -> cols A = rows B -> rows A * cols B < UINT_MOD ->
  operator_mul ndebug A B = Ok (mul_naive A B) /\
  mul_naive_loops ndebug A B = Ok (mul_naive A B) /\
  get_rows (mul_naive A B) = get_rows A /\
  get_cols (mul_naive A B) = get_cols B /\
  forall i j, i < get_rows A -> j < get_cols B ->
    operator_call ndebug (mul_naive A B) i j = Ok (inner_product A B i j).
Proof.
  intros VA VB Inner Fit.
  destruct (operator_mul_ok A B VA VB Inner Fit) as (R & E & Rr & Rc & RV & RE).
  destruct (mul_naive_loops_ok A B VA VB Inner Fit)
    as (R' & E' & Rr' & Rc' & RV' & RE').
  destruct (mul_naive_ok A B VA VB Fit) as (NV & NE).
  split; [|split; [|split; [reflexivity | split; [reflexivity|]]]].
  - rewrite E; f_equal.
    apply matrix_ext; try assumption.
    intros i j Hi Hj.
    rewrite RE, NE by congruence; reflexivity.
  - rewrite E'; f_equal.
    apply matrix_ext; try assumption.
    intros i j Hi Hj.
    rewrite RE', NE by congruence; reflexivity.
  - unfold get_rows, get_cols; intros i j Hi Hj.
    rewrite operator_call_ok by assumption.
    rewrite NE by assumption; reflexivity.
Qed.

(** ** Non-const queries *)

Lemma diag_vec_ok (m : Matrix T) :
  valid m ->
  exists v, diag_vec ndebug m = Ok (v, m) /\
            N.of_nat (length v) = N.min (rows m) (cols m) /\
            forall i, i < N.min (rows m) (cols m) ->
                      nth (N.to_nat i) v Tzero = elem m i i.
Proof.
  intros V; unfold diag_vec.
  set (n := if rows m <? cols m then rows m else cols m).
  assert (En : n = N.min (rows m) (cols m)).
  { unfold n; destruct (rows m <? cols m) eqn:L.
    - apply N.ltb_lt in L; lia.
    - apply N.ltb_ge in L; lia. }
  destruct (for_range_total
              (fun i (st : list T * Matrix T) =>
                 snd st = m /\ N.of_nat (length (fst st)) = n /\
                 forall i', i' < i -> nth (N.to_nat i') (fst st) Tzero = elem m i' i')
              (fun i (st : list T * Matrix T) =>
                 let '(result, this) := st in
                 x <- operator_call_load ndebug this i i ;;
                 v <- vec_set result i x ;;
                 Ok (v, this))
              n (repeat Tzero (N.to_nat n), m))
    as ([v m'] & E & (Em & Len & Nth)).
  - simpl; rewrite repeat_length.
    split; [reflexivity|]. split; [lia|]. intros i' Hi'; lia.
  - intros i [res this] Hi (Ethis & Len & Nth); simpl in Ethis, Len, Nth; subst this.
    rewrite operator_call_load_ok by (try assumption; lia); cbn [bind].
    destruct (vec_set_ok res i (elem m i i)) as (v & Ev & Lv & Here & Else); [lia|].
    rewrite Ev; cbn [bind].
    eexists; split; [reflexivity|]; simpl.
    split; [reflexivity|]. split; [lia|].
    intros i' Hi'.
    destruct (N.eq_dec i' i) as [-> | Ne]; [exact Here|].
    rewrite Else by lia. apply Nth; lia.
  - simpl in Em, Len, Nth; subst m'.
    exists v; split; [exact E|]. split; [lia|].
    intros i Hi; apply Nth; lia.
Qed.

Lemma diag_vec_frame (m m' : Matrix T) (v : list T) :
  diag_vec ndebug m = Ok (v, m') -> m' = m.
Proof.
  unfold diag_vec; intros E.
  apply (for_range_keeps (fun st : list T * Matrix T => snd st = m)) in E;
    [exact E | | reflexivity].
  intros i [res this] [res' this'] Is Eb; simpl in Is; subst this.
  bind_inv Eb. bind_inv Eb. injection Eb as _ <-; reflexivity.
Qed.

Lemma operator_mul_vec_ok (m : Matrix T) (rhs : list T) :
  valid m -> N.of_nat (length rhs) = cols m ->
  exists v, operator_mul_vec ndebug m rhs = Ok (v, m) /\
            N.of_nat (length v) = rows m /\
            forall i, i < rows m ->
                      nth (N.to_nat i) v Tzero = row_dot_upto m rhs i (cols m).
Proof.
  intros V Lr; unfold operator_mul_vec.
  rewrite assert_true by (apply N.eqb_eq; exact Lr); cbn [bind].
  destruct (for_range_total
              (fun i (st : list T * Matrix T) =>
                 snd st = m /\ N.of_nat (length (fst st)) = rows m /\
                 forall i', i' < i ->
                   nth (N.to_nat i') (fst st) Tzero = row_dot_upto m rhs i' (cols m))
              (fun i (st : list T * Matrix T) =>
                 let '(result, this) := st in
                 st' <- for_range (cols this) (fun j (st : T * Matrix T) =>
                          let '(sum, this) := st in
                          a <- operator_call_load ndebug this i j ;;
                          b <- vec_get rhs j ;;
                          Ok (Tadd sum (Tmul a b), this)) (Tzero, this) ;;
                 let '(sum, this) := st' in
                 v <- vec_set result i sum ;;
                 Ok (v, this))
              (rows m) (repeat Tzero (N.to_nat (rows m)), m))
    as ([v m'] & E & (Em & Len & Nth)).
  - simpl; rewrite repeat_length.
    split; [reflexivity|]. split; [lia|]. intros i' Hi'; lia.
  - intros i [res this] Hi (Ethis & Len & Nth); simpl in Ethis, Len, Nth; subst this.
    destruct (for_range_total
                (fun j (st : T * Matrix T) =>
                   snd st = m /\ fst st = row_dot_upto m rhs i j)
                (fun j (st : T * Matrix T) =>
                   let '(sum, this) := st in
                   a <- operator_call_load ndebug this i j ;;
                   b <- vec_get rhs j ;;
                   Ok (Tadd sum (Tmul a b), this))
                (cols m) (Tzero, m))
      as ([sum this] & Ei & (Ethis & Esum)).
    + split; reflexivity.
    + intros j [sum this] Hj (Ethis & Esum); simpl in Ethis, Esum; subst this sum.
      rewrite operator_call_load_ok by assumption; cbn [bind].
      rewrite vec_get_ok by lia; cbn [bind].
      eexists; split; [reflexivity|]; simpl; split; [reflexivity|].
      unfold row_dot_upto; rewrite Nrange_succ, fold_left_app; reflexivity.
    + simpl in Ethis, Esum; subst this sum.
      rewrite Ei; cbn [bind].
      destruct (vec_set_ok res i (row_dot_upto m rhs i (cols m)))
        as (v & Ev & Lv & Here & Else); [lia|].
      rewrite Ev; cbn [bind].
      eexists; split; [reflexivity|]; simpl.
      split; [reflexivity|]. split; [lia|].
      intros i' Hi'.
      destruct (N.eq_dec i' i) as [-> | Ne]; [exact Here|].
      rewrite Else by lia. apply Nth; lia.
  - simpl in Em, Len, Nth; subst m'.
    exists v; split; [exact E|]. split; [lia|].
    intros i Hi; apply Nth; lia.
Qed.

Lemma operator_mul_vec_frame (m m' : Matrix T) (rhs v : list T) :
  operator_mul_vec ndebug m rhs = Ok (v, m') -> m' = m.
Proof.
  unfold operator_mul_vec; intros E.
  bind_inv E.
  apply (for_range_keeps (fun st : list T * Matrix T => snd st = m)) in E;
    [exact E | | reflexivity].
  intros i [res this] [res' this'] Is Eb; simpl in Is; subst this.
  bind_inv Eb. destruct a0 as [sum this].
  apply (for_range_keeps (fun st : T * Matrix T => snd st = m)) in Ha0.
  - simpl in Ha0; subst this.
    bind_inv Eb. injection Eb as _ <-; reflexivity.
  - intros j [s t] [s' t'] It Ej; simpl in It; subst t.
    bind_inv Ej. bind_inv Ej. injection Ej as _ <-; reflexivity.
  - reflexivity.
Qed.

(** C10: diag_vec() and the matrix-vector product, both non-const member
    functions, return on every matrix (the product for a vector of cols
    elements) and leave the matrix as it was: same rows, cols and
    storage. *)
Theorem C10_queries_leave_matrix_unchanged (m : Matrix T) (rhs : list T) :
  (forall v m', diag_vec ndebug m = Ok (v, m') -> m' = m) /\
  (forall v m', operator_mul_vec ndebug m rhs = Ok (v, m') -> m' = m) /\
  (valid m -> exists v, diag_vec ndebug m = Ok (v, m)) /\
  (valid m -> N.of_nat (length rhs) = cols m ->
   exists v, operator_mul_vec ndebug m rhs = Ok (v, m)).
Proof.
  split; [|split; [|split]].
  - intros v m' E; eapply diag_vec_frame; exact E.
  - intros v m' E; eapply operator_mul_vec_frame; exact E.
  - intros V; destruct (diag_vec_ok m V) as (v & E & _); exists v; exact E.
  - intros V L; destruct (operator_mul_vec_ok m rhs V L) as (v & E & _).
    exists v; exact E.
Qed.

(** ** Construction, copy and move *)

(** C7 as amended: the source of a move construction, and the source of a
    move assignment to another object, is left as the valid 0x0 matrix and
    its value is in the target; assigning an object to itself, by copy or
    by move, leaves the store as it was. *)
Theorem C7_move_source_and_self_assignment :
  (forall m : Matrix T,
     fst (Matrix_move m) = m /\
     rows (snd (Matrix_move m)) = 0 /\ cols (snd (Matrix_move m)) = 0 /\
     valid (snd (Matrix_move m))) /\
  (forall (h : store) (this rhs : nat) (t r : Matrix T),
     this <> rhs -> h this = Some t -> h rhs = Some r ->
     exists h' s,
       operator_assign_move this rhs h = Ok h' /\
       h' this = Some r /\ h' rhs = Some s /\
       rows s = 0 /\ cols s = 0 /\ valid s) /\
  (forall (h : store (T := T)) (a : nat), operator_assign a a h = Ok h) /\
  (forall (h : store (T := T)) (a : nat), operator_assign_move a a h = Ok h).
Proof.
  split; [|split; [|split]].
  - intros [r c v]; unfold Matrix_move, valid; simpl.
    repeat split; reflexivity.
  - intros h this rhs t r Ne Ht Hr.
    exists (store_upd (store_upd h rhs (mkMatrix 0 0 [])) this r), (mkMatrix 0 0 []).
    unfold operator_assign_move.
    apply Nat.eqb_neq in Ne; rewrite Ne, Ht, Hr; simpl.
    destruct r as [rr rc rv]; simpl.
    split; [reflexivity|]. split.
    + unfold store_upd; rewrite Nat.eqb_refl; reflexivity.
    + split.
      * unfold store_upd. rewrite Nat.eqb_sym, Ne, Nat.eqb_refl; reflexivity.
      * unfold valid; simpl; repeat split; reflexivity.
  - intros h a; unfold operator_assign; rewrite Nat.eqb_refl; reflexivity.
  - intros h a; unfold operator_assign_move; rewrite Nat.eqb_refl; reflexivity.
Qed.

(** ** The storage invariant *)

Section StorageInvariant.

Variable Gen : Type.
Variable uniform_real : T -> T -> Gen -> T * Gen.

Lemma valid_same_shape (m m' : Matrix T) :
  shape_of m' = shape_of m -> valid m -> valid m'.
Proof.
  unfold shape_of, valid; intros E; injection E as -> -> ->; tauto.
Qed.

(** A matrix with the shape the filled constructor gives is valid as soon
    as its element count is an [unsigned] value. *)
Lemma valid_filled_shape (m : Matrix T) (r c : N) (x : T) :
  shape_of m = shape_of (Matrix_filled r c x) ->
  rows m * cols m < UINT_MOD -> valid m.
Proof.
  unfold shape_of, Matrix_filled, valid; simpl.
  rewrite repeat_length; intros E; injection E as -> -> ->; intros Fit.
  split; [apply u32_lt|]. split; [apply u32_lt|]. split; [exact Fit|].
  rewrite (u32_small _ Fit); lia.
Qed.

Lemma valid_filled_dims (m : Matrix T) (x : T) :
  valid m -> valid (Matrix_filled (rows m) (cols m) x).
Proof.
  intros (Hr & Hc & Hrc & _).
  apply (Matrix_filled_ok (rows m) (cols m) x); assumption.
Qed.

Lemma set_mat_shape (m : Matrix T) (v : list T) :
  length v = length (mat m) -> shape_of (set_mat m v) = shape_of m.
Proof. unfold shape_of; simpl; intros ->; reflexivity. Qed.

Lemma operator_call_store_shape (m m' : Matrix T) (i j : N) (x : T) :
  operator_call_store ndebug m i j x = Ok m' -> shape_of m' = shape_of m.
Proof.
  unfold operator_call_store; intros E.
  bind_inv E. bind_inv E. injection E as <-.
  apply set_mat_shape. eapply vec_set_length; eassumption.
Qed.

Lemma copy_at_length (src : list T) : forall (off : N) (dst d : list T),
  copy_at src off dst = Ok d -> length d = length dst.
Proof.
  induction src as [|x src IH]; intros off dst d E; simpl in E.
  - injection E as <-; reflexivity.
  - bind_inv E. apply IH in E. apply vec_set_length in Ha. congruence.
Qed.

Lemma nested_loops_shape (body : N -> N -> Matrix T -> outcome (Matrix T))
      (r c : N) (res0 R : Matrix T) :
  (forall i j res res', body i j res = Ok res' -> shape_of res' = shape_of res) ->
  for_range r (fun i res => for_range c (fun j res => body i j res) res) res0 = Ok R ->
  shape_of R = shape_of res0.
Proof.
  intros Body E.
  apply (for_range_keeps (fun res => shape_of res = shape_of res0)) in E;
    [exact E | | reflexivity].
  intros i res res' Is Ei.
  apply (for_range_keeps (fun t => shape_of t = shape_of res0)) in Ei;
    [exact Ei | | exact Is].
  intros j t t' It Ej. rewrite <- It. eapply Body; exact Ej.
Qed.

Lemma Matrix_nested_shape (l : list (list T)) (m : Matrix T) :
  Matrix_nested ndebug l = Ok m -> exists r c, shape_of m = shape_of (Matrix_filled r c Tzero).
Proof.
  unfold Matrix_nested; intros E.
  set (r := u32 (N.of_nat (length l))) in *.
  set (c := u32 (match l with [] => 0 | row0 :: _ => N.of_nat (length row0) end)) in *.
  exists r, c.
  assert (E0 : shape_of (mkMatrix r c (repeat Tzero (N.to_nat (u32 (r * c))))) =
               shape_of (Matrix_filled r c (Tzero : T))).
  { unfold shape_of, Matrix_filled; simpl.
    unfold r, c, u32; rewrite !N.Div0.mod_mod; reflexivity. }
  rewrite <- E0.
  apply (for_range_keeps
           (fun t => shape_of t =
                     shape_of (mkMatrix r c (repeat Tzero (N.to_nat (u32 (r * c)))))))
    in E; [exact E | | reflexivity].
  intros i t t' It Ei.
  destruct (nth_error l (N.to_nat i)) as [row|]; [|discriminate].
  bind_inv Ei. bind_inv Ei. injection Ei as <-.
  rewrite <- It. apply set_mat_shape. eapply copy_at_length; eassumption.
Qed.

Lemma initRandomQSMatrix_shape (r c : N) (w : T) (g g' : Gen) (m : Matrix T) :
  initRandomQSMatrix Gen uniform_real r c w g = Ok (m, g') ->
  shape_of m = shape_of (Matrix_filled r c (Tzero : T)).
Proof.
  unfold initRandomQSMatrix; intros E.
  apply (for_range_keeps
           (fun st : Matrix T * Gen =>
              shape_of (fst st) = shape_of (Matrix_filled r c (Tzero : T))))
    in E; [exact E | | reflexivity].
  intros i [t gt] [t' gt'] It Ei; simpl in It.
  destruct (uniform_real (Topp w) w gt) as [x gx].
  bind_inv Ei. injection Ei as <- _; simpl.
  rewrite <- It. apply set_mat_shape. eapply vec_set_length; eassumption.
Qed.

(** A call for an empty shape draws nothing: it returns the empty matrix
    and the generator as it was. *)
Lemma initRandomQSMatrix_empty (w : T) (g : Gen) :
  initRandomQSMatrix Gen uniform_real 0 0 w g = Ok (mkMatrix 0 0 [], g).
Proof. reflexivity. Qed.

Lemma elementwise_shape (op : T -> T -> T) (a b : Matrix T) (v : list T) :
  transform2 op (mat a) (mat b) (mat (Matrix_filled (rows a) (cols a) Tzero)) = Ok v ->
  shape_of (set_mat (Matrix_filled (rows a) (cols a) Tzero) v) =
  shape_of (Matrix_filled (rows a) (cols a) (Tzero : T)).
Proof.
  intros E; apply set_mat_shape. eapply transform2_length; exact E.
Qed.

Lemma compound_loop_shape (op : T -> T -> T) (a b m : Matrix T) :
  compound_loop op a b = Ok m -> shape_of m = shape_of a.
Proof.
  unfold compound_loop; intros E.
  apply (for_range_keeps (fun t => shape_of t = shape_of a)) in E;
    [exact E | | reflexivity].
  intros i t t' It Ei.
  bind_inv Ei. bind_inv Ei. bind_inv Ei. injection Ei as <-.
  rewrite <- It. apply set_mat_shape. eapply vec_set_length; eassumption.
Qed.

Lemma scalar_op_valid (f : T -> T) (a m : Matrix T) :
  valid a -> scalar_op f a = Ok m -> valid m.
Proof.
  unfold scalar_op; intros V E.
  bind_inv E. injection E as <-.
  apply (valid_same_shape (Matrix_filled (rows a) (cols a) Tzero));
    [|apply valid_filled_dims; exact V].
  apply set_mat_shape. eapply transform1_length; eassumption.
Qed.

Lemma operator_plus_valid (a b m : Matrix T) :
  valid a -> valid b -> operator_plus ndebug a b = Ok m -> valid m.
Proof.
  unfold operator_plus; intros Va Vb E.
  destruct ((rows a =? rows b) && (cols a =? cols b)).
  { bind_inv E. injection E as <-.
    apply (valid_same_shape (Matrix_filled (rows a) (cols a) Tzero));
      [eapply elementwise_shape; eassumption | apply valid_filled_dims; exact Va]. }
  destruct ((rows b =? 1) && (cols b =? cols a)).
  { apply (valid_same_shape (Matrix_filled (rows a) (cols a) Tzero));
      [|apply valid_filled_dims; exact Va].
    apply (nested_loops_shape
             (fun i j result =>
                x <- operator_call ndebug a i j ;;
                y <- operator_call ndebug b 0 j ;;
                operator_call_store ndebug result i j (Tadd x y))) in E; [exact E|].
    intros i j res res' Eb. bind_inv Eb. bind_inv Eb.
    eapply operator_call_store_shape; exact Eb. }
  destruct ((rows a =? 1) && (cols a =? cols b)) eqn:C3.
  { apply dims_eqb_iff in C3; destruct C3 as (_ & C3).
    apply (valid_same_shape (Matrix_filled (rows b) (cols b) Tzero));
      [|apply valid_filled_dims; exact Vb].
    rewrite <- C3.
    apply (nested_loops_shape
             (fun i j result =>
                x <- operator_call ndebug a 0 j ;;
                y <- operator_call ndebug b i j ;;
                operator_call_store ndebug result i j (Tadd x y))) in E; [exact E|].
    intros i j res res' Eb. bind_inv Eb. bind_inv Eb.
    eapply operator_call_store_shape; exact Eb. }
  bind_inv E. injection E as <-.
  unfold valid, UINT_MOD; simpl; repeat split; reflexivity.
Qed.

Lemma checked_elementwise_valid (op : T -> T -> T) (a b m : Matrix T) :
  valid a ->
  (assert ndebug ((rows a =? rows b) && (cols a =? cols b)) ;;;
   (v <- transform2 op (mat a) (mat b) (mat (Matrix_filled (rows a) (cols a) Tzero)) ;;
    Ok (set_mat (Matrix_filled (rows a) (cols a) Tzero) v))) = Ok m ->
  valid m.
Proof.
  intros Va E. bind_inv E. bind_inv E. injection E as <-.
  apply (valid_same_shape (Matrix_filled (rows a) (cols a) Tzero));
    [eapply elementwise_shape; eassumption | apply valid_filled_dims; exact Va].
Qed.

Lemma checked_compound_valid (op : T -> T -> T) (a b m : Matrix T) :
  valid a ->
  (assert ndebug ((rows a =? rows b) && (cols a =? cols b)) ;;;
   compound_loop op a b) = Ok m ->
  valid m.
Proof.
  intros Va E. bind_inv E.
  apply (valid_same_shape a); [eapply compound_loop_shape; exact E | exact Va].
Qed.

Lemma operator_mul_shape (a b m : Matrix T) :
  operator_mul ndebug a b = Ok m ->
  shape_of m = shape_of (Matrix_filled (rows a) (cols b) (Tzero : T)).
Proof.
  unfold operator_mul; intros E. bind_inv E.
  apply (for_range_keeps
           (fun t => shape_of t = shape_of (Matrix_filled (rows a) (cols b) (Tzero : T))))
    in E; [exact E | | reflexivity].
  intros i t t' It Ei.
  apply (for_range_keeps
           (fun t => shape_of t = shape_of (Matrix_filled (rows a) (cols b) (Tzero : T))))
    in Ei; [exact Ei | | exact It].
  clear t t' It Ei.
  intros k t t' It Ek. bind_inv Ek. cbv zeta in Ek.
  apply (for_range_keeps
           (fun t => shape_of t = shape_of (Matrix_filled (rows a) (cols b) (Tzero : T))))
    in Ek; [exact Ek | | exact It].
  intros j u u' Iu Ej.
  bind_inv Ej. bind_inv Ej. bind_inv Ej. injection Ej as <-.
  rewrite <- Iu. apply set_mat_shape. eapply vec_set_length; eassumption.
Qed.

Lemma move_fields_fst (this tmp : Matrix T) : fst (move_fields this tmp) = tmp.
Proof. destruct tmp; reflexivity. Qed.

Lemma transpose_valid (a m : Matrix T) :
  valid a -> transpose ndebug a = Ok m -> valid m.
Proof.
  intros Va E. destruct (transpose_ok a Va) as (R & ER & _ & _ & RV & _).
  congruence.
Qed.

Lemma operator_mul_assign_scalar_shape (a m : Matrix T) (x : T) :
  operator_mul_assign_scalar a x = Ok m -> shape_of m = shape_of a.
Proof.
  unfold operator_mul_assign_scalar; intros E.
  apply (for_range_keeps (fun t => shape_of t = shape_of a)) in E;
    [exact E | | reflexivity].
  intros i t t' It Ei.
  bind_inv Ei. bind_inv Ei. injection Ei as <-.
  rewrite <- It. apply set_mat_shape. eapply vec_set_length; eassumption.
Qed.

Lemma valid_storage (m : Matrix T) : valid m -> storage_invariant m.
Proof. unfold valid, storage_invariant; tauto. Qed.

Lemma storage_fit_valid (m : Matrix T) :
  storage_invariant m -> rows m * cols m < UINT_MOD -> valid m.
Proof. unfold valid, storage_invariant; tauto. Qed.

Lemma storage_same_shape (m m' : Matrix T) :
  shape_of m' = shape_of m -> storage_invariant m -> storage_invariant m'.
Proof.
  unfold shape_of, storage_invariant; intros E; injection E as -> -> ->; tauto.
Qed.

(** std::transform returns only if the destination has room for the
    whole input range. *)
Lemma transform2_room (op : T -> T -> T) (l1 : list T) : forall (l2 out r : list T),
  transform2 op l1 l2 out = Ok r -> (length l1 <= length out)%nat.
Proof.
  induction l1 as [|x l1 IH]; intros l2 out r E; simpl in *; [lia|].
  destruct l2 as [|y l2]; [discriminate|].
  destruct out as [|z out]; [discriminate|].
  bind_inv E. apply IH in Ha. simpl; lia.
Qed.

Lemma transform1_room (op : T -> T) (l : list T) : forall (out r : list T),
  transform1 op l out = Ok r -> (length l <= length out)%nat.
Proof.
  induction l as [|x l IH]; intros out r E; simpl in *; [lia|].
  destruct out as [|z out]; [discriminate|].
  bind_inv E. apply IH in Ha. simpl; lia.
Qed.

(** A matrix whose storage fits the vector that the filled constructor
    makes for its shape has fewer than 2^32 elements. *)
Lemma room_fits (a : Matrix T) :
  storage_invariant a ->
  (length (mat a) <= length (mat (Matrix_filled (rows a) (cols a) (Tzero : T))))%nat ->
  rows a * cols a < UINT_MOD.
Proof.
  intros (Hr & Hc & Hlen); unfold Matrix_filled; simpl.
  rewrite repeat_length, (u32_small _ Hr), (u32_small _ Hc).
  pose proof (u32_lt (rows a * cols a)). lia.
Qed.

(** A loop that returns has run its body, with a result, at every
    counter of its range. *)
Lemma for_loop_each {S : Type} (I : S -> Prop) (body : N -> S -> outcome S) :
  (forall i s s', I s -> body i s = Ok s' -> I s') ->
  forall (n : nat) (i0 : N) (s s' : S),
    I s -> for_loop n i0 body s = Ok s' ->
    forall i, i0 <= i < i0 + N.of_nat n ->
              exists s1 s2, I s1 /\ body i s1 = Ok s2.
Proof.
  intros Step n; induction n as [|n IH]; intros i0 s s' Is E i Hi; [lia|].
  simpl in E. bind_inv E.
  destruct (N.eq_dec i i0) as [-> | Ne].
  - exists s, a; split; assumption.
  - apply (IH (i0 + 1) a s'); [eapply Step; eassumption | exact E | lia].
Qed.

Lemma nested_loops_each (body : N -> N -> Matrix T -> outcome (Matrix T))
      (r c : N) (res0 R : Matrix T) :
  (forall i j res res', body i j res = Ok res' -> shape_of res' = shape_of res) ->
  for_range r (fun i res => for_range c (fun j res => body i j res) res) res0 = Ok R ->
  forall i j, i < r -> j < c ->
    exists res res', shape_of res = shape_of res0 /\ body i j res = Ok res'.
Proof.
  intros Body E i j Hi Hj.
  assert (Inner : forall i' k u u', shape_of u = shape_of res0 ->
                    body i' k u = Ok u' -> shape_of u' = shape_of res0)
    by (intros i' k u u' Iu Eu; rewrite <- Iu; eapply Body; exact Eu).
  assert (Outer : forall k t t', shape_of t = shape_of res0 ->
                    for_range c (fun j res => body k j res) t = Ok t' ->
                    shape_of t' = shape_of res0).
  { intros k t t' It Ek.
    apply (for_range_keeps (fun u => shape_of u = shape_of res0)) in Ek;
      [exact Ek | | exact It].
    intros k' u u' Iu Eu. rewrite <- Iu. eapply Body; exact Eu. }
  destruct (for_loop_each (fun res => shape_of res = shape_of res0)
              (fun i res => for_range c (fun j res => body i j res) res)
              Outer (N.to_nat r) 0 res0 R eq_refl E i)
    as (res1 & res2 & I1 & E1); [lia|].
  destruct (for_loop_each (fun res => shape_of res = shape_of res0)
              (fun j res => body i j res)
              (Inner i) (N.to_nat c) 0 res1 res2 I1 E1 j)
    as (res3 & res4 & I3 & E3); [lia|].
  exists res3, res4; split; assumption.
Qed.

(** In a shape of 2^32 elements or more there is a position whose
    [unsigned] offset is the length of the vector that the filled
    constructor makes: no store through operator() returns there. *)
Lemma store_past_end (r c : N) :
  r < UINT_MOD -> c < UINT_MOD -> UINT_MOD <= r * c ->
  exists i j, i < r /\ j < c /\
    forall (res res' : Matrix T) (x : T),
      shape_of res = shape_of (Matrix_filled r c (Tzero : T)) ->
      operator_call_store ndebug res i j x = Ok res' -> False.
Proof.
  intros Hr Hc Big.
  pose proof (u32_lt (r * c)) as Lt.
  destruct (offset_split r c (u32 (r * c))) as (i & j & Hi & Hj & Eo); [lia|].
  exists i, j; split; [exact Hi|]. split; [exact Hj|].
  intros res res' x Sh E.
  unfold shape_of, Matrix_filled in Sh; simpl in Sh.
  rewrite repeat_length, (u32_small _ Hr), (u32_small _ Hc) in Sh.
  injection Sh as Er Ec El.
  unfold operator_call_store, operator_call_ref in E.
  bind_inv E. bind_inv Ha. injection Ha as <-. bind_inv E.
  rewrite (u32_small i), (u32_small j), Ec, <- Eo in Ha by lia.
  rewrite (u32_small (u32 (r * c)) Lt) in Ha.
  unfold vec_set in Ha.
  destruct (list_set (mat res) (N.to_nat (u32 (r * c))) x) as [v|] eqn:Ev;
    [|discriminate].
  apply list_set_length in Ev. lia.
Qed.

Lemma transpose_storage (a m : Matrix T) :
  storage_invariant a -> transpose ndebug a = Ok m -> storage_invariant m.
Proof.
  intros Ia E; pose proof Ia as (Hr & Hc & Hlen).
  apply valid_storage, (transpose_valid a m); [|exact E].
  apply storage_fit_valid; [exact Ia|].
  destruct (N.lt_ge_cases (rows a * cols a) UINT_MOD) as [L | G]; [exact L|].
  exfalso.
  destruct (store_past_end (cols a) (rows a) Hc Hr) as (tj & ti & Htj & Hti & Fail);
    [lia|].
  unfold transpose in E.
  assert (Body : forall i j (t t' : Matrix T),
            (x <- operator_call ndebug a i j ;;
             operator_call_store ndebug t j i x) = Ok t' ->
            shape_of t' = shape_of t).
  { intros i j t t' Eb. bind_inv Eb. eapply operator_call_store_shape; exact Eb. }
  destruct (nested_loops_each
              (fun i j result =>
                 x <- operator_call ndebug a i j ;;
                 operator_call_store ndebug result j i x)
              (rows a) (cols a) _ m Body E ti tj Hti Htj)
    as (res & res' & Sh & Eb).
  bind_inv Eb. eapply Fail; eassumption.
Qed.

Lemma broadcast_loops_fit
      (body : N -> N -> Matrix T -> outcome (Matrix T)) (r c : N) (m : Matrix T) :
  r < UINT_MOD -> c < UINT_MOD ->
  (forall i j res res', body i j res = Ok res' ->
     exists x, operator_call_store ndebug res i j x = Ok res') ->
  for_range r (fun i res => for_range c (fun j res => body i j res) res)
            (Matrix_filled r c Tzero) = Ok m ->
  r * c < UINT_MOD.
Proof.
  intros Hr Hc Body E.
  destruct (N.lt_ge_cases (r * c) UINT_MOD) as [L | G]; [exact L|].
  exfalso.
  destruct (store_past_end r c Hr Hc G) as (i & j & Hi & Hj & Fail).
  assert (Shape : forall i' j' (t t' : Matrix T),
            body i' j' t = Ok t' -> shape_of t' = shape_of t).
  { intros i' j' t t' Eb. apply Body in Eb. destruct Eb as (x & Es).
    eapply operator_call_store_shape; exact Es. }
  destruct (nested_loops_each body r c _ m Shape E i j Hi Hj)
    as (res & res' & Sh & Eb).
  apply Body in Eb. destruct Eb as (x & Es). eapply Fail; eassumption.
Qed.

Lemma operator_plus_storage (a b m : Matrix T) :
  storage_invariant a -> storage_invariant b ->
  operator_plus ndebug a b = Ok m -> storage_invariant m.
Proof.
  intros Ia Ib E0.
  pose proof Ia as (Hr & Hc & Hlen). pose proof Ib as (Hr' & Hc' & Hlen').
  assert (Small : rows a * cols a < UINT_MOD -> rows b * cols b < UINT_MOD ->
                  storage_invariant m).
  { intros La Lb. apply valid_storage, (operator_plus_valid a b m); try exact E0.
    - apply storage_fit_valid; assumption.
    - apply storage_fit_valid; assumption. }
  pose proof E0 as E. unfold operator_plus in E.
  destruct ((rows a =? rows b) && (cols a =? cols b)) eqn:C1.
  { apply dims_eqb_iff in C1; destruct C1 as (Sr & Sc).
    bind_inv E. apply transform2_room in Ha.
    pose proof (room_fits a Ia Ha) as La.
    apply Small; [exact La | rewrite <- Sr, <- Sc; exact La]. }
  destruct ((rows b =? 1) && (cols b =? cols a)) eqn:C2.
  { apply dims_eqb_iff in C2; destruct C2 as (B1 & Bc).
    assert (La : rows a * cols a < UINT_MOD).
    { apply (broadcast_loops_fit
               (fun i j result =>
                  x <- operator_call ndebug a i j ;;
                  y <- operator_call ndebug b 0 j ;;
                  operator_call_store ndebug result i j (Tadd x y))
               (rows a) (cols a) m Hr Hc); [|exact E].
      intros i j t t' Eb. bind_inv Eb. bind_inv Eb. eexists; exact Eb. }
    apply Small; [exact La | rewrite B1, Bc; lia]. }
  destruct ((rows a =? 1) && (cols a =? cols b)) eqn:C3.
  { apply dims_eqb_iff in C3; destruct C3 as (A1 & Ac).
    assert (Lb : rows b * cols a < UINT_MOD).
    { apply (broadcast_loops_fit
               (fun i j result =>
                  x <- operator_call ndebug a 0 j ;;
                  y <- operator_call ndebug b i j ;;
                  operator_call_store ndebug result i j (Tadd x y))
               (rows b) (cols a) m Hr' Hc); [|exact E].
      intros i j t t' Eb. bind_inv Eb. bind_inv Eb. eexists; exact Eb. }
    apply Small; [rewrite A1; lia | rewrite <- Ac; exact Lb]. }
  bind_inv E. injection E as <-.
  unfold storage_invariant, UINT_MOD; simpl; repeat split; reflexivity.
Qed.

Lemma checked_elementwise_storage (op : T -> T -> T) (a b m : Matrix T) :
  storage_invariant a ->
  (assert ndebug ((rows a =? rows b) && (cols a =? cols b)) ;;;
   (v <- transform2 op (mat a) (mat b) (mat (Matrix_filled (rows a) (cols a) Tzero)) ;;
    Ok (set_mat (Matrix_filled (rows a) (cols a) Tzero) v))) = Ok m ->
  storage_invariant m.
Proof.
  intros Ia E0. pose proof E0 as E. bind_inv E. bind_inv E.
  apply transform2_room in Ha0.
  apply valid_storage, (checked_elementwise_valid op a b m); [|exact E0].
  apply storage_fit_valid; [exact Ia | apply room_fits; assumption].
Qed.

Lemma checked_compound_storage (op : T -> T -> T) (a b m : Matrix T) :
  storage_invariant a ->
  (assert ndebug ((rows a =? rows b) && (cols a =? cols b)) ;;;
   compound_loop op a b) = Ok m ->
  storage_invariant m.
Proof.
  intros Ia E. bind_inv E.
  apply (storage_same_shape a); [eapply compound_loop_shape; exact E | exact Ia].
Qed.

Lemma scalar_op_storage (f : T -> T) (a m : Matrix T) :
  storage_invariant a -> scalar_op f a = Ok m -> storage_invariant m.
Proof.
  intros Ia E0. pose proof E0 as E. unfold scalar_op in E. bind_inv E.
  apply transform1_room in Ha.
  apply valid_storage, (scalar_op_valid f a m); [|exact E0].
  apply storage_fit_valid; [exact Ia | apply room_fits; assumption].
Qed.

Lemma empty_storage : storage_invariant (mkMatrix 0 0 ([] : list T)).
Proof. unfold storage_invariant, UINT_MOD; simpl; repeat split; reflexivity. Qed.

Lemma produced_storage (m : Matrix T) :
  produced ndebug Gen uniform_real m -> storage_invariant m.
Proof.
  induction 1 as
    [ r c x Fit | l m E Fit | l r c Len | r c w g m g' E Fit
    | m _ IH | m _ IH | m _ IH
    | h h' this rhs a m _ IH E Ha | h h' this rhs a m _ IH E Ha
    | m i j x m' _ IH E
    | a b m _ IHa _ IHb E | a b m _ IHa _ IHb E
    | a b m _ IHa _ IHb E | a b m _ IHa _ IHb E
    | a b m _ IHa _ IHb E Fit | a b m _ IHa _ IHb E Fit
    | a m _ IH E | a m _ IH E
    | a x m _ IH E | a x m _ IH E | a x m _ IH E | a x m _ IH E | a x m _ IH E
    | a v r m _ IH E | a r m _ IH E
    | a f m _ IH E | a f m _ IH E
    | a b m _ IHa _ IHb E | a b m _ IHa _ IHb E ].
  - (* filled *)
    apply valid_storage, (valid_filled_shape _ r c x); [reflexivity | exact Fit].
  - (* nested *)
    destruct (Matrix_nested_shape l m E) as (r & c & S).
    apply valid_storage; eapply valid_filled_shape; eassumption.
  - (* flat: the sequence is kept as it is *)
    unfold storage_invariant, Matrix_flat; simpl.
    split; [apply u32_lt|]. split; [apply u32_lt | exact Len].
  - (* random *)
    apply valid_storage.
    eapply valid_filled_shape; [eapply initRandomQSMatrix_shape; exact E | exact Fit].
  - (* copy *)
    destruct m; exact IH.
  - (* move, new object *)
    destruct m; exact IH.
  - (* move, source *)
    exact empty_storage.
  - (* copy assignment *)
    unfold operator_assign in E.
    destruct (Nat.eqb this rhs); [injection E as <-; eapply IH; exact Ha|].
    destruct (h this) as [t|] eqn:Ht; [|discriminate].
    destruct (h rhs) as [s|] eqn:Hs; [|discriminate].
    injection E as <-. unfold store_upd in Ha.
    destruct (Nat.eqb a this); [|eapply IH; exact Ha].
    injection Ha as <-. specialize (IH _ _ Hs). destruct s; exact IH.
  - (* move assignment *)
    unfold operator_assign_move in E.
    destruct (Nat.eqb this rhs); simpl in E; [injection E as <-; eapply IH; exact Ha|].
    destruct (h this) as [t|] eqn:Ht; [|discriminate].
    destruct (h rhs) as [s|] eqn:Hs; [|discriminate].
    simpl in E. injection E as <-. unfold store_upd in Ha.
    destruct (Nat.eqb a this).
    + injection Ha as <-. specialize (IH _ _ Hs). destruct s; exact IH.
    + destruct (Nat.eqb a rhs); [|eapply IH; exact Ha].
      injection Ha as <-. exact empty_storage.
  - (* store through operator() *)
    eapply storage_same_shape; [eapply operator_call_store_shape; exact E | exact IH].
  - exact (operator_plus_storage a b m IHa IHb E).
  - exact (checked_compound_storage Tadd a b m IHa E).
  - exact (checked_elementwise_storage Tsub a b m IHa E).
  - exact (checked_compound_storage Tsub a b m IHa E).
  - (* product *)
    apply valid_storage.
    eapply valid_filled_shape; [eapply operator_mul_shape; exact E | exact Fit].
  - (* product, assigned *)
    unfold operator_mul_assign in E. bind_inv E.
    rewrite move_fields_fst in E. injection E as <-.
    apply valid_storage.
    eapply valid_filled_shape; [eapply operator_mul_shape; eassumption | exact Fit].
  - eapply transpose_storage; eassumption.
  - unfold transpose_in_place in E. bind_inv E.
    rewrite move_fields_fst in E. injection E as <-.
    eapply transpose_storage; eassumption.
  - eapply scalar_op_storage; eassumption.
  - eapply scalar_op_storage; eassumption.
  - eapply scalar_op_storage; eassumption.
  - eapply scalar_op_storage; eassumption.
  - eapply storage_same_shape;
      [eapply operator_mul_assign_scalar_shape; exact E | exact IH].
  - apply operator_mul_vec_frame in E; subst m; exact IH.
  - apply diag_vec_frame in E; subst m; exact IH.
  - eapply scalar_op_storage; eassumption.
  - unfold component_wise_transformation_in_place in E.
    bind_inv E. injection E as <-.
    eapply storage_same_shape; [|exact IH].
    apply set_mat_shape. eapply transform1_length; eassumption.
  - exact (checked_elementwise_storage Tmul a b m IHa E).
  - exact (checked_compound_storage Tmul a b m IHa E).
Qed.

(** C3 as amended: every matrix produced by the filled, nested-sequence
    or random constructor or by a matrix product with a shape of fewer
    than 2^32 elements (what these do from 2^32 elements on is left out),
    by the flat-sequence constructor from a sequence of rows * cols
    elements, by copy or by move, and after every operation of the
    interface on such matrices, holds exactly rows * cols elements; the
    flat-sequence constructor validates nothing: for every sequence and
    every (rows, cols) it keeps the sequence as given, with the shape as
    given (narrowed to unsigned), so its matrix holds rows * cols elements
    exactly when the sequence does. *)
Theorem C3_storage_length_invariant :
  (forall m : Matrix T,
     produced ndebug Gen uniform_real m ->
     N.of_nat (length (mat m)) = rows m * cols m) /\
  (forall (l : list T) (r c : N),
     mat (Matrix_flat l r c) = l /\
     rows (Matrix_flat l r c) = u32 r /\ cols (Matrix_flat l r c) = u32 c /\
     (N.of_nat (length (mat (Matrix_flat l r c))) =
      rows (Matrix_flat l r c) * cols (Matrix_flat l r c) <->
      N.of_nat (length l) = u32 r * u32 c)).
Proof.
  split.
  - intros m P; apply produced_storage in P; apply P.
  - intros l r c. split; [reflexivity|]. split; [reflexivity|].
    split; [reflexivity|]. split; intros E; exact E.
Qed.

End StorageInvariant.

End MatrixFacts.

(** * The claims on concrete matrices *)

Ltac valid_by_computation := unfold valid; vm_compute; repeat split; reflexivity.

Lemma valid_M_2x2_A : valid M_2x2_A.
Proof. valid_by_computation. Qed.

Lemma valid_M_2x2_B : valid M_2x2_B.
Proof. valid_by_computation. Qed.

Lemma valid_M_2x3 : valid M_2x3.
Proof. valid_by_computation. Qed.

Lemma valid_M_3x4 : valid M_3x4.
Proof. valid_by_computation. Qed.

Lemma valid_M_1x4 : valid M_1x4.
Proof. valid_by_computation. Qed.

Lemma valid_M_65536x0 : valid M_65536x0.
Proof. valid_by_computation. Qed.

Lemma valid_M_0x65536 : valid M_0x65536.
Proof. valid_by_computation. Qed.

(** The scenarios of the specification. *)
Example scenario_product :
  operator_mul false M_2x2_A M_2x2_B = Ok (mkMatrix 2 2 [19; 22; 43; 50]%Z).
Proof. reflexivity. Qed.

Example scenario_sum :
  operator_plus false M_2x2_A M_2x2_B = Ok (mkMatrix 2 2 [6; 8; 10; 12]%Z).
Proof. reflexivity. Qed.

Example scenario_transpose :
  transpose false M_2x2_A = Ok (mkMatrix 2 2 [1; 3; 2; 4]%Z).
Proof. reflexivity. Qed.

Example scenario_hadamard :
  hadamardMultiplication false M_2x2_A (mkMatrix 2 2 [2; 0; 0; 2]%Z) =
  Ok (mkMatrix 2 2 [2; 0; 0; 8]%Z).
Proof. reflexivity. Qed.

(** X26: on every valid matrix (fewer than 2^32 elements) diag_vec()
    returns a sequence of min(rows, cols) elements whose element i is the
    matrix element at (i, i); the matrix built from [[1,2,3],[4,5,6]]
    gives [1,5]. *)
Theorem X26_diag_vec_main_diagonal :
  (forall (T : Type) (NT : Numeric T) (ndebug : bool) (m : Matrix T),
     valid m ->
     exists v,
       diag_vec ndebug m = Ok (v, m) /\
       N.of_nat (length v) = N.min (get_rows m) (get_cols m) /\
       forall i, i < N.min (get_rows m) (get_cols m) ->
         exists x, operator_call ndebug m i i = Ok x /\
                   nth_error v (N.to_nat i) = Some x) /\
  (forall ndebug : bool,
     exists m, Matrix_nested ndebug [[1; 2; 3]; [4; 5; 6]]%Z = Ok m /\
               diag_vec ndebug m = Ok ([1; 5]%Z, m)).
Proof.
  split.
  - intros T NT ndebug m V.
    destruct (diag_vec_ok ndebug m V) as (v & E & Len & Nth).
    exists v; unfold get_rows, get_cols.
    split; [exact E|]. split; [exact Len|].
    intros i Hi; exists (elem m i i); split.
    + apply operator_call_ok; [exact V | lia | lia].
    + rewrite <- (Nth i Hi). apply nth_error_nth'. lia.
  - intros [|]; eexists; split; reflexivity.
Qed.

(** ** Inputs on which the claims as worded fail *)

Section Overflow.

Context {T : Type} `{Numeric T}.
Variable ndebug : bool.

Lemma loop_first_iteration {S : Type} (n : N) (body : N -> S -> outcome S) (s : S) :
  0 < n ->
  for_range n body s = (s' <- body 0 s ;; for_loop (N.to_nat n - 1) 1 body s').
Proof.
  intros Hn; unfold for_range.
  destruct (N.to_nat n) as [|k] eqn:E; [lia|].
  simpl. rewrite Nat.sub_0_r; reflexivity.
Qed.

(** The filled constructor asked for a multiple of 2^32 elements makes an
    empty vector. *)
Lemma Matrix_filled_wraps (r c : N) (x : T) :
  r < UINT_MOD -> c < UINT_MOD -> u32 (r * c) = 0 ->
  Matrix_filled r c x = mkMatrix r c [].
Proof.
  intros Hr Hc E; unfold Matrix_filled.
  rewrite (u32_small _ Hr), (u32_small _ Hc), E; reflexivity.
Qed.

Lemma operator_call_first (A : Matrix T) (x : T) (l : list T) :
  0 < rows A -> 0 < cols A -> mat A = x :: l ->
  operator_call ndebug A 0 0 = Ok x.
Proof.
  intros Hr Hc E; unfold operator_call.
  change (u32 0) with 0.
  rewrite (assert_true ndebug) by (apply in_range_true; assumption).
  cbn [bind]. change (u32 (0 * cols A + 0)) with 0. rewrite E; reflexivity.
Qed.

Lemma store_first_in_empty (res : Matrix T) (x : T) :
  0 < rows res -> 0 < cols res -> mat res = [] ->
  operator_call_store ndebug res 0 0 x = Undefined.
Proof.
  intros Hr Hc E; unfold operator_call_store, operator_call_ref.
  change (u32 0) with 0.
  rewrite (assert_true ndebug) by (apply in_range_true; assumption).
  cbn [bind]. change (u32 (0 * cols res + 0)) with 0. rewrite E; reflexivity.
Qed.

(** On operands of one shape whose element count is a multiple of 2^32,
    + and - copy into an empty vector. *)
Lemma operator_plus_wraps (A B : Matrix T) (x : T) (l : list T) :
  rows A < UINT_MOD -> cols A < UINT_MOD -> same_shape A B ->
  u32 (rows A * cols A) = 0 -> mat A = x :: l ->
  operator_plus ndebug A B = Undefined.
Proof.
  intros Hr Hc S Wrap E; unfold operator_plus.
  rewrite (proj2 (dims_eqb_iff _ _ _ _) S).
  rewrite (Matrix_filled_wraps _ _ _ Hr Hc Wrap), E; simpl.
  destruct (mat B); reflexivity.
Qed.

Lemma operator_minus_wraps (A B : Matrix T) (x : T) (l : list T) :
  rows A < UINT_MOD -> cols A < UINT_MOD -> same_shape A B ->
  u32 (rows A * cols A) = 0 -> mat A = x :: l ->
  operator_minus ndebug A B = Undefined.
Proof.
  intros Hr Hc S Wrap E; unfold operator_minus.
  rewrite (assert_true ndebug) by (apply dims_eqb_iff, S). cbn [bind].
  rewrite (Matrix_filled_wraps _ _ _ Hr Hc Wrap), E; simpl.
  destruct (mat B); reflexivity.
Qed.

(** On a matrix whose element count is a multiple of 2^32, transpose
    stores its first element into an empty vector. *)
Lemma transpose_wraps (A : Matrix T) (x : T) (l : list T) :
  rows A < UINT_MOD -> cols A < UINT_MOD -> 0 < rows A -> 0 < cols A ->
  u32 (cols A * rows A) = 0 -> mat A = x :: l ->
  transpose ndebug A = Undefined.
Proof.
  intros Hr Hc Pr Pc Wrap E; unfold transpose.
  rewrite (Matrix_filled_wraps _ _ _ Hc Hr Wrap).
  rewrite (loop_first_iteration (rows A)) by exact Pr.
  rewrite (loop_first_iteration (cols A)) by exact Pc.
  rewrite (operator_call_first A x l Pr Pc E). cbn [bind].
  rewrite store_first_in_empty by (try reflexivity; assumption).
  reflexivity.
Qed.

(** diag_vec reads, for each i, the storage at the [unsigned] offset of
    (i, i). *)
Lemma diag_vec_reads (m : Matrix T) (f : N -> T) :
  rows m < UINT_MOD -> cols m < UINT_MOD ->
  (forall i, i < N.min (rows m) (cols m) ->
             vec_get (mat m) (u32 (i * cols m + i)) = Ok (f i)) ->
  exists v, diag_vec ndebug m = Ok (v, m) /\
            N.of_nat (length v) = N.min (rows m) (cols m) /\
            forall i, i < N.min (rows m) (cols m) ->
                      nth (N.to_nat i) v Tzero = f i.
Proof.
  intros Hr Hc Reads; unfold diag_vec.
  set (n := if rows m <? cols m then rows m else cols m).
  assert (En : n = N.min (rows m) (cols m)).
  { unfold n; destruct (rows m <? cols m) eqn:L.
    - apply N.ltb_lt in L; lia.
    - apply N.ltb_ge in L; lia. }
  destruct (for_range_total
              (fun i (st : list T * Matrix T) =>
                 snd st = m /\ N.of_nat (length (fst st)) = n /\
                 forall i', i' < i -> nth (N.to_nat i') (fst st) Tzero = f i')
              (fun i (st : list T * Matrix T) =>
                 let '(result, this) := st in
                 x <- operator_call_load ndebug this i i ;;
                 v <- vec_set result i x ;;
                 Ok (v, this))
              n (repeat Tzero (N.to_nat n), m))
    as ([v m'] & E & (Em & Len & Nth)).
  - simpl; rewrite repeat_length.
    split; [reflexivity|]. split; [lia|]. intros i' Hi'; lia.
  - intros i [res this] Hi (Ethis & Len & Nth); simpl in Ethis, Len, Nth; subst this.
    unfold operator_call_load, operator_call_ref.
    rewrite (u32_small i) by lia.
    rewrite (assert_true ndebug) by (apply in_range_true; lia). cbn [bind].
    rewrite Reads by lia. cbn [bind].
    destruct (vec_set_ok res i (f i)) as (v & Ev & Lv & Here & Else); [lia|].
    rewrite Ev; cbn [bind].
    eexists; split; [reflexivity|]; simpl.
    split; [reflexivity|]. split; [lia|].
    intros i' Hi'.
    destruct (N.eq_dec i' i) as [-> | Ne]; [exact Here|].
    rewrite Else by lia. apply Nth; lia.
  - simpl in Em, Len, Nth; subst m'.
    exists v; split; [exact E|]. split; [lia|].
    intros i Hi; apply Nth; lia.
Qed.

End Overflow.

(** The 65536 x 65536 matrix of ones. *)

Lemma repeat_succ {A : Type} (x : A) (n : nat) :
  repeat x (Datatypes.S n) = x :: repeat x n.
Proof. reflexivity. Qed.

Lemma M_65536x65536_mat :
  mat M_65536x65536 = 1%Z :: repeat 1%Z (N.to_nat 4294967295).
Proof.
  unfold M_65536x65536, Matrix_flat; cbn [mat].
  replace (N.to_nat 4294967296) with (Datatypes.S (N.to_nat 4294967295)) by lia.
  apply repeat_succ.
Qed.

Lemma M_65536x65536_storage : storage_invariant M_65536x65536.
Proof.
  unfold storage_invariant, M_65536x65536, Matrix_flat; cbn [rows cols mat].
  split; [reflexivity|]. split; [reflexivity|].
  rewrite repeat_length, N2Nat.id; reflexivity.
Qed.

(** C2: two 65536 x 65536 matrices of 2^32 elements each, which meet the
    invariant of the data model and have identical shapes: A + B makes
    its result with the filled constructor, whose unsigned vector size
    wraps to 0, and std::transform then writes past that empty vector, so
    no elementwise sum is returned. *)
Theorem C2_plus_element_count_overflow :
  storage_invariant M_65536x65536 /\
  same_shape M_65536x65536 M_65536x65536 /\
  forall ndebug : bool,
    operator_plus ndebug M_65536x65536 M_65536x65536 = Undefined.
Proof.
  split; [exact M_65536x65536_storage|]. split; [split; reflexivity|].
  intros ndebug.
  apply (operator_plus_wraps ndebug _ _ 1%Z (repeat 1%Z (N.to_nat 4294967295)));
    [reflexivity | reflexivity | split; reflexivity | reflexivity
    | exact M_65536x65536_mat].
Qed.

(** C5: a 65536 x 65536 matrix of 2^32 elements, which meets the invariant
    of the data model: transpose makes its result with the filled
    constructor, whose unsigned vector size wraps to 0, and the first
    store of the loop falls outside that empty vector, so no transpose is
    returned. *)
Theorem C5_transpose_element_count_overflow :
  storage_invariant M_65536x65536 /\
  forall ndebug : bool, transpose ndebug M_65536x65536 = Undefined.
Proof.
  split; [exact M_65536x65536_storage|].
  intros ndebug.
  apply (transpose_wraps ndebug _ 1%Z (repeat 1%Z (N.to_nat 4294967295)));
    [reflexivity | reflexivity | reflexivity | reflexivity | reflexivity
    | exact M_65536x65536_mat].
Qed.

(** C6: two 65536 x 65536 matrices of 2^32 elements each, of identical
    shapes and meeting the invariant of the data model: neither A + B
    nor a subtraction on them returns, so (A + B) - B is not A. *)
Theorem C6_plus_minus_element_count_overflow :
  storage_invariant M_65536x65536 /\
  same_shape M_65536x65536 M_65536x65536 /\
  forall ndebug : bool,
    (S <- operator_plus ndebug M_65536x65536 M_65536x65536 ;;
     operator_minus ndebug S M_65536x65536) = Undefined /\
    operator_minus ndebug M_65536x65536 M_65536x65536 = Undefined.
Proof.
  split; [exact M_65536x65536_storage|]. split; [split; reflexivity|].
  intros ndebug; split.
  - rewrite (operator_plus_wraps ndebug _ _ 1%Z (repeat 1%Z (N.to_nat 4294967295)));
      [reflexivity | reflexivity | reflexivity | split; reflexivity | reflexivity
      | exact M_65536x65536_mat].
  - apply (operator_minus_wraps ndebug _ _ 1%Z (repeat 1%Z (N.to_nat 4294967295)));
      [reflexivity | reflexivity | split; reflexivity | reflexivity
      | exact M_65536x65536_mat].
Qed.

(** The 3 x 2^31 matrix. *)

Lemma M_3x2147483648_storage : storage_invariant M_3x2147483648.
Proof.
  unfold storage_invariant, M_3x2147483648, Matrix_flat; cbn [rows cols mat].
  split; [reflexivity|]. split; [reflexivity|].
  rewrite length_app, !repeat_length, Nat2N.inj_add, !N2Nat.id; reflexivity.
Qed.

Lemma M_3x2147483648_low (k : N) :
  k < UINT_MOD -> vec_get (mat M_3x2147483648) k = Ok 0%Z.
Proof.
  intros Hk; unfold vec_get, M_3x2147483648, Matrix_flat; cbn [mat].
  rewrite nth_error_app1 by (rewrite repeat_length; unfold UINT_MOD in Hk; lia).
  rewrite nth_error_repeat by (unfold UINT_MOD in Hk; lia).
  reflexivity.
Qed.

(** C8: a 3 x 2^31 matrix that meets the invariant of the data model, with
    zeros in its first 2^32 elements and ones after them, so that its
    element (2, 2), at offset 2 * 2^31 + 2, is 1.  operator() computes the
    offset in unsigned, where it wraps to 2: diag_vec returns [0, 0, 0],
    whose element 2 is the matrix element at (0, 2), not the one at
    (2, 2). *)
Theorem C8_diag_vec_offset_overflow :
  storage_invariant M_3x2147483648 /\
  elem M_3x2147483648 2 2 = 1%Z /\
  forall ndebug : bool,
    diag_vec ndebug M_3x2147483648 = Ok ([0; 0; 0]%Z, M_3x2147483648) /\
    operator_call ndebug M_3x2147483648 2 2 = Ok 0%Z.
Proof.
  split; [exact M_3x2147483648_storage|]. split.
  - unfold elem, M_3x2147483648, Matrix_flat; cbn [rows cols mat].
    change (u32 2147483648) with 2147483648.
    rewrite app_nth2 by (rewrite repeat_length; lia).
    rewrite repeat_length.
    replace (N.to_nat (2 * 2147483648 + 2) - N.to_nat 4294967296)%nat
      with 2%nat by lia.
    apply nth_repeat_lt. lia.
  - intros ndebug; split.
    + destruct (diag_vec_reads ndebug M_3x2147483648 (fun _ => 0%Z))
        as (v & E & Len & Nth); [reflexivity | reflexivity | |].
      { intros i _. apply M_3x2147483648_low, u32_lt. }
      rewrite E; do 2 f_equal.
      change (N.min (rows M_3x2147483648) (cols M_3x2147483648)) with 3 in Len, Nth.
      destruct v as [|a [|b [|c [|d v]]]]; simpl in Len; try lia.
      pose proof (Nth 0 eq_refl) as N0.
      pose proof (Nth 1 eq_refl) as N1.
      pose proof (Nth 2 eq_refl) as N2.
      simpl in N0, N1, N2. subst; reflexivity.
    + unfold operator_call.
      change (u32 2) with 2.
      rewrite (assert_true ndebug) by reflexivity. cbn [bind].
      apply M_3x2147483648_low, u32_lt.
Qed.

(** C1: the product of a 65536 x 0 and a 0 x 65536 matrix, both valid and
    with A.cols == B.rows: the result is made by the filled constructor,
    whose vector size 65536 * 65536 is an unsigned product and wraps to
    0.  The product is returned with shape (65536, 65536) and no element
    at all, so that reading its element (0, 0) is not the inner
    product. *)
Theorem C1_product_element_count_overflow :
  valid M_65536x0 /\ valid M_0x65536 /\ cols M_65536x0 = rows M_0x65536 /\
  exists R, operator_mul false M_65536x0 M_0x65536 = Ok R /\
            get_rows R = 65536 /\ get_cols R = 65536 /\ mat R = [] /\
            operator_call false R 0 0 <> Ok (inner_product M_65536x0 M_0x65536 0 0).
Proof.
  split; [exact valid_M_65536x0|]. split; [exact valid_M_0x65536|].
  split; [reflexivity|].
  exists (mkMatrix 65536 65536 []).
  split; [vm_compute; reflexivity|].
  split; [reflexivity|]. split; [reflexivity|]. split; [reflexivity|].
  vm_compute; discriminate.
Qed.

(** C3 as worded: the flat-sequence constructor given three elements for
    a 2 x 2 shape keeps the three elements. *)
Lemma C3_counterexample :
  let m := Matrix_flat [1; 2; 3]%Z 2 2 in
  mat m = [1; 2; 3]%Z /\ rows m = 2 /\ cols m = 2 /\
  N.of_nat (length (mat m)) <> rows m * cols m.
Proof.
  cbv zeta. split; [reflexivity|]. split; [reflexivity|]. split; [reflexivity|].
  vm_compute; discriminate.
Qed.

(** C4 as worded: compiled with NDEBUG, a 2 x 3 plus a 1 x 4 matrix
    returns the empty 0 x 0 matrix. *)
Lemma C4_counterexample :
  ~ same_shape M_2x3 M_1x4 /\
  ~ (rows M_1x4 = 1 /\ cols M_1x4 = cols M_2x3) /\
  ~ (rows M_2x3 = 1 /\ cols M_2x3 = cols M_1x4) /\
  operator_plus true M_2x3 M_1x4 = Ok (mkMatrix 0 0 []).
Proof.
  unfold same_shape; simpl.
  repeat split; try reflexivity; intros [E1 E2]; discriminate.
Qed.

(** C7 as worded: a matrix move-assigned to itself is the source of a
    move assignment and keeps its two rows and columns. *)
Lemma C7_counterexample :
  exists h', operator_assign_move 0 0 (store_one M_2x2_A) = Ok h' /\
             h' 0%nat = Some M_2x2_A /\ rows M_2x2_A <> 0 /\ cols M_2x2_A <> 0.
Proof.
  exists (store_one M_2x2_A).
  split; [reflexivity|]. split; [reflexivity|]. split; discriminate.
Qed.

(** ** The theorems at concrete inputs *)

Lemma X22_witness :
  valid M_2x2_A /\ valid M_2x2_B /\ cols M_2x2_A = rows M_2x2_B /\
  rows M_2x2_A * cols M_2x2_B < UINT_MOD /\
  operator_mul false M_2x2_A M_2x2_B = Ok (mul_naive M_2x2_A M_2x2_B) /\
  mul_naive_loops false M_2x2_A M_2x2_B = Ok (mul_naive M_2x2_A M_2x2_B) /\
  get_rows (mul_naive M_2x2_A M_2x2_B) = get_rows M_2x2_A /\
  get_cols (mul_naive M_2x2_A M_2x2_B) = get_cols M_2x2_B /\
  forall i j, i < get_rows M_2x2_A -> j < get_cols M_2x2_B ->
    operator_call false (mul_naive M_2x2_A M_2x2_B) i j =
    Ok (inner_product M_2x2_A M_2x2_B i j).
Proof.
  split; [exact valid_M_2x2_A|]. split; [exact valid_M_2x2_B|].
  split; [reflexivity|]. split; [reflexivity|].
  exact (X22_mul_refines_naive false M_2x2_A M_2x2_B
           valid_M_2x2_A valid_M_2x2_B eq_refl eq_refl).
Defined.

Lemma X23_witness :
  valid M_3x4 /\ valid M_1x4 /\ ~ same_shape M_3x4 M_1x4 /\
  (rows M_1x4 = 1 /\ cols M_1x4 = cols M_3x4) /\
  exists R, operator_plus false M_3x4 M_1x4 = Ok R /\ same_shape R M_3x4 /\
            valid R /\
            forall i j, i < rows M_3x4 -> j < cols M_3x4 ->
                        elem R i j = Tadd (elem M_3x4 i j) (elem M_1x4 0 j).
Proof.
  assert (NS : ~ same_shape M_3x4 M_1x4) by (intros [E _]; discriminate E).
  split; [exact valid_M_3x4|]. split; [exact valid_M_1x4|].
  split; [exact NS|]. split; [split; reflexivity|].
  exact (proj1 (proj2 (X23_plus_broadcast_cases false M_3x4 M_1x4
                         valid_M_3x4 valid_M_1x4))
               NS (conj eq_refl eq_refl)).
Defined.

Lemma C3_witness :
  let m := mkMatrix 2 2 [-5; -5; 5; 2]%Z in
  produced false N lcg_draw m /\ N.of_nat (length (mat m)) = rows m * cols m.
Proof.
  intros m.
  assert (P : produced false N lcg_draw m).
  { apply (P_random false N lcg_draw 2 2 5%Z 42 m 1668674806);
      [vm_compute | ]; reflexivity. }
  split; [exact P|].
  exact (proj1 (C3_storage_length_invariant false N lcg_draw) m P).
Defined.

Lemma C4_witness :
  ~ same_shape M_2x3 M_1x4 /\
  ~ (rows M_1x4 = 1 /\ cols M_1x4 = cols M_2x3) /\
  ~ (rows M_2x3 = 1 /\ cols M_2x3 = cols M_1x4) /\
  operator_plus false M_2x3 M_1x4 = AssertFail.
Proof.
  assert (N1 : ~ same_shape M_2x3 M_1x4) by (intros [E _]; discriminate E).
  assert (N2 : ~ (rows M_1x4 = 1 /\ cols M_1x4 = cols M_2x3))
    by (intros [_ E]; discriminate E).
  assert (N3 : ~ (rows M_2x3 = 1 /\ cols M_2x3 = cols M_1x4))
    by (intros [E _]; discriminate E).
  split; [exact N1|]. split; [exact N2|]. split; [exact N3|].
  exact (C4_plus_unsupported_shapes false M_2x3 M_1x4 N1 N2 N3).
Defined.

Lemma X24_witness :
  valid M_2x3 /\
  exists R,
    transpose false M_2x3 = Ok R /\
    get_rows R = get_cols M_2x3 /\ get_cols R = get_rows M_2x3 /\
    (forall i j, i < get_rows M_2x3 -> j < get_cols M_2x3 ->
       exists x, operator_call false M_2x3 i j = Ok x /\
                 operator_call false R j i = Ok x) /\
    transpose false R = Ok M_2x3.
Proof.
  split; [exact valid_M_2x3|].
  exact (X24_transpose_involution false M_2x3 valid_M_2x3).
Defined.

Lemma X25_witness :
  (forall a b : Z, Tsub (Tadd a b) b = a) /\
  valid M_2x2_A /\ valid M_2x2_B /\ same_shape M_2x2_A M_2x2_B /\
  exists S, operator_plus false M_2x2_A M_2x2_B = Ok S /\
            operator_minus false S M_2x2_B = Ok M_2x2_A.
Proof.
  split; [exact Z.add_simpl_r|].
  split; [exact valid_M_2x2_A|]. split; [exact valid_M_2x2_B|].
  split; [split; reflexivity|].
  exact (X25_plus_minus_cancel false M_2x2_A M_2x2_B Z.add_simpl_r
           valid_M_2x2_A valid_M_2x2_B (conj eq_refl eq_refl)).
Defined.

Lemma C7_witness :
  (0 <> 1)%nat /\
  store_two M_2x2_A M_2x3 0%nat = Some M_2x2_A /\
  store_two M_2x2_A M_2x3 1%nat = Some M_2x3 /\
  exists h' s,
    operator_assign_move 0 1 (store_two M_2x2_A M_2x3) = Ok h' /\
    h' 0%nat = Some M_2x3 /\ h' 1%nat = Some s /\
    rows s = 0 /\ cols s = 0 /\ valid s.
Proof.
  assert (Ne : (0 <> 1)%nat) by discriminate.
  split; [exact Ne|]. split; [reflexivity|]. split; [reflexivity|].
  exact (proj1 (proj2 (C7_move_source_and_self_assignment (T := Z)))
               (store_two M_2x2_A M_2x3) 0%nat 1%nat M_2x2_A M_2x3
               Ne eq_refl eq_refl).
Defined.

Lemma X26_witness :
  valid M_2x3 /\
  exists v,
    diag_vec false M_2x3 = Ok (v, M_2x3) /\
    N.of_nat (length v) = N.min (get_rows M_2x3) (get_cols M_2x3) /\
    forall i, i < N.min (get_rows M_2x3) (get_cols M_2x3) ->
      exists x, operator_call false M_2x3 i i = Ok x /\
                nth_error v (N.to_nat i) = Some x.
Proof.
  split; [exact valid_M_2x3|].
  exact (proj1 X26_diag_vec_main_diagonal Z Numeric_Z false M_2x3 valid_M_2x3).
Defined.

Lemma C10_witness :
  valid M_2x3 /\ N.of_nat (length [1; 1; 1]%Z) = cols M_2x3 /\
  (exists v, diag_vec false M_2x3 = Ok (v, M_2x3)) /\
  (exists v, operator_mul_vec false M_2x3 [1; 1; 1]%Z = Ok (v, M_2x3)).
Proof.
  split; [exact valid_M_2x3|]. split; [reflexivity|].
  pose proof (C10_queries_leave_matrix_unchanged false M_2x3 [1; 1; 1]%Z)
    as (_ & _ & D & V).
  split; [exact (D valid_M_2x3) | exact (V valid_M_2x3 eq_refl)].
Defined.

(** * More of the interface *)

Section MatrixMore.

Context {T : Type} `{Numeric T}.
Variable ndebug : bool.

(** ** Element access *)

Lemma elem_filled (r c i j : N) (x : T) :
  r < UINT_MOD -> c < UINT_MOD -> r * c < UINT_MOD -> i < r -> j < c ->
  elem (Matrix_filled r c x) i j = x.
Proof.
  intros Hr Hc Hrc Hi Hj.
  destruct (Matrix_filled_ok r c x Hr Hc Hrc) as (_ & Ec & Em & _).
  unfold elem; rewrite Ec, Em.
  apply nth_repeat_lt. pose proof (offset_lt _ _ _ _ Hi Hj); lia.
Qed.

(** X1: the filled constructor, asked for fewer than 2^32 elements, gives
    a matrix of the requested shape in which operator() returns the
    initial value at every position of the shape. *)
Theorem X1_filled_elements (r c : N) (x : T) :
  r < UINT_MOD -> c < UINT_MOD -> r * c < UINT_MOD ->
  get_rows (Matrix_filled r c x) = r /\ get_cols (Matrix_filled r c x) = c /\
  valid (Matrix_filled r c x) /\
  forall i j, i < r -> j < c ->
              operator_call ndebug (Matrix_filled r c x) i j = Ok x.
Proof.
  intros Hr Hc Hrc.
  destruct (Matrix_filled_ok r c x Hr Hc Hrc) as (Er & Ec & _ & V).
  unfold get_rows, get_cols.
  split; [exact Er|]. split; [exact Ec|]. split; [exact V|].
  intros i j Hi Hj.
  rewrite operator_call_ok by (try assumption; lia).
  rewrite elem_filled by assumption; reflexivity.
Qed.

(** X2: a store through operator() on a valid matrix at a position of its
    shape returns; afterwards operator() reads the stored value there and
    what it read before at every other position, and the shape is kept. *)
Theorem X2_store_then_load (m : Matrix T) (i j : N) (x : T) :
  valid m -> i < rows m -> j < cols m ->
  exists m',
    operator_call_store ndebug m i j x = Ok m' /\
    same_shape m' m /\ valid m' /\
    operator_call ndebug m' i j = Ok x /\
    forall i' j', i' < rows m -> j' < cols m -> (i', j') <> (i, j) ->
      operator_call ndebug m' i' j' = operator_call ndebug m i' j'.
Proof.
  intros V Hi Hj.
  destruct (operator_call_store_ok ndebug m i j x V Hi Hj)
    as (m' & E & Er & Ec & V' & Here & Else).
  exists m'; split; [exact E|]. split; [split; assumption|]. split; [exact V'|].
  split.
  - rewrite operator_call_ok by (try assumption; lia). rewrite Here; reflexivity.
  - intros i' j' Hi' Hj' Ne.
    rewrite !operator_call_ok by (try assumption; lia).
    rewrite Else by assumption; reflexivity.
Qed.

Lemma assert_true_any (d b : bool) : b = true -> assert d b = Ok tt.
Proof. intros ->; unfold assert; destruct d; reflexivity. Qed.

Lemma assert_false_halts (b : bool) : b = false -> assert false b = AssertFail.
Proof. intros ->; reflexivity. Qed.

(** X3: operator() on a valid matrix with an index outside the shape.
    With assertions the call stops at the assertion.  With NDEBUG the
    offset row * cols + col is used as it is: while it stays inside the
    storage the call returns the element of a later row, the one at
    (row + col / cols, col mod cols). *)
Theorem X3_access_outside_shape (m : Matrix T) (i j : N) :
  valid m -> i < UINT_MOD -> j < UINT_MOD ->
  (rows m <= i \/ cols m <= j -> operator_call false m i j = AssertFail) /\
  (i * cols m + j < rows m * cols m ->
   operator_call true m i j = Ok (elem m (i + j / cols m) (j mod cols m))).
Proof.
  intros (Hr & Hc & Hrc & Hlen) Hi Hj; split.
  - intros Out; unfold operator_call.
    rewrite (u32_small i Hi), (u32_small j Hj).
    rewrite assert_false_halts; [reflexivity|].
    apply andb_false_iff.
    destruct Out as [O | O]; [left | right]; apply N.ltb_ge; exact O.
  - intros In; unfold operator_call.
    rewrite (u32_small i Hi), (u32_small j Hj).
    assert (Hn : cols m <> 0) by (intros E; rewrite E in In; lia).
    assert (Eo : (i + j / cols m) * cols m + j mod cols m = i * cols m + j).
    { rewrite (N.div_mod j (cols m) Hn) at 3; lia. }
    rewrite (u32_small (i * cols m + j)) by lia.
    unfold assert; cbn [bind].
    rewrite vec_get_ok by lia.
    unfold elem; rewrite Eo; reflexivity.
Qed.

(** X4: with assertions enabled, the operators that need equal shapes
    (-, +=, -=, Hadamard and in-place Hadamard), the matrix product with
    unequal inner sizes and the matrix-vector product with a vector of the
    wrong length stop at their assertion; in particular += does not
    broadcast the one-row operand that + accepts. *)
Theorem X4_shape_mismatch_halts (A B : Matrix T) (v : list T) :
  (~ same_shape A B ->
   operator_minus false A B = AssertFail /\
   operator_plus_assign false A B = AssertFail /\
   operator_minus_assign false A B = AssertFail /\
   hadamardMultiplication false A B = AssertFail /\
   hadamardMultiplicationInPlace false A B = AssertFail) /\
  (cols A <> rows B ->
   operator_mul false A B = AssertFail /\
   operator_mul_assign false A B = AssertFail) /\
  (N.of_nat (length v) <> cols A -> operator_mul_vec false A v = AssertFail) /\
  (valid A -> valid B -> ~ same_shape A B -> rows B = 1 /\ cols B = cols A ->
   (exists R, operator_plus false A B = Ok R /\ same_shape R A) /\
   operator_plus_assign false A B = AssertFail).
Proof.
  assert (Mis : ~ same_shape A B ->
                assert false ((rows A =? rows B) && (cols A =? cols B)) = AssertFail).
  { intros NS; apply assert_false_halts, dims_eqb_false; exact NS. }
  split; [|split; [|split]].
  - intros NS; specialize (Mis NS).
    unfold operator_minus, operator_plus_assign, operator_minus_assign,
      hadamardMultiplication, hadamardMultiplicationInPlace.
    rewrite Mis; repeat split; reflexivity.
  - intros Ne.
    assert (E : operator_mul false A B = AssertFail).
    { unfold operator_mul. rewrite assert_false_halts; [reflexivity|].
      apply N.eqb_neq; exact Ne. }
    split; [exact E|]. unfold operator_mul_assign; rewrite E; reflexivity.
  - intros Ne; unfold operator_mul_vec.
    rewrite assert_false_halts; [reflexivity|]. apply N.eqb_neq; exact Ne.
  - intros VA VB NS C2; split.
    + destruct (operator_plus_row_rhs false A B VA VB NS C2)
        as (R & E & Er & Ec & _).
      exists R; split; [exact E | split; assumption].
    + unfold operator_plus_assign; rewrite (Mis NS); reflexivity.
Qed.

(** ** Elementwise operators *)

Lemma nth_map_lt (f : T -> T) (l : list T) (k : nat) :
  (k < length l)%nat -> nth k (map f l) Tzero = f (nth k l Tzero).
Proof.
  intros L. rewrite (nth_indep _ Tzero (f Tzero)) by (rewrite length_map; exact L).
  apply map_nth.
Qed.

Lemma transform1_map (op : T -> T) (l : list T) : forall out : list T,
  length out = length l -> transform1 op l out = Ok (map op l).
Proof.
  induction l as [|x l IH]; intros [|z out] L; simpl in *; try discriminate.
  - reflexivity.
  - rewrite IH by lia; reflexivity.
Qed.

Lemma scalar_op_map (f : T -> T) (A : Matrix T) :
  valid A -> scalar_op f A = Ok (mkMatrix (rows A) (cols A) (map f (mat A))).
Proof.
  intros (Hr & Hc & Hrc & Hlen); unfold scalar_op.
  destruct (Matrix_filled_ok (rows A) (cols A) (Tzero : T) Hr Hc Hrc)
    as (Er & Ec & Em & _).
  rewrite transform1_map by (rewrite Em, repeat_length; lia); cbn [bind].
  unfold set_mat; rewrite Er, Ec; reflexivity.
Qed.

(** A loop over the offsets of the storage that replaces the element at
    offset [k] by [f k] of it. *)
Lemma offset_loop_ok (f : N -> T -> T) (body : N -> Matrix T -> outcome (Matrix T))
      (A : Matrix T) :
  (forall i t, (N.to_nat i < length (mat A))%nat ->
     body i t = (a <- vec_get (mat t) i ;;
                 v <- vec_set (mat t) i (f i a) ;;
                 Ok (set_mat t v))) ->
  exists R, for_range (N.of_nat (length (mat A))) body A = Ok R /\
            rows R = rows A /\ cols R = cols A /\
            length (mat R) = length (mat A) /\
            forall k, (k < length (mat A))%nat ->
                      nth k (mat R) Tzero = f (N.of_nat k) (nth k (mat A) Tzero).
Proof.
  intros Body.
  destruct (for_range_total
              (fun i t =>
                 rows t = rows A /\ cols t = cols A /\
                 length (mat t) = length (mat A) /\
                 forall k, (k < length (mat A))%nat ->
                   nth k (mat t) Tzero =
                   if (k <? N.to_nat i)%nat
                   then f (N.of_nat k) (nth k (mat A) Tzero)
                   else nth k (mat A) Tzero)
              body (N.of_nat (length (mat A))) A)
    as (R & E & Er & Ec & El & En).
  - split; [reflexivity|]. split; [reflexivity|]. split; [reflexivity|].
    intros k _. destruct (k <? N.to_nat 0)%nat eqn:L; [|reflexivity].
    apply Nat.ltb_lt in L; lia.
  - intros i t Hi (Er & Ec & El & En).
    rewrite Body by lia.
    rewrite vec_get_ok by lia; cbn [bind].
    destruct (vec_set_ok (mat t) i (f i (nth (N.to_nat i) (mat t) Tzero)))
      as (v & Ev & Lv & Here & Else); [lia|].
    rewrite Ev; cbn [bind].
    eexists; split; [reflexivity|]; simpl.
    split; [exact Er|]. split; [exact Ec|]. split; [lia|].
    intros k Hk.
    destruct (Nat.eq_dec k (N.to_nat i)) as [-> | Ne].
    + rewrite Here.
      replace (N.to_nat i <? N.to_nat (i + 1))%nat with true
        by (symmetry; apply Nat.ltb_lt; lia).
      rewrite N2Nat.id.
      specialize (En (N.to_nat i) Hk).
      rewrite Nat.ltb_irrefl in En. rewrite En; reflexivity.
    + rewrite Else by exact Ne. rewrite (En k Hk).
      replace (k <? N.to_nat (i + 1))%nat with (k <? N.to_nat i)%nat; [reflexivity|].
      destruct (k <? N.to_nat i)%nat eqn:L; symmetry.
      * apply Nat.ltb_lt in L; apply Nat.ltb_lt; lia.
      * apply Nat.ltb_ge in L; apply Nat.ltb_ge; lia.
  - exists R; split; [exact E|].
    split; [exact Er|]. split; [exact Ec|]. split; [exact El|].
    intros k Hk. rewrite (En k Hk).
    replace (k <? N.to_nat (N.of_nat (length (mat A))))%nat with true
      by (symmetry; apply Nat.ltb_lt; lia).
    reflexivity.
Qed.

Lemma compound_loop_ok (op : T -> T -> T) (A B : Matrix T) :
  valid A -> valid B -> same_shape A B ->
  exists R, compound_loop op A B = Ok R /\
            rows R = rows A /\ cols R = cols A /\ valid R /\
            forall i j, i < rows A -> j < cols A ->
                        elem R i j = op (elem A i j) (elem B i j).
Proof.
  intros VA VB (Sr & Sc).
  pose proof VA as (Hr & Hc & Hrc & Hlen).
  pose proof VB as (Hr' & Hc' & Hrc' & Hlen').
  unfold compound_loop.
  rewrite (u32_small _ Hrc), <- Hlen.
  destruct (offset_loop_ok (fun i a => op a (nth (N.to_nat i) (mat B) Tzero))
              (fun i this =>
                 a <- vec_get (mat this) i ;;
                 b <- vec_get (mat B) i ;;
                 v <- vec_set (mat this) i (op a b) ;;
                 Ok (set_mat this v)) A)
    as (R & E & Er & Ec & El & En).
  - intros i t Hi.
    rewrite (vec_get_ok (mat B) i) by (rewrite <- Sr, <- Sc in Hlen'; lia).
    destruct (vec_get (mat t) i); reflexivity.
  - exists R; split; [exact E|].
    split; [exact Er|]. split; [exact Ec|]. split.
    + unfold valid; rewrite Er, Ec, El; tauto.
    + intros i j Hi Hj; unfold elem.
      rewrite Ec, <- Sc.
      pose proof (offset_lt _ _ _ _ Hi Hj).
      rewrite En by lia. rewrite N2Nat.id; reflexivity.
Qed.

Lemma hadamard_same (A B : Matrix T) :
  valid A -> valid B -> same_shape A B ->
  exists R, hadamardMultiplication ndebug A B = Ok R /\
            rows R = rows A /\ cols R = cols A /\ valid R /\
            forall i j, i < rows A -> j < cols A ->
                        elem R i j = Tmul (elem A i j) (elem B i j).
Proof.
  intros VA VB S.
  destruct (elementwise_ok Tmul A B VA VB S) as (v & E & P).
  unfold hadamardMultiplication.
  rewrite assert_true by (apply dims_eqb_iff, S); cbn [bind].
  rewrite E; cbn [bind].
  eexists; split; [reflexivity | exact P].
Qed.

(** X5: on two valid matrices of one shape, subtraction and the Hadamard
    product return a valid matrix of that shape whose element (i, j) is
    the difference, respectively the product, of the two elements at
    (i, j). *)
Theorem X5_minus_hadamard_elementwise (A B : Matrix T) :
  valid A -> valid B -> same_shape A B ->
  exists D P,
    operator_minus ndebug A B = Ok D /\
    hadamardMultiplication ndebug A B = Ok P /\
    same_shape D A /\ valid D /\ same_shape P A /\ valid P /\
    forall i j, i < rows A -> j < cols A ->
      elem D i j = Tsub (elem A i j) (elem B i j) /\
      elem P i j = Tmul (elem A i j) (elem B i j).
Proof.
  intros VA VB S.
  destruct (operator_minus_same ndebug A B VA VB S) as (D & ED & Dr & Dc & DV & DE).
  destruct (hadamard_same A B VA VB S) as (P & EP & Pr & Pc & PV & PE).
  exists D, P.
  split; [exact ED|]. split; [exact EP|].
  split; [split; assumption|]. split; [exact DV|].
  split; [split; assumption|]. split; [exact PV|].
  intros i j Hi Hj; split; [apply DE | apply PE]; assumption.
Qed.

(** X6: on two valid matrices of one shape the in-place operators +=, -=
    and in-place Hadamard leave in *this the matrix that +, - and the
    Hadamard product return. *)
Theorem X6_in_place_agrees (A B : Matrix T) :
  valid A -> valid B -> same_shape A B ->
  (exists R, operator_plus ndebug A B = Ok R /\
             operator_plus_assign ndebug A B = Ok R) /\
  (exists R, operator_minus ndebug A B = Ok R /\
             operator_minus_assign ndebug A B = Ok R) /\
  (exists R, hadamardMultiplication ndebug A B = Ok R /\
             hadamardMultiplicationInPlace ndebug A B = Ok R).
Proof.
  intros VA VB S.
  assert (Chk : assert ndebug ((rows A =? rows B) && (cols A =? cols B)) = Ok tt)
    by (apply assert_true, dims_eqb_iff, S).
  assert (Same : forall (op : T -> T -> T) (R : Matrix T),
            rows R = rows A -> cols R = cols A -> valid R ->
            (forall i j, i < rows A -> j < cols A ->
                         elem R i j = op (elem A i j) (elem B i j)) ->
            compound_loop op A B = Ok R).
  { intros op R Rr Rc RV RE.
    destruct (compound_loop_ok op A B VA VB S) as (R' & E' & Rr' & Rc' & RV' & RE').
    rewrite E'; f_equal. apply matrix_ext; try assumption; try congruence.
    intros i j Hi Hj. rewrite RE', RE by congruence. reflexivity. }
  split; [|split].
  - destruct (operator_plus_same ndebug A B VA VB S) as (R & E & Rr & Rc & RV & RE).
    exists R; split; [exact E|].
    unfold operator_plus_assign; rewrite Chk; cbn [bind]. apply Same; assumption.
  - destruct (operator_minus_same ndebug A B VA VB S) as (R & E & Rr & Rc & RV & RE).
    exists R; split; [exact E|].
    unfold operator_minus_assign; rewrite Chk; cbn [bind]. apply Same; assumption.
  - destruct (hadamard_same A B VA VB S) as (R & E & Rr & Rc & RV & RE).
    exists R; split; [exact E|].
    unfold hadamardMultiplicationInPlace; rewrite Chk; cbn [bind].
    apply Same; assumption.
Qed.

(** ** Scalar and component-wise operators *)

Lemma valid_map (f : T -> T) (A : Matrix T) :
  valid A -> valid (mkMatrix (rows A) (cols A) (map f (mat A))).
Proof. unfold valid; simpl; rewrite length_map; tauto. Qed.

Lemma operator_mul_assign_scalar_map (A : Matrix T) (s : T) :
  valid A ->
  operator_mul_assign_scalar A s =
  Ok (mkMatrix (rows A) (cols A) (map (fun val => Tmul val s) (mat A))).
Proof.
  intros (Hr & Hc & Hrc & Hlen); unfold operator_mul_assign_scalar.
  rewrite (u32_small _ Hrc), <- Hlen.
  destruct (offset_loop_ok (fun _ a => Tmul a s)
              (fun i this =>
                 a <- vec_get (mat this) i ;;
                 v <- vec_set (mat this) i (Tmul a s) ;;
                 Ok (set_mat this v)) A)
    as ([r c v] & E & Er & Ec & El & En); [reflexivity|].
  simpl in Er, Ec, El, En; subst r c.
  rewrite E; do 2 f_equal.
  apply (nth_ext _ _ Tzero Tzero); [rewrite length_map; exact El|].
  intros k Hk. rewrite En by lia. rewrite nth_map_lt by lia. reflexivity.
Qed.

(** X7: on a valid matrix the scalar operators +, -, * and / return the
    matrix of the same shape whose storage is the storage with the scalar
    applied to every element; *= with a scalar leaves in *this what *
    returns; and subtracting a scalar that was added gives the matrix
    back when the element arithmetic is exact. *)
Theorem X7_scalar_operators (A : Matrix T) (s : T) :
  valid A ->
  operator_plus_scalar A s =
    Ok (mkMatrix (rows A) (cols A) (map (fun val => Tadd val s) (mat A))) /\
  operator_minus_scalar A s =
    Ok (mkMatrix (rows A) (cols A) (map (fun val => Tsub val s) (mat A))) /\
  operator_mul_scalar A s =
    Ok (mkMatrix (rows A) (cols A) (map (fun val => Tmul val s) (mat A))) /\
  operator_div_scalar A s =
    Ok (mkMatrix (rows A) (cols A) (map (fun val => Tdiv val s) (mat A))) /\
  operator_mul_assign_scalar A s = operator_mul_scalar A s /\
  ((forall a : T, Tsub (Tadd a s) s = a) ->
   exists R, operator_plus_scalar A s = Ok R /\ operator_minus_scalar R s = Ok A).
Proof.
  intros V.
  unfold operator_plus_scalar, operator_minus_scalar, operator_mul_scalar,
    operator_div_scalar.
  rewrite !scalar_op_map by exact V.
  split; [reflexivity|]. split; [reflexivity|]. split; [reflexivity|].
  split; [reflexivity|]. split; [apply operator_mul_assign_scalar_map; exact V|].
  intros Exact. eexists; split; [reflexivity|].
  rewrite scalar_op_map by (apply valid_map; exact V); simpl.
  rewrite map_map. destruct A as [r c v]; simpl. do 2 f_equal.
  rewrite <- (map_id v) at 2. apply map_ext. exact Exact.
Qed.

(** X8: the in-place component-wise transformation replaces every stored
    element by its image, on every matrix; on a valid matrix the
    non-mutating transformation returns the same matrix, and transforming
    by f and then by g is transforming by their composition. *)
Theorem X8_component_wise_transformation (A : Matrix T) (f g : T -> T) :
  component_wise_transformation_in_place A f =
    Ok (mkMatrix (rows A) (cols A) (map f (mat A))) /\
  (valid A ->
   component_wise_transformation A f =
     component_wise_transformation_in_place A f /\
   exists R, component_wise_transformation A f = Ok R /\ valid R /\
             component_wise_transformation R g =
             component_wise_transformation A (fun x => g (f x))).
Proof.
  split.
  - unfold component_wise_transformation_in_place.
    rewrite transform1_map by reflexivity; reflexivity.
  - intros V; unfold component_wise_transformation, component_wise_transformation_in_place.
    rewrite transform1_map by reflexivity; cbn [bind].
    rewrite !scalar_op_map by exact V.
    split; [reflexivity|].
    eexists; split; [reflexivity|]. split; [apply valid_map; exact V|].
    rewrite scalar_op_map by (apply valid_map; exact V); simpl.
    rewrite map_map; reflexivity.
Qed.

(** ** Algebra of the operators *)

Lemma operator_plus_none (A B : Matrix T) :
  ~ same_shape A B ->
  ~ (rows B = 1 /\ cols B = cols A) ->
  ~ (rows A = 1 /\ cols A = cols B) ->
  operator_plus ndebug A B = (assert ndebug false ;;; Ok (Matrix_filled 0 0 Tzero)).
Proof.
  intros N1 N2 N3; unfold operator_plus.
  rewrite (dims_eqb_false _ _ _ _ N1), (dims_eqb_false _ _ _ _ N2),
          (dims_eqb_false _ _ _ _ N3).
  reflexivity.
Qed.

Lemma dims_dec (a b c d : N) : {a = b /\ c = d} + {~ (a = b /\ c = d)}.
Proof.
  destruct (N.eq_dec a b) as [E1 | N1]; [|right; tauto].
  destruct (N.eq_dec c d) as [E2 | N2]; [left; tauto | right; tauto].
Qed.

(** X9: when the addition of elements is commutative, A + B and B + A
    are the same outcome for all valid A and B, in each of the three
    shape cases and in the unsupported one; likewise the Hadamard product
    when the multiplication of elements is commutative. *)
Theorem X9_plus_hadamard_commute (A B : Matrix T) :
  valid A -> valid B ->
  ((forall a b : T, Tadd a b = Tadd b a) ->
   operator_plus ndebug A B = operator_plus ndebug B A) /\
  ((forall a b : T, Tmul a b = Tmul b a) -> same_shape A B ->
   hadamardMultiplication ndebug A B = hadamardMultiplication ndebug B A).
Proof.
  intros VA VB; split.
  - intros Comm.
    destruct (dims_dec (rows A) (rows B) (cols A) (cols B)) as [S | NS].
    { assert (S' : same_shape B A) by (destruct S; split; congruence).
      destruct (operator_plus_same ndebug A B VA VB S) as (R & E & Rr & Rc & RV & RE).
      destruct (operator_plus_same ndebug B A VB VA S')
        as (R' & E' & Rr' & Rc' & RV' & RE').
      rewrite E, E'; f_equal. destruct S as (Sr & Sc).
      apply matrix_ext; try assumption; try congruence.
      intros i j Hi Hj. rewrite RE, RE' by congruence. apply Comm. }
    assert (NS' : ~ same_shape B A).
    { intros (Sr & Sc); apply NS; split; congruence. }
    destruct (dims_dec (rows B) 1 (cols B) (cols A)) as [C2 | N2].
    { assert (N2' : ~ (rows A = 1 /\ cols A = cols B)).
      { intros (A1 & Ac); apply NS; split; [destruct C2; congruence | exact Ac]. }
      destruct (operator_plus_row_rhs ndebug A B VA VB NS C2)
        as (R & E & Rr & Rc & RV & RE).
      destruct (operator_plus_row_this ndebug B A VB VA NS' N2' C2)
        as (R' & E' & Rr' & Rc' & RV' & RE').
      rewrite E, E'; f_equal.
      apply matrix_ext; try assumption; try congruence.
      intros i j Hi Hj. rewrite RE, RE' by congruence. apply Comm. }
    destruct (dims_dec (rows A) 1 (cols A) (cols B)) as [C3 | N3].
    { destruct (operator_plus_row_this ndebug A B VA VB NS N2 C3)
        as (R & E & Rr & Rc & RV & RE).
      destruct (operator_plus_row_rhs ndebug B A VB VA NS' C3)
        as (R' & E' & Rr' & Rc' & RV' & RE').
      rewrite E, E'; f_equal.
      apply matrix_ext; try assumption; try congruence.
      intros i j Hi Hj. rewrite RE, RE' by congruence. apply Comm. }
    rewrite (operator_plus_none A B NS N2 N3), (operator_plus_none B A NS' N3 N2).
    reflexivity.
  - intros Comm S.
    assert (S' : same_shape B A) by (destruct S; split; congruence).
    destruct (hadamard_same A B VA VB S) as (R & E & Rr & Rc & RV & RE).
    destruct (hadamard_same B A VB VA S') as (R' & E' & Rr' & Rc' & RV' & RE').
    rewrite E, E'; f_equal. destruct S as (Sr & Sc).
    apply matrix_ext; try assumption; try congruence.
    intros i j Hi Hj. rewrite RE, RE' by congruence. apply Comm.
Qed.

Lemma fold_Nrange_ext (f g : T -> N -> T) (n : N) (init : T) :
  (forall s k, k < n -> f s k = g s k) ->
  fold_left f (Nrange n) init = fold_left g (Nrange n) init.
Proof.
  induction n as [|n IH] using N.peano_ind; intros E; [reflexivity|].
  rewrite <- N.add_1_r, Nrange_succ, !fold_left_app; simpl.
  rewrite IH by (intros s k Hk; apply E; lia).
  apply E; lia.
Qed.

(** X10: when the multiplication of elements is commutative, the
    transpose of a product is the product of the transposes in reverse
    order: for valid A and B with A.cols == B.rows and fewer than 2^32
    elements in the product, transpose(A * B) and
    transpose(B) * transpose(A) are returned and are the same matrix. *)
Theorem X10_transpose_of_product (A B : Matrix T) :
  (forall a b : T, Tmul a b = Tmul b a) ->
  valid A -> valid B -> cols A = rows B -> rows A * cols B < UINT_MOD ->
  exists P PT AT BT,
    operator_mul ndebug A B = Ok P /\ transpose ndebug P = Ok PT /\
    transpose ndebug A = Ok AT /\ transpose ndebug B = Ok BT /\
    operator_mul ndebug BT AT = Ok PT.
Proof.
  intros Comm VA VB Inner Fit.
  destruct (operator_mul_ok ndebug A B VA VB Inner Fit) as (P & EP & Pr & Pc & PV & PE).
  destruct (transpose_ok ndebug P PV) as (PT & EPT & PTr & PTc & PTV & PTE).
  destruct (transpose_ok ndebug A VA) as (AT & EAT & ATr & ATc & ATV & ATE).
  destruct (transpose_ok ndebug B VB) as (BT & EBT & BTr & BTc & BTV & BTE).
  destruct (operator_mul_ok ndebug BT AT BTV ATV) as (Q & EQ & Qr & Qc & QV & QE);
    [congruence | rewrite BTr, ATc; lia |].
  exists P, PT, AT, BT.
  split; [exact EP|]. split; [exact EPT|]. split; [exact EAT|]. split; [exact EBT|].
  rewrite EQ; f_equal.
  apply matrix_ext; try assumption; try congruence.
  intros i j Hi Hj.
  assert (Hi' : i < cols B) by congruence.
  assert (Hj' : j < rows A) by congruence.
  rewrite QE by congruence.
  rewrite PTE by congruence.
  rewrite PE by assumption.
  unfold inner_product.
  replace (cols BT) with (cols A) by congruence.
  apply fold_Nrange_ext; intros s k Hk.
  rewrite BTE by (try assumption; congruence).
  rewrite ATE by assumption.
  rewrite (Comm (elem B k i)); reflexivity.
Qed.

(** X11: the main diagonal of the transpose is the main diagonal of the
    matrix: on a valid A, diag_vec of transpose(A) and diag_vec of A
    return the same sequence. *)
Theorem X11_diag_of_transpose (A : Matrix T) :
  valid A ->
  exists AT d,
    transpose ndebug A = Ok AT /\
    diag_vec ndebug AT = Ok (d, AT) /\ diag_vec ndebug A = Ok (d, A).
Proof.
  intros VA.
  destruct (transpose_ok ndebug A VA) as (AT & EAT & ATr & ATc & ATV & ATE).
  destruct (diag_vec_ok ndebug A VA) as (d & Ed & Ld & Nd).
  destruct (diag_vec_ok ndebug AT ATV) as (d' & Ed' & Ld' & Nd').
  exists AT, d.
  split; [exact EAT|]. split; [|exact Ed].
  rewrite Ed'; do 2 f_equal.
  apply (nth_ext _ _ Tzero Tzero); [rewrite ATr, ATc in Ld'; lia|].
  intros k Hk.
  rewrite <- (Nat2N.id k).
  rewrite Nd' by (rewrite ATr, ATc in *; lia).
  rewrite Nd by (rewrite ATr, ATc in *; lia).
  apply ATE; rewrite ATr, ATc in *; lia.
Qed.

(** ** The matrix-vector product *)

(** X12: on a valid matrix and a vector of cols elements the
    matrix-vector product returns rows elements, and element i is the sum
    over j, accumulated from T() in increasing j, of the products of
    element (i, j) with element j of the vector. *)
Theorem X12_matrix_vector_product (m : Matrix T) (rhs : list T) :
  valid m -> N.of_nat (length rhs) = cols m ->
  exists v,
    operator_mul_vec ndebug m rhs = Ok (v, m) /\
    N.of_nat (length v) = rows m /\
    forall i, i < rows m ->
      nth_error v (N.to_nat i) =
      Some (sum_upto (cols m)
              (fun j => Tmul (elem m i j) (nth (N.to_nat j) rhs Tzero))).
Proof.
  intros V L.
  destruct (operator_mul_vec_ok ndebug m rhs V L) as (v & E & Lv & Nv).
  exists v; split; [exact E|]. split; [exact Lv|].
  intros i Hi.
  rewrite (nth_error_nth' v Tzero) by lia.
  rewrite (Nv i Hi); reflexivity.
Qed.

(** X13: the matrix-vector product is the matrix product with the vector
    as a one-column matrix: on a valid matrix m and a vector v of cols
    elements, m * Matrix(v, cols, 1) is returned and is the one-column
    matrix of the sequence that m * v returns. *)
Theorem X13_vector_product_as_column (m : Matrix T) (rhs : list T) :
  valid m -> N.of_nat (length rhs) = cols m ->
  exists v,
    operator_mul_vec ndebug m rhs = Ok (v, m) /\
    operator_mul ndebug m (Matrix_flat rhs (cols m) 1) =
    Ok (Matrix_flat v (rows m) 1).
Proof.
  intros V L; pose proof V as (Hr & Hc & Hrc & Hlen).
  destruct (operator_mul_vec_ok ndebug m rhs V L) as (v & E & Lv & Nv).
  exists v; split; [exact E|].
  assert (U1 : u32 1 = 1) by reflexivity.
  assert (VC : valid (Matrix_flat rhs (cols m) 1)).
  { unfold valid, Matrix_flat; simpl. rewrite (u32_small _ Hc), U1.
    split; [exact Hc|]. split; [reflexivity|]. split; lia. }
  assert (VR : valid (Matrix_flat v (rows m) 1)).
  { unfold valid, Matrix_flat; simpl. rewrite (u32_small _ Hr), U1.
    split; [exact Hr|]. split; [reflexivity|]. split; lia. }
  assert (Cr : rows (Matrix_flat rhs (cols m) 1) = cols m)
    by (simpl; apply u32_small; exact Hc).
  assert (Cc : cols (Matrix_flat rhs (cols m) 1) = 1) by reflexivity.
  destruct (operator_mul_ok ndebug m (Matrix_flat rhs (cols m) 1) V VC)
    as (R & ER & Rr & Rc & RV & RE); [congruence | rewrite Cc; lia |].
  rewrite ER; f_equal.
  apply matrix_ext; [exact RV | exact VR | | |].
  - simpl; rewrite (u32_small _ Hr); exact Rr.
  - rewrite Rc; reflexivity.
  - intros i j Hi Hj. rewrite Rc, Cc in Hj. rewrite Rr in Hi.
    assert (j = 0) by lia; subst j.
    rewrite RE by (rewrite ?Cc; lia).
    assert (Col : forall (w : list T) (r k : N),
              elem (Matrix_flat w r 1) k 0 = nth (N.to_nat k) w Tzero).
    { intros w r k; unfold elem, Matrix_flat; simpl mat; simpl cols; rewrite U1.
      f_equal; lia. }
    rewrite Col, Nv by lia.
    unfold inner_product, row_dot_upto.
    apply fold_Nrange_ext; intros s k Hk.
    rewrite Col; reflexivity.
Qed.

(** ** The nested-sequence constructor *)

Lemma for_loop_app {S : Type} (body : N -> S -> outcome S) (a b : nat) :
  forall (i0 : N) (s : S),
    for_loop (a + b) i0 body s =
    (s' <- for_loop a i0 body s ;; for_loop b (i0 + N.of_nat a) body s').
Proof.
  induction a as [|a IH]; intros i0 s; simpl.
  - replace (i0 + 0) with i0 by lia; reflexivity.
  - destruct (body i0 s) as [s1| |]; simpl; try reflexivity.
    rewrite IH. replace (i0 + 1 + N.of_nat a) with (i0 + N.pos (Pos.of_succ_nat a)) by lia.
    reflexivity.
Qed.

Lemma list_set_app (pre post : list T) (x y : T) :
  list_set (pre ++ y :: post) (length pre) x = Some (pre ++ x :: post).
Proof.
  induction pre as [|z pre IH]; simpl; [reflexivity|].
  rewrite IH; reflexivity.
Qed.

Lemma vec_set_app (pre post : list T) (i : N) (x y : T) :
  N.to_nat i = length pre ->
  vec_set (pre ++ y :: post) i x = Ok (pre ++ x :: post).
Proof.
  intros E; unfold vec_set; rewrite E, list_set_app; reflexivity.
Qed.

Lemma copy_at_app (src : list T) : forall (off : N) (pre mid post : list T),
  N.to_nat off = length pre -> length mid = length src ->
  copy_at src off (pre ++ mid ++ post) = Ok (pre ++ src ++ post).
Proof.
  induction src as [|x src IH]; intros off pre mid post Eo Lm.
  - destruct mid; [reflexivity | discriminate].
  - destruct mid as [|y mid]; [discriminate|]. simpl.
    rewrite (vec_set_app pre (mid ++ post) off x y Eo); cbn [bind].
    replace (pre ++ x :: mid ++ post) with ((pre ++ [x]) ++ mid ++ post)
      by (rewrite <- app_assoc; reflexivity).
    rewrite IH.
    + rewrite <- app_assoc; reflexivity.
    + rewrite length_app; simpl; lia.
    + simpl in Lm; lia.
Qed.

Lemma firstn_succ_nth {A : Type} (l : list A) : forall (k : nat) (x : A),
  nth_error l k = Some x -> firstn (Datatypes.S k) l = firstn k l ++ [x].
Proof.
  induction l as [|y l IH]; intros [|k] x E; simpl in E; try discriminate.
  - injection E as <-; reflexivity.
  - simpl; f_equal. apply IH; exact E.
Qed.

Lemma concat_uniform_length (c : nat) (l : list (list T)) :
  Forall (fun row => length row = c) l -> length (concat l) = (length l * c)%nat.
Proof.
  induction 1 as [|row l Hrow _ IH]; simpl; [reflexivity|].
  rewrite length_app, IH, Hrow; reflexivity.
Qed.

Lemma concat_uniform_nth (c : nat) (l : list (list T)) :
  Forall (fun row => length row = c) l ->
  forall i j, (i < length l)%nat -> (j < c)%nat ->
    nth (i * c + j) (concat l) Tzero = nth j (nth i l []) Tzero.
Proof.
  induction 1 as [|row l Hrow _ IH]; intros i j Hi Hj; simpl in Hi; [lia|].
  simpl. destruct i as [|i]; simpl.
  - apply app_nth1; lia.
  - rewrite app_nth2 by lia.
    replace (c + i * c + j - length row)%nat with (i * c + j)%nat by lia.
    apply IH; lia.
Qed.

(** The rows copied and the zeros left once the constructor has copied
    the first [k] rows, all of the column count. *)
Lemma nested_rows_copied (b : bool) (l : list (list T)) (c : N) (k : nat) :
  N.of_nat (length l) * c < UINT_MOD ->
  (k <= length l)%nat ->
  Forall (fun row => length row = N.to_nat c) (firstn k l) ->
  for_loop k 0
    (fun i this =>
       match nth_error l (N.to_nat i) with
       | None => Undefined
       | Some row =>
           assert b (N.of_nat (length row) =? cols this) ;;;
           v <- copy_at row (u64 (i * cols this)) (mat this) ;;
           Ok (set_mat this v)
       end)
    (mkMatrix (N.of_nat (length l)) c
       (repeat Tzero (N.to_nat (N.of_nat (length l) * c)))) =
  Ok (mkMatrix (N.of_nat (length l)) c
        (concat (firstn k l) ++
         repeat Tzero ((length l - k) * N.to_nat c))).
Proof.
  intros Fit Hk Rect.
  set (r := N.of_nat (length l)) in *.
  destruct (for_loop_total
              (fun i t =>
                 t = mkMatrix r c
                       (concat (firstn (N.to_nat i) l) ++
                        repeat Tzero ((length l - N.to_nat i) * N.to_nat c)))
              (fun i this =>
                 match nth_error l (N.to_nat i) with
                 | None => Undefined
                 | Some row =>
                     assert b (N.of_nat (length row) =? cols this) ;;;
                     v <- copy_at row (u64 (i * cols this)) (mat this) ;;
                     Ok (set_mat this v)
                 end)
              k 0
              (mkMatrix r c (repeat Tzero (N.to_nat (r * c)))))
    as (t & E & Et).
  - simpl. f_equal. f_equal. unfold r; lia.
  - intros i t Hi ->.
    assert (Li : (N.to_nat i < length l)%nat) by lia.
    destruct (nth_error l (N.to_nat i)) as [row|] eqn:Er;
      [|apply nth_error_None in Er; lia].
    assert (Lrow : length row = N.to_nat c).
    { assert (Ef : nth_error (firstn k l) (N.to_nat i) = Some row)
        by (rewrite nth_error_firstn;
            replace (N.to_nat i <? k)%nat with true
              by (symmetry; apply Nat.ltb_lt; lia);
            exact Er).
      apply nth_error_In in Ef.
      rewrite Forall_forall in Rect. apply Rect; exact Ef. }
    assert (Rpre : Forall (fun row => length row = N.to_nat c)
                          (firstn (N.to_nat i) l)).
    { rewrite Forall_forall in *. intros x Hx. apply Rect.
      apply In_nth_error in Hx; destruct Hx as (n & Hn).
      rewrite nth_error_firstn in Hn.
      destruct (n <? N.to_nat i)%nat eqn:Ln; [|discriminate].
      apply Nat.ltb_lt in Ln.
      apply (nth_error_In _ n). rewrite nth_error_firstn.
      replace (n <? k)%nat with true by (symmetry; apply Nat.ltb_lt; lia).
      exact Hn. }
    cbn [cols mat].
    rewrite assert_true_any by (apply N.eqb_eq; lia); cbn [bind].
    assert (Lpre : length (concat (firstn (N.to_nat i) l)) =
                   (N.to_nat i * N.to_nat c)%nat).
    { rewrite (concat_uniform_length _ _ Rpre), length_firstn; lia. }
    rewrite u64_small by (apply UINT_lt_SIZE; unfold r in Fit; nia).
    replace ((length l - N.to_nat i) * N.to_nat c)%nat
      with (N.to_nat c + (length l - N.to_nat (i + 1)) * N.to_nat c)%nat by nia.
    rewrite repeat_app.
    rewrite (copy_at_app row (i * c) (concat (firstn (N.to_nat i) l))
               (repeat Tzero (N.to_nat c)))
      by (rewrite ?repeat_length; lia).
    cbn [bind]. eexists; split; [reflexivity|].
    unfold set_mat; cbn [rows cols]. f_equal.
    replace (N.to_nat (i + 1)) with (Datatypes.S (N.to_nat i)) by lia.
    rewrite (firstn_succ_nth l (N.to_nat i) row Er), concat_app; simpl.
    rewrite app_nil_r, <- app_assoc; reflexivity.
  - rewrite E, Et. replace (N.to_nat (0 + N.of_nat k)) with k by lia.
    reflexivity.
Qed.

Lemma Exists_first_split {A : Type} (P : A -> Prop) (l : list A) :
  (forall x, {P x} + {~ P x}) -> Exists P l ->
  exists good bad rest,
    l = good ++ bad :: rest /\ Forall (fun x => ~ P x) good /\ P bad.
Proof.
  intros Dec; induction l as [|x l IH]; intros Ex.
  - inversion Ex.
  - destruct (Dec x) as [Px | Nx].
    + exists [], x, l; split; [reflexivity|]. split; [constructor | exact Px].
    + inversion Ex as [y l' Py | y l' Ex']; subst; [contradiction|].
      destruct (IH Ex') as (good & bad & rest & -> & Fg & Pb).
      exists (x :: good), bad, rest.
      split; [reflexivity|]. split; [constructor; assumption | exact Pb].
Qed.

(** X14: the nested-sequence constructor on rows that all have the length
    of the first one (fewer than 2^32 elements in all) returns the matrix
    with one row per inner sequence, the columns of the first row and the
    rows stored one after the other: it is the matrix that the
    flat-sequence constructor makes of the concatenated rows, it is valid,
    and operator() returns element j of inner sequence i at (i, j).  An
    empty outer sequence gives the 0 x 0 matrix. *)
Theorem X14_nested_rectangular (l : list (list T)) :
  N.of_nat (length l) < UINT_MOD -> nested_cols l < UINT_MOD ->
  N.of_nat (length l) * nested_cols l < UINT_MOD ->
  Forall (fun row => N.of_nat (length row) = nested_cols l) l ->
  let m := mkMatrix (N.of_nat (length l)) (nested_cols l) (concat l) in
  Matrix_nested ndebug l = Ok m /\
  Matrix_flat (concat l) (N.of_nat (length l)) (nested_cols l) = m /\
  valid m /\
  forall i j, i < rows m -> j < cols m ->
    operator_call ndebug m i j =
    Ok (nth (N.to_nat j) (nth (N.to_nat i) l []) Tzero).
Proof.
  intros Hr Hc Hrc Rect m.
  assert (Rect' : Forall (fun row => length row = N.to_nat (nested_cols l)) l).
  { eapply Forall_impl; [|exact Rect]. simpl; intros row E; lia. }
  assert (V : valid m).
  { unfold valid, m; simpl.
    rewrite (concat_uniform_length _ _ Rect').
    split; [exact Hr|]. split; [exact Hc|]. split; [exact Hrc|]. lia. }
  split; [|split; [|split; [exact V|]]].
  - unfold Matrix_nested.
    change (match l with [] => 0 | row0 :: _ => N.of_nat (length row0) end)
      with (nested_cols l).
    rewrite (u32_small _ Hr), (u32_small _ Hc), (u32_small _ Hrc).
    unfold for_range. rewrite Nat2N.id.
    rewrite (nested_rows_copied ndebug l (nested_cols l) (length l) Hrc (le_n _))
      by (rewrite firstn_all; exact Rect').
    rewrite firstn_all, Nat.sub_diag; simpl. rewrite app_nil_r; reflexivity.
  - unfold Matrix_flat, m. rewrite (u32_small _ Hr), (u32_small _ Hc); reflexivity.
  - intros i j Hi Hj.
    rewrite operator_call_ok by assumption.
    unfold elem, m in *; simpl in *.
    replace (N.to_nat (i * nested_cols l + j))
      with (N.to_nat i * N.to_nat (nested_cols l) + N.to_nat j)%nat by lia.
    rewrite (concat_uniform_nth _ _ Rect') by lia. reflexivity.
Qed.

(** X15: with assertions enabled, the nested-sequence constructor given a
    row whose length is not that of the first row stops at its assertion
    (the sizes being such that the rows before fit the storage). *)
Theorem X15_nested_ragged_halts (l : list (list T)) :
  N.of_nat (length l) * nested_cols l < UINT_MOD ->
  N.of_nat (length l) < UINT_MOD -> nested_cols l < UINT_MOD ->
  Exists (fun row => N.of_nat (length row) <> nested_cols l) l ->
  Matrix_nested false l = AssertFail.
Proof.
  intros Hrc Hr Hc Ragged.
  destruct (Exists_first_split _ l
              (fun row => match N.eq_dec (N.of_nat (length row)) (nested_cols l) with
                          | left E => right (fun Hn => Hn E)
                          | right Hn => left Hn
                          end) Ragged)
    as (good & bad & rest & El & Fg & Pb).
  unfold Matrix_nested.
  change (match l with [] => 0 | row0 :: _ => N.of_nat (length row0) end)
    with (nested_cols l).
  rewrite (u32_small _ Hr), (u32_small _ Hc), (u32_small _ Hrc).
  unfold for_range. rewrite Nat2N.id.
  assert (Ll : length l = (length good + Datatypes.S (length rest))%nat)
    by (rewrite El, length_app; reflexivity).
  rewrite Ll at 1. rewrite for_loop_app.
  rewrite (nested_rows_copied false l (nested_cols l) (length good) Hrc).
  - cbn [bind for_loop].
    replace (N.to_nat (0 + N.of_nat (length good))) with (length good) by lia.
    rewrite El at 1.
    rewrite nth_error_app2, Nat.sub_diag by lia. cbn [nth_error cols].
    rewrite assert_false_halts by (apply N.eqb_neq; exact Pb).
    reflexivity.
  - lia.
  - replace (firstn (length good) l) with good.
    + eapply Forall_impl; [|exact Fg]. simpl; intros row E.
      destruct (N.eq_dec (N.of_nat (length row)) (nested_cols l)) as [E' | N'];
        [lia | contradiction].
    + rewrite El, firstn_app, Nat.sub_diag, firstn_all; simpl.
      rewrite app_nil_r; reflexivity.
Qed.

(** ** Random initialization *)

Section RandomInit.

Variable Gen : Type.
Variable uniform_real : T -> T -> Gen -> T * Gen.

Lemma draws_app (a b : T) (n1 n2 : nat) : forall g : Gen,
  draws Gen uniform_real (n1 + n2) a b g =
  (let '(xs, g1) := draws Gen uniform_real n1 a b g in
   let '(ys, g2) := draws Gen uniform_real n2 a b g1 in
   (xs ++ ys, g2)).
Proof.
  induction n1 as [|n1 IH]; intros g; simpl.
  - destruct (draws Gen uniform_real n2 a b g); reflexivity.
  - destruct (uniform_real a b g) as [x g0]. rewrite IH.
    destruct (draws Gen uniform_real n1 a b g0) as [xs g1].
    destruct (draws Gen uniform_real n2 a b g1); reflexivity.
Qed.

Lemma draws_length (a b : T) (n : nat) : forall g : Gen,
  length (fst (draws Gen uniform_real n a b g)) = n.
Proof.
  induction n as [|n IH]; intros g; simpl; [reflexivity|].
  destruct (uniform_real a b g) as [x g0]. specialize (IH g0).
  destruct (draws Gen uniform_real n a b g0); simpl in *; lia.
Qed.

Lemma draws_Forall (P : T -> Prop) (a b : T) :
  (forall g, P (fst (uniform_real a b g))) ->
  forall (n : nat) (g : Gen), Forall P (fst (draws Gen uniform_real n a b g)).
Proof.
  intros HP n; induction n as [|n IH]; intros g; simpl; [constructor|].
  specialize (HP g). destruct (uniform_real a b g) as [x g0]. specialize (IH g0).
  destruct (draws Gen uniform_real n a b g0); simpl in *. constructor; assumption.
Qed.

Lemma initRandomQSMatrix_draws (r c : N) (w : T) (g : Gen) :
  r < UINT_MOD -> c < UINT_MOD -> r * c < UINT_MOD ->
  initRandomQSMatrix Gen uniform_real r c w g =
  Ok (mkMatrix r c (fst (draws Gen uniform_real (N.to_nat (r * c)) (Topp w) w g)),
      snd (draws Gen uniform_real (N.to_nat (r * c)) (Topp w) w g)).
Proof.
  intros Hr Hc Hrc. unfold initRandomQSMatrix.
  destruct (Matrix_filled_ok r c (Tzero : T) Hr Hc Hrc) as (_ & _ & Em & _).
  assert (E0 : Matrix_filled r c (Tzero : T) =
               mkMatrix r c (repeat Tzero (N.to_nat (r * c)))).
  { unfold Matrix_filled in *; simpl in Em.
    rewrite (u32_small _ Hr), (u32_small _ Hc) in *. rewrite Em; reflexivity. }
  rewrite E0, (u64_small _ (UINT_lt_SIZE _ Hrc)).
  set (n := r * c) in *.
  destruct (for_range_total
              (fun i (st : Matrix T * Gen) =>
                 st = (mkMatrix r c
                         (fst (draws Gen uniform_real (N.to_nat i) (Topp w) w g) ++
                          repeat Tzero (N.to_nat n - N.to_nat i)),
                       snd (draws Gen uniform_real (N.to_nat i) (Topp w) w g)))
              (fun i (st : Matrix T * Gen) =>
                 let '(my_matrix, gen) := st in
                 let '(x, gen) := uniform_real (Topp w) w gen in
                 v <- vec_set (mat my_matrix) i x ;;
                 Ok (set_mat my_matrix v, gen))
              n (mkMatrix r c (repeat Tzero (N.to_nat n)), g))
    as (st & E & Est).
  - simpl. rewrite Nat.sub_0_r; reflexivity.
  - intros i st Hi ->.
    replace (N.to_nat (i + 1)) with (N.to_nat i + 1)%nat by lia.
    rewrite draws_app.
    pose proof (draws_length (Topp w) w (N.to_nat i) g) as Li.
    destruct (draws Gen uniform_real (N.to_nat i) (Topp w) w g) as [xs g1].
    simpl in Li |- *.
    destruct (uniform_real (Topp w) w g1) as [x g2].
    replace (N.to_nat n - N.to_nat i)%nat
      with (Datatypes.S (N.to_nat n - (N.to_nat i + 1)))%nat by lia.
    simpl repeat.
    rewrite (vec_set_app xs _ i x Tzero) by lia. cbn [bind].
    eexists; split; [reflexivity|].
    unfold set_mat; simpl. rewrite <- app_assoc; reflexivity.
  - rewrite E, Est. rewrite Nat.sub_diag; simpl. rewrite app_nil_r; reflexivity.
Qed.

(** X16: random initialization for a shape of fewer than 2^32 elements
    returns the matrix of that shape whose storage holds, in order, the
    first rows * cols draws of the distribution with bounds -maxWeight
    and maxWeight, and leaves the generator after these draws; whatever
    holds of every draw of the distribution (such as its bounds) holds of
    every element. *)
Theorem X16_random_elements_are_draws (r c : N) (w : T) (g : Gen) (P : T -> Prop) :
  r < UINT_MOD -> c < UINT_MOD -> r * c < UINT_MOD ->
  exists m g',
    initRandomQSMatrix Gen uniform_real r c w g = Ok (m, g') /\
    rows m = r /\ cols m = c /\ valid m /\
    (mat m, g') = draws Gen uniform_real (N.to_nat (r * c)) (Topp w) w g /\
    ((forall gen, P (fst (uniform_real (Topp w) w gen))) -> Forall P (mat m)).
Proof.
  intros Hr Hc Hrc.
  rewrite (initRandomQSMatrix_draws r c w g Hr Hc Hrc).
  eexists; eexists; split; [reflexivity|]; simpl.
  split; [reflexivity|]. split; [reflexivity|]. split.
  - unfold valid; simpl. rewrite draws_length. repeat split; try assumption. lia.
  - split; [symmetry; apply surjective_pairing|].
    intros HP; apply draws_Forall; exact HP.
Qed.


(** A call for fewer than 2^32 elements, whatever its two sizes. *)
Lemma initRandomQSMatrix_stream (r c : N) (w : T) (g : Gen) :
  r * c < UINT_MOD ->
  initRandomQSMatrix Gen uniform_real r c w g =
  Ok (mkMatrix (u32 r) (u32 c)
               (fst (draws Gen uniform_real (N.to_nat (r * c)) (Topp w) w g)),
      snd (draws Gen uniform_real (N.to_nat (r * c)) (Topp w) w g)).
Proof.
  intros Hrc.
  destruct (N.eq_dec (r * c) 0) as [Z | NZ].
  - unfold initRandomQSMatrix, Matrix_filled. rewrite Z.
    assert (E : u32 r * u32 c = 0).
    { apply N.eq_mul_0 in Z; destruct Z as [-> | ->]; unfold u32.
      - rewrite N.Div0.mod_0_l; reflexivity.
      - rewrite N.Div0.mod_0_l; apply N.mul_0_r. }
    rewrite E; reflexivity.
  - assert (Pr : 1 <= r) by (destruct (N.eq_dec r 0) as [-> | ]; lia).
    assert (Pc : 1 <= c)
      by (destruct (N.eq_dec c 0) as [-> | ]; [rewrite N.mul_0_r in NZ|]; lia).
    pose proof (N.mul_le_mono_l 1 c r Pc) as Lr.
    pose proof (N.mul_le_mono_r 1 r c Pr) as Lc.
    assert (Hr : r < UINT_MOD) by lia.
    assert (Hc : c < UINT_MOD) by lia.
    rewrite (u32_small _ Hr), (u32_small _ Hc).
    exact (initRandomQSMatrix_draws r c w g Hr Hc Hrc).
Qed.

(** C9 as amended: for every sequence of calls to random initialization
    within one process, each for fewer than 2^32 elements (what a call
    does from 2^32 elements on is left out), every call returns, and its
    matrix holds, in order, the rows * cols draws of the distribution over
    [-maxWeight, maxWeight] of that call, taken from the one stream where
    the call before it stopped (no call reseeds), so the outputs are
    determined by the sequence of calls and the seed; each produced
    element lies within [-maxWeight, maxWeight] for that call's maxWeight
    argument when the draws of the distribution do. *)
Theorem C9_random_call_sequence (calls : list (N * N * T)) (P : T -> T -> Prop) :
  Forall (fun call => fst (fst call) * snd (fst call) < UINT_MOD) calls ->
  forall g : Gen,
    random_calls Gen uniform_real calls g =
    Ok (stream_matrices Gen uniform_real calls g) /\
    Forall2 (fun call m => N.of_nat (length (mat m)) =
                           fst (fst call) * snd (fst call))
            calls (fst (stream_matrices Gen uniform_real calls g)) /\
    ((forall r c w gen, In (r, c, w) calls ->
                        P w (fst (uniform_real (Topp w) w gen))) ->
     Forall2 (fun call m => Forall (P (snd call)) (mat m))
             calls (fst (stream_matrices Gen uniform_real calls g))).
Proof.
  induction 1 as [|[[r c] w] rest Hrc Hrest IH]; intros g.
  - split; [reflexivity|]. split; [constructor|]. intros _; constructor.
  - cbn [fst snd] in Hrc.
    cbn [random_calls stream_matrices].
    rewrite (initRandomQSMatrix_stream r c w g Hrc).
    pose proof (draws_Forall (P w) (Topp w) w) as Bound.
    pose proof (draws_length (Topp w) w (N.to_nat (r * c)) g) as Len.
    destruct (draws Gen uniform_real (N.to_nat (r * c)) (Topp w) w g)
      as [xs g1] eqn:D.
    cbn [bind fst snd] in *.
    destruct (IH g1) as (Run & Count & Within). rewrite Run.
    destruct (stream_matrices Gen uniform_real rest g1) as [ms g2].
    cbn [bind fst snd] in *.
    split; [reflexivity|]. split.
    + constructor; [|exact Count].
      cbn [mat fst snd]. rewrite Len. apply N2Nat.id.
    + intros HP. constructor.
      * cbn [mat fst snd].
        change xs with (fst (xs, g1)). rewrite <- D.
        apply Bound. intros gen; apply (HP r c w gen); left; reflexivity.
      * apply Within. intros r' c' w' gen HIn.
        apply (HP r' c' w' gen); right; exact HIn.
Qed.

Lemma vec_set_outside (v : list T) (i : N) (x : T) :
  (length v <= N.to_nat i)%nat -> vec_set v i x = Undefined.
Proof.
  unfold vec_set; intros L.
  destruct (list_set v (N.to_nat i) x) as [r|] eqn:E; [|reflexivity].
  apply list_set_length in E; lia.
Qed.

(** The loop of [initRandomQSMatrix] after [k] iterations on a storage of
    [len] zeros. *)
Lemma random_loop_prefix (r c : N) (w : T) (g : Gen) (len k : nat) :
  (k <= len)%nat ->
  for_loop k 0
    (fun i (st : Matrix T * Gen) =>
       let '(my_matrix, gen) := st in
       let '(x, gen) := uniform_real (Topp w) w gen in
       v <- vec_set (mat my_matrix) i x ;;
       Ok (set_mat my_matrix v, gen))
    (mkMatrix r c (repeat Tzero len), g) =
  Ok (mkMatrix r c (fst (draws Gen uniform_real k (Topp w) w g) ++
                    repeat Tzero (len - k)),
      snd (draws Gen uniform_real k (Topp w) w g)).
Proof.
  intros Hk.
  destruct (for_loop_total
              (fun i (st : Matrix T * Gen) =>
                 st = (mkMatrix r c
                         (fst (draws Gen uniform_real (N.to_nat i) (Topp w) w g) ++
                          repeat Tzero (len - N.to_nat i)),
                       snd (draws Gen uniform_real (N.to_nat i) (Topp w) w g)))
              (fun i (st : Matrix T * Gen) =>
                 let '(my_matrix, gen) := st in
                 let '(x, gen) := uniform_real (Topp w) w gen in
                 v <- vec_set (mat my_matrix) i x ;;
                 Ok (set_mat my_matrix v, gen))
              k 0 (mkMatrix r c (repeat Tzero len), g))
    as (st & E & Est).
  - simpl. rewrite Nat.sub_0_r; reflexivity.
  - intros i st Hi ->.
    replace (N.to_nat (i + 1)) with (N.to_nat i + 1)%nat by lia.
    rewrite draws_app.
    pose proof (draws_length (Topp w) w (N.to_nat i) g) as Li.
    destruct (draws Gen uniform_real (N.to_nat i) (Topp w) w g) as [xs g1].
    simpl in Li |- *.
    destruct (uniform_real (Topp w) w g1) as [x g2].
    replace (len - N.to_nat i)%nat
      with (Datatypes.S (len - (N.to_nat i + 1)))%nat by lia.
    simpl repeat.
    rewrite (vec_set_app xs _ i x Tzero) by lia. cbn [bind].
    eexists; split; [reflexivity|].
    unfold set_mat; simpl. rewrite <- app_assoc; reflexivity.
  - rewrite E, Est. replace (N.to_nat (0 + N.of_nat k)) with k by lia.
    reflexivity.
Qed.

(** X18: random initialization asked for a shape of 2^32 elements or
    more (each size below 2^32) allocates only rows * cols mod 2^32
    elements, fills them, and then writes past the end of the storage:
    the call is undefined behaviour. *)
Theorem X18_random_overflow_undefined (r c : N) (w : T) (g : Gen) :
  r < UINT_MOD -> c < UINT_MOD -> UINT_MOD <= r * c ->
  initRandomQSMatrix Gen uniform_real r c w g = Undefined.
Proof.
  intros Hr Hc Big. unfold initRandomQSMatrix, Matrix_filled.
  rewrite (u32_small _ Hr), (u32_small _ Hc).
  assert (Fit64 : r * c < SIZE_MOD) by (unfold UINT_MOD, SIZE_MOD in *; nia).
  rewrite (u64_small _ Fit64).
  pose proof (u32_lt (r * c)) as Lt.
  set (len := N.to_nat (u32 (r * c))) in *.
  unfold for_range.
  replace (N.to_nat (r * c))
    with (len + Datatypes.S (N.to_nat (r * c) - len - 1))%nat by (unfold len; lia).
  rewrite for_loop_app.
  rewrite (random_loop_prefix r c w g len len (le_n _)).
  cbn [bind for_loop].
  pose proof (draws_length (Topp w) w len g) as Ld.
  destruct (draws Gen uniform_real len (Topp w) w g) as [xs g1]; simpl in Ld |- *.
  destruct (uniform_real (Topp w) w g1) as [x g2].
  rewrite vec_set_outside; [reflexivity|].
  rewrite length_app, repeat_length; lia.
Qed.

End RandomInit.

(** X19: adding zeros changes nothing when T() is neutral for the
    addition of elements: for a valid A, A plus the zero matrix of its
    shape, and A plus a single row of zeros broadcast over its rows, are
    both A. *)
Theorem X19_plus_zero (A : Matrix T) :
  (forall a : T, Tadd a Tzero = a) -> valid A ->
  operator_plus ndebug A (Matrix_filled (rows A) (cols A) Tzero) = Ok A /\
  operator_plus ndebug A (Matrix_filled 1 (cols A) Tzero) = Ok A.
Proof.
  intros Neutral VA; pose proof VA as (Hr & Hc & Hrc & Hlen).
  destruct (Matrix_filled_ok (rows A) (cols A) (Tzero : T) Hr Hc Hrc)
    as (Zr & Zc & _ & ZV).
  assert (U1 : 1 < UINT_MOD) by reflexivity.
  destruct (Matrix_filled_ok 1 (cols A) (Tzero : T) U1 Hc) as (Or & Oc & _ & OV);
    [lia|].
  split.
  - destruct (operator_plus_same ndebug A _ VA ZV) as (R & E & Rr & Rc & RV & RE);
      [split; congruence|].
    rewrite E; f_equal. apply matrix_ext; try assumption.
    intros i j Hi Hj. rewrite RE by congruence.
    rewrite elem_filled_zero. apply Neutral.
  - destruct (dims_dec (rows A) (rows (Matrix_filled 1 (cols A) (Tzero : T)))
                       (cols A) (cols (Matrix_filled 1 (cols A) (Tzero : T))))
      as [S | NS].
    + destruct (operator_plus_same ndebug A _ VA OV S) as (R & E & Rr & Rc & RV & RE).
      rewrite E; f_equal. apply matrix_ext; try assumption.
      intros i j Hi Hj. rewrite RE by congruence.
      rewrite elem_filled_zero. apply Neutral.
    + destruct (operator_plus_row_rhs ndebug A _ VA OV NS (conj Or Oc))
        as (R & E & Rr & Rc & RV & RE).
      rewrite E; f_equal. apply matrix_ext; try assumption.
      intros i j Hi Hj. rewrite RE by congruence.
      rewrite elem_filled_zero. apply Neutral.
Qed.

(** ** Builds without assertions *)

Lemma transform2_short (op : T -> T -> T) (l1 : list T) : forall (l2 out : list T),
  (length l2 < length l1)%nat -> length out = length l1 ->
  transform2 op l1 l2 out = Undefined.
Proof.
  induction l1 as [|x l1 IH]; intros l2 out L2 Lo; simpl in *; [lia|].
  destruct l2 as [|y l2]; [reflexivity|].
  destruct out as [|z out]; [reflexivity|].
  rewrite IH by (simpl in *; lia). reflexivity.
Qed.

Lemma transform2_long (op : T -> T -> T) (l1 : list T) : forall (l2 out : list T),
  (length l1 <= length l2)%nat -> length out = length l1 ->
  exists r, transform2 op l1 l2 out = Ok r /\ length r = length l1 /\
            forall k, (k < length l1)%nat ->
                      nth k r Tzero = op (nth k l1 Tzero) (nth k l2 Tzero).
Proof.
  induction l1 as [|x l1 IH]; intros l2 out L2 Lo.
  - exists out; simpl in *; repeat split; try assumption. intros k Hk; lia.
  - destruct l2 as [|y l2]; [simpl in L2; lia|].
    destruct out as [|z out]; [discriminate|].
    destruct (IH l2 out) as (r & E & Len & Nth); [simpl in *; lia .. |].
    exists (op x y :: r); simpl; rewrite E; simpl.
    split; [reflexivity|]. split; [f_equal; exact Len|].
    intros [|k] Hk; [reflexivity | apply Nth; lia].
Qed.

(** X20: compiled with NDEBUG, subtraction and the Hadamard product of
    valid matrices of different shapes run std::transform over the
    storage of *this all the same.  When rhs holds fewer elements the
    call reads past the storage of rhs (undefined behaviour); when it
    holds at least as many, the call returns a matrix of the shape of
    *this computed from the first elements of rhs, offset by offset. *)
Theorem X20_ndebug_shape_mismatch (A B : Matrix T) :
  valid A -> valid B ->
  (rows B * cols B < rows A * cols A ->
   operator_minus true A B = Undefined /\
   hadamardMultiplication true A B = Undefined) /\
  (rows A * cols A <= rows B * cols B ->
   exists D P,
     operator_minus true A B = Ok D /\ hadamardMultiplication true A B = Ok P /\
     same_shape D A /\ same_shape P A /\ valid D /\ valid P /\
     forall k, (k < length (mat A))%nat ->
       nth k (mat D) Tzero = Tsub (nth k (mat A) Tzero) (nth k (mat B) Tzero) /\
       nth k (mat P) Tzero = Tmul (nth k (mat A) Tzero) (nth k (mat B) Tzero)).
Proof.
  intros VA VB.
  pose proof VA as (Hr & Hc & Hrc & Hlen).
  pose proof VB as (Hr' & Hc' & Hrc' & Hlen').
  destruct (Matrix_filled_ok (rows A) (cols A) (Tzero : T) Hr Hc Hrc)
    as (Zr & Zc & Zm & ZV).
  assert (Lo : length (mat (Matrix_filled (rows A) (cols A) (Tzero : T))) =
               length (mat A)) by (rewrite Zm, repeat_length; lia).
  unfold operator_minus, hadamardMultiplication, assert; cbn [bind].
  split.
  - intros Short.
    rewrite !transform2_short by (try exact Lo; lia). split; reflexivity.
  - intros Long.
    destruct (transform2_long Tsub (mat A) (mat B) _ ltac:(lia) Lo)
      as (d & Ed & Ld & Nd).
    destruct (transform2_long Tmul (mat A) (mat B) _ ltac:(lia) Lo)
      as (p & Ep & Lp & Np).
    rewrite Ed, Ep; cbn [bind].
    eexists; eexists. split; [reflexivity|]. split; [reflexivity|].
    unfold same_shape, valid; simpl.
    rewrite (u32_small _ Hr), (u32_small _ Hc), Ld, Lp.
    repeat split; try assumption; try reflexivity.
    + apply Nd; assumption.
    + apply Np; assumption.
Qed.

(** ** Associativity of the product *)

Section Sums.

Hypothesis Laws : semiring_laws.

Lemma sum_upto_succ (n : N) (f : N -> T) :
  sum_upto (n + 1) f = Tadd (sum_upto n f) (f n).
Proof. unfold sum_upto; rewrite Nrange_succ, fold_left_app; reflexivity. Qed.

Lemma sum_upto_ext (n : N) (f g : N -> T) :
  (forall k, k < n -> f k = g k) -> sum_upto n f = sum_upto n g.
Proof.
  intros E; unfold sum_upto; apply fold_Nrange_ext.
  intros s k Hk; rewrite (E k Hk); reflexivity.
Qed.

Lemma sum_upto_zero (n : N) : sum_upto n (fun _ => Tzero) = Tzero.
Proof.
  destruct Laws as (_ & _ & Z & _).
  induction n as [|n IH] using N.peano_ind; [reflexivity|].
  rewrite <- N.add_1_r, sum_upto_succ, IH. apply Z.
Qed.

Lemma sum_upto_add (n : N) (f g : N -> T) :
  sum_upto n (fun k => Tadd (f k) (g k)) = Tadd (sum_upto n f) (sum_upto n g).
Proof.
  destruct Laws as (As & Co & Z & _).
  induction n as [|n IH] using N.peano_ind.
  - symmetry; apply Z.
  - rewrite <- N.add_1_r, !sum_upto_succ, IH.
    rewrite !As. f_equal.
    rewrite <- !As. rewrite (Co (f n)). reflexivity.
Qed.

Lemma sum_upto_mul_r (n : N) (f : N -> T) (c : T) :
  sum_upto n (fun k => Tmul (f k) c) = Tmul (sum_upto n f) c.
Proof.
  destruct Laws as (_ & _ & _ & _ & _ & Dr & Zl & _).
  induction n as [|n IH] using N.peano_ind.
  - symmetry; apply Zl.
  - rewrite <- N.add_1_r, !sum_upto_succ, IH, Dr; reflexivity.
Qed.

Lemma sum_upto_mul_l (n : N) (f : N -> T) (c : T) :
  sum_upto n (fun k => Tmul c (f k)) = Tmul c (sum_upto n f).
Proof.
  destruct Laws as (_ & _ & _ & _ & Dl & _ & _ & Zr).
  induction n as [|n IH] using N.peano_ind.
  - symmetry; apply Zr.
  - rewrite <- N.add_1_r, !sum_upto_succ, IH, Dl; reflexivity.
Qed.

Lemma sum_upto_exchange (n m : N) (f : N -> N -> T) :
  sum_upto n (fun k => sum_upto m (fun j => f k j)) =
  sum_upto m (fun j => sum_upto n (fun k => f k j)).
Proof.
  induction n as [|n IH] using N.peano_ind.
  - symmetry; apply sum_upto_zero.
  - rewrite <- N.add_1_r, sum_upto_succ, IH, <- sum_upto_add.
    apply sum_upto_ext; intros j _. rewrite sum_upto_succ; reflexivity.
Qed.

(** X21: the matrix product is associative when the elements form a
    semiring: for valid A, B and C with A.cols == B.rows and
    B.cols == C.rows, and fewer than 2^32 elements in A * B, B * C and
    the result, (A * B) * C and A * (B * C) are returned and are the same
    matrix. *)
Theorem X21_product_associative (A B C : Matrix T) :
  valid A -> valid B -> valid C ->
  cols A = rows B -> cols B = rows C ->
  rows A * cols B < UINT_MOD -> rows B * cols C < UINT_MOD ->
  rows A * cols C < UINT_MOD ->
  exists AB BC R,
    operator_mul ndebug A B = Ok AB /\ operator_mul ndebug B C = Ok BC /\
    operator_mul ndebug AB C = Ok R /\ operator_mul ndebug A BC = Ok R.
Proof.
  intros VA VB VC I1 I2 F1 F2 F3.
  destruct (operator_mul_ok ndebug A B VA VB I1 F1) as (AB & E1 & R1 & C1 & V1 & P1).
  destruct (operator_mul_ok ndebug B C VB VC I2 F2) as (BC & E2 & R2 & C2 & V2 & P2).
  destruct (operator_mul_ok ndebug AB C V1 VC) as (L & E3 & R3 & C3 & V3 & P3);
    [congruence | rewrite R1; exact F3 |].
  destruct (operator_mul_ok ndebug A BC VA V2) as (R & E4 & R4 & C4 & V4 & P4);
    [congruence | rewrite C2; exact F3 |].
  exists AB, BC, R.
  split; [exact E1|]. split; [exact E2|]. split; [|exact E4].
  rewrite E3; f_equal.
  apply matrix_ext; try assumption; try congruence.
  intros i l Hi Hl.
  assert (Hi' : i < rows A) by congruence.
  assert (Hl' : l < cols C) by congruence.
  rewrite P3, P4 by congruence.
  change (inner_product AB C i l)
    with (sum_upto (cols AB) (fun j => Tmul (elem AB i j) (elem C j l))).
  change (inner_product A BC i l)
    with (sum_upto (cols A) (fun k => Tmul (elem A i k) (elem BC k l))).
  rewrite C1.
  rewrite (sum_upto_ext (cols B) _
             (fun j => sum_upto (cols A)
                         (fun k => Tmul (elem A i k)
                                        (Tmul (elem B k j) (elem C j l))))).
  - rewrite <- sum_upto_exchange.
    apply sum_upto_ext; intros k Hk.
    rewrite sum_upto_mul_l. f_equal.
    rewrite P2 by congruence. reflexivity.
  - intros j Hj. rewrite P1 by assumption.
    change (inner_product A B i j)
      with (sum_upto (cols A) (fun k => Tmul (elem A i k) (elem B k j))).
    rewrite <- sum_upto_mul_r.
    apply sum_upto_ext; intros k _.
    destruct Laws as (_ & _ & _ & Ma & _). apply Ma.
Qed.

End Sums.

End MatrixMore.

(** ** The further theorems at concrete inputs *)

Lemma valid_M_3x2 : valid M_3x2.
Proof. valid_by_computation. Qed.

Lemma semiring_laws_Z : semiring_laws (T := Z).
Proof.
  unfold semiring_laws; cbn.
  repeat split; intros; ring.
Qed.

Lemma lcg_draw_bounds (gen : N) : (-5 <= fst (lcg_draw (-5) 5 gen) <= 5)%Z.
Proof.
  unfold lcg_draw; cbv zeta; unfold fst.
  pose proof (Z.mod_pos_bound
                (Z.of_N ((gen * 1103515245 + 12345) mod 2147483648)) 11%Z
                eq_refl) as B.
  change (5 - -5 + 1)%Z with 11%Z. lia.
Qed.

Lemma M_3x4_not_M_1x4 : ~ same_shape M_3x4 M_1x4.
Proof. intros [E _]; discriminate E. Qed.

Lemma M_1x4_not_M_3x4 : ~ same_shape M_1x4 M_3x4.
Proof. intros [E _]; discriminate E. Qed.

Lemma X1_witness :
  2 < UINT_MOD /\ 3 < UINT_MOD /\ 2 * 3 < UINT_MOD /\
  get_rows (Matrix_filled 2 3 7%Z) = 2 /\ get_cols (Matrix_filled 2 3 7%Z) = 3 /\
  valid (Matrix_filled 2 3 7%Z) /\
  forall i j, i < 2 -> j < 3 ->
              operator_call false (Matrix_filled 2 3 7%Z) i j = Ok 7%Z.
Proof.
  split; [reflexivity|]. split; [reflexivity|]. split; [reflexivity|].
  exact (X1_filled_elements false 2 3 7%Z eq_refl eq_refl eq_refl).
Defined.

Lemma X2_witness :
  valid M_2x3 /\ 1 < rows M_2x3 /\ 2 < cols M_2x3 /\
  exists m',
    operator_call_store false M_2x3 1 2 9%Z = Ok m' /\
    same_shape m' M_2x3 /\ valid m' /\
    operator_call false m' 1 2 = Ok 9%Z /\
    forall i' j', i' < rows M_2x3 -> j' < cols M_2x3 -> (i', j') <> (1, 2) ->
      operator_call false m' i' j' = operator_call false M_2x3 i' j'.
Proof.
  split; [exact valid_M_2x3|]. split; [reflexivity|]. split; [reflexivity|].
  exact (X2_store_then_load false M_2x3 1 2 9%Z valid_M_2x3 eq_refl eq_refl).
Defined.

Lemma X3_witness :
  valid M_2x3 /\ 0 < UINT_MOD /\ 3 < UINT_MOD /\
  (rows M_2x3 <= 0 \/ cols M_2x3 <= 3) /\
  0 * cols M_2x3 + 3 < rows M_2x3 * cols M_2x3 /\
  operator_call false M_2x3 0 3 = AssertFail /\
  operator_call true M_2x3 0 3 = Ok (elem M_2x3 (0 + 3 / cols M_2x3) (3 mod cols M_2x3)).
Proof.
  assert (Out : rows M_2x3 <= 0 \/ cols M_2x3 <= 3) by (right; discriminate).
  split; [exact valid_M_2x3|]. split; [reflexivity|]. split; [reflexivity|].
  split; [exact Out|]. split; [reflexivity|].
  split.
  - exact (proj1 (X3_access_outside_shape M_2x3 0 3 valid_M_2x3 eq_refl eq_refl) Out).
  - exact (proj2 (X3_access_outside_shape M_2x3 0 3 valid_M_2x3 eq_refl eq_refl)
                 eq_refl).
Defined.

Lemma X4_witness :
  valid M_3x4 /\ valid M_1x4 /\ ~ same_shape M_3x4 M_1x4 /\
  cols M_3x4 <> rows M_1x4 /\ N.of_nat (length [1%Z]) <> cols M_3x4 /\
  (rows M_1x4 = 1 /\ cols M_1x4 = cols M_3x4) /\
  operator_minus false M_3x4 M_1x4 = AssertFail /\
  operator_mul false M_3x4 M_1x4 = AssertFail /\
  operator_mul_vec false M_3x4 [1%Z] = AssertFail /\
  (exists R, operator_plus false M_3x4 M_1x4 = Ok R /\ same_shape R M_3x4) /\
  operator_plus_assign false M_3x4 M_1x4 = AssertFail.
Proof.
  assert (N1 : cols M_3x4 <> rows M_1x4) by discriminate.
  assert (N2 : N.of_nat (length [1%Z]) <> cols M_3x4) by discriminate.
  split; [exact valid_M_3x4|]. split; [exact valid_M_1x4|].
  split; [exact M_3x4_not_M_1x4|]. split; [exact N1|]. split; [exact N2|].
  split; [split; reflexivity|].
  pose proof (X4_shape_mismatch_halts M_3x4 M_1x4 [1%Z]) as (E1 & E2 & E3 & E4).
  split; [exact (proj1 (E1 M_3x4_not_M_1x4))|].
  split; [exact (proj1 (E2 N1))|].
  split; [exact (E3 N2)|].
  exact (E4 valid_M_3x4 valid_M_1x4 M_3x4_not_M_1x4 (conj eq_refl eq_refl)).
Defined.

Lemma X5_witness :
  valid M_2x2_A /\ valid M_2x2_B /\ same_shape M_2x2_A M_2x2_B /\
  exists D P,
    operator_minus false M_2x2_A M_2x2_B = Ok D /\
    hadamardMultiplication false M_2x2_A M_2x2_B = Ok P /\
    same_shape D M_2x2_A /\ valid D /\ same_shape P M_2x2_A /\ valid P /\
    forall i j, i < rows M_2x2_A -> j < cols M_2x2_A ->
      elem D i j = Tsub (elem M_2x2_A i j) (elem M_2x2_B i j) /\
      elem P i j = Tmul (elem M_2x2_A i j) (elem M_2x2_B i j).
Proof.
  split; [exact valid_M_2x2_A|]. split; [exact valid_M_2x2_B|].
  split; [split; reflexivity|].
  exact (X5_minus_hadamard_elementwise false M_2x2_A M_2x2_B
           valid_M_2x2_A valid_M_2x2_B (conj eq_refl eq_refl)).
Defined.

Lemma X6_witness :
  valid M_2x2_A /\ valid M_2x2_B /\ same_shape M_2x2_A M_2x2_B /\
  (exists R, operator_plus false M_2x2_A M_2x2_B = Ok R /\
             operator_plus_assign false M_2x2_A M_2x2_B = Ok R) /\
  (exists R, operator_minus false M_2x2_A M_2x2_B = Ok R /\
             operator_minus_assign false M_2x2_A M_2x2_B = Ok R) /\
  (exists R, hadamardMultiplication false M_2x2_A M_2x2_B = Ok R /\
             hadamardMultiplicationInPlace false M_2x2_A M_2x2_B = Ok R).
Proof.
  split; [exact valid_M_2x2_A|]. split; [exact valid_M_2x2_B|].
  split; [split; reflexivity|].
  exact (X6_in_place_agrees false M_2x2_A M_2x2_B
           valid_M_2x2_A valid_M_2x2_B (conj eq_refl eq_refl)).
Defined.

Lemma X7_witness :
  valid M_2x3 /\ (forall a : Z, Tsub (Tadd a 2%Z) 2%Z = a) /\
  operator_mul_scalar M_2x3 2%Z =
    Ok (mkMatrix 2 3 (map (fun val => Tmul val 2%Z) (mat M_2x3))) /\
  operator_mul_assign_scalar M_2x3 2%Z = operator_mul_scalar M_2x3 2%Z /\
  exists R, operator_plus_scalar M_2x3 2%Z = Ok R /\
            operator_minus_scalar R 2%Z = Ok M_2x3.
Proof.
  assert (Exact : forall a : Z, Tsub (Tadd a 2%Z) 2%Z = a)
    by (intros a; apply Z.add_simpl_r).
  split; [exact valid_M_2x3|]. split; [exact Exact|].
  pose proof (X7_scalar_operators M_2x3 2%Z valid_M_2x3)
    as (_ & _ & Em & _ & Ea & Ec).
  split; [exact Em|]. split; [exact Ea|]. exact (Ec Exact).
Defined.

Lemma X8_witness :
  valid M_2x3 /\
  component_wise_transformation M_2x3 Z.succ =
    component_wise_transformation_in_place M_2x3 Z.succ /\
  exists R, component_wise_transformation M_2x3 Z.succ = Ok R /\ valid R /\
            component_wise_transformation R Z.double =
            component_wise_transformation M_2x3 (fun x => Z.double (Z.succ x)).
Proof.
  split; [exact valid_M_2x3|].
  exact (proj2 (X8_component_wise_transformation M_2x3 Z.succ Z.double)
               valid_M_2x3).
Defined.

Lemma X9_witness :
  valid M_3x4 /\ valid M_1x4 /\ (forall a b : Z, Tadd a b = Tadd b a) /\
  (forall a b : Z, Tmul a b = Tmul b a) /\ same_shape M_2x2_A M_2x2_B /\
  operator_plus false M_3x4 M_1x4 = operator_plus false M_1x4 M_3x4 /\
  hadamardMultiplication false M_2x2_A M_2x2_B =
  hadamardMultiplication false M_2x2_B M_2x2_A.
Proof.
  split; [exact valid_M_3x4|]. split; [exact valid_M_1x4|].
  split; [exact Z.add_comm|]. split; [exact Z.mul_comm|].
  split; [split; reflexivity|].
  split.
  - exact (proj1 (X9_plus_hadamard_commute false M_3x4 M_1x4
                    valid_M_3x4 valid_M_1x4) Z.add_comm).
  - exact (proj2 (X9_plus_hadamard_commute false M_2x2_A M_2x2_B
                    valid_M_2x2_A valid_M_2x2_B)
                 Z.mul_comm (conj eq_refl eq_refl)).
Defined.

Lemma X10_witness :
  (forall a b : Z, Tmul a b = Tmul b a) /\
  valid M_2x3 /\ valid M_3x2 /\ cols M_2x3 = rows M_3x2 /\
  rows M_2x3 * cols M_3x2 < UINT_MOD /\
  exists P PT AT BT,
    operator_mul false M_2x3 M_3x2 = Ok P /\ transpose false P = Ok PT /\
    transpose false M_2x3 = Ok AT /\ transpose false M_3x2 = Ok BT /\
    operator_mul false BT AT = Ok PT.
Proof.
  split; [exact Z.mul_comm|]. split; [exact valid_M_2x3|].
  split; [exact valid_M_3x2|]. split; [reflexivity|]. split; [reflexivity|].
  exact (X10_transpose_of_product false M_2x3 M_3x2 Z.mul_comm
           valid_M_2x3 valid_M_3x2 eq_refl eq_refl).
Defined.

Lemma X11_witness :
  valid M_2x3 /\
  exists AT d,
    transpose false M_2x3 = Ok AT /\
    diag_vec false AT = Ok (d, AT) /\ diag_vec false M_2x3 = Ok (d, M_2x3).
Proof.
  split; [exact valid_M_2x3|].
  exact (X11_diag_of_transpose false M_2x3 valid_M_2x3).
Defined.

Lemma X12_witness :
  valid M_2x3 /\ N.of_nat (length [1; 1; 1]%Z) = cols M_2x3 /\
  exists v,
    operator_mul_vec false M_2x3 [1; 1; 1]%Z = Ok (v, M_2x3) /\
    N.of_nat (length v) = rows M_2x3 /\
    forall i, i < rows M_2x3 ->
      nth_error v (N.to_nat i) =
      Some (sum_upto (cols M_2x3)
              (fun j => Tmul (elem M_2x3 i j) (nth (N.to_nat j) [1; 1; 1]%Z Tzero))).
Proof.
  split; [exact valid_M_2x3|]. split; [reflexivity|].
  exact (X12_matrix_vector_product false M_2x3 [1; 1; 1]%Z valid_M_2x3 eq_refl).
Defined.

Lemma X13_witness :
  valid M_2x3 /\ N.of_nat (length [1; 1; 1]%Z) = cols M_2x3 /\
  exists v,
    operator_mul_vec false M_2x3 [1; 1; 1]%Z = Ok (v, M_2x3) /\
    operator_mul false M_2x3 (Matrix_flat [1; 1; 1]%Z (cols M_2x3) 1) =
    Ok (Matrix_flat v (rows M_2x3) 1).
Proof.
  split; [exact valid_M_2x3|]. split; [reflexivity|].
  exact (X13_vector_product_as_column false M_2x3 [1; 1; 1]%Z valid_M_2x3 eq_refl).
Defined.

Lemma X14_witness :
  N.of_nat (length [[1; 2; 3]; [4; 5; 6]]%Z) < UINT_MOD /\
  nested_cols [[1; 2; 3]; [4; 5; 6]]%Z < UINT_MOD /\
  N.of_nat (length [[1; 2; 3]; [4; 5; 6]]%Z) * nested_cols [[1; 2; 3]; [4; 5; 6]]%Z
    < UINT_MOD /\
  Forall (fun row => N.of_nat (length row) = nested_cols [[1; 2; 3]; [4; 5; 6]]%Z)
         [[1; 2; 3]; [4; 5; 6]]%Z /\
  Matrix_nested false [[1; 2; 3]; [4; 5; 6]]%Z = Ok M_2x3 /\
  Matrix_flat [1; 2; 3; 4; 5; 6]%Z 2 3 = M_2x3 /\
  valid M_2x3 /\
  forall i j, i < rows M_2x3 -> j < cols M_2x3 ->
    operator_call false M_2x3 i j =
    Ok (nth (N.to_nat j) (nth (N.to_nat i) [[1; 2; 3]; [4; 5; 6]]%Z []) Tzero).
Proof.
  assert (Rect : Forall (fun row => N.of_nat (length row) =
                                    nested_cols [[1; 2; 3]; [4; 5; 6]]%Z)
                        [[1; 2; 3]; [4; 5; 6]]%Z)
    by (repeat constructor).
  split; [reflexivity|]. split; [reflexivity|]. split; [reflexivity|].
  split; [exact Rect|].
  exact (X14_nested_rectangular false [[1; 2; 3]; [4; 5; 6]]%Z
           eq_refl eq_refl eq_refl Rect).
Defined.

Lemma X15_witness :
  N.of_nat (length [[1; 2; 3]; [4; 5]]%Z) * nested_cols [[1; 2; 3]; [4; 5]]%Z
    < UINT_MOD /\
  N.of_nat (length [[1; 2; 3]; [4; 5]]%Z) < UINT_MOD /\
  nested_cols [[1; 2; 3]; [4; 5]]%Z < UINT_MOD /\
  Exists (fun row => N.of_nat (length row) <> nested_cols [[1; 2; 3]; [4; 5]]%Z)
         [[1; 2; 3]; [4; 5]]%Z /\
  Matrix_nested false [[1; 2; 3]; [4; 5]]%Z = AssertFail.
Proof.
  assert (Ragged : Exists (fun row => N.of_nat (length row) <>
                                      nested_cols [[1; 2; 3]; [4; 5]]%Z)
                          [[1; 2; 3]; [4; 5]]%Z)
    by (apply Exists_cons_tl, Exists_cons_hd; discriminate).
  split; [reflexivity|]. split; [reflexivity|]. split; [reflexivity|].
  split; [exact Ragged|].
  exact (X15_nested_ragged_halts [[1; 2; 3]; [4; 5]]%Z eq_refl eq_refl eq_refl Ragged).
Defined.

Lemma X16_witness :
  2 < UINT_MOD /\ 2 * 2 < UINT_MOD /\
  (forall gen, (-5 <= fst (lcg_draw (Topp 5%Z) 5%Z gen) <= 5)%Z) /\
  exists m g',
    initRandomQSMatrix N lcg_draw 2 2 5%Z 42 = Ok (m, g') /\
    rows m = 2 /\ cols m = 2 /\ valid m /\
    (mat m, g') = draws N lcg_draw (N.to_nat (2 * 2)) (Topp 5%Z) 5%Z 42 /\
    Forall (fun x => (-5 <= x <= 5)%Z) (mat m).
Proof.
  split; [reflexivity|]. split; [reflexivity|]. split; [exact lcg_draw_bounds|].
  destruct (X16_random_elements_are_draws N lcg_draw 2 2 5%Z 42
              (fun x => (-5 <= x <= 5)%Z) eq_refl eq_refl eq_refl)
    as (m & g' & E & Er & Ec & V & Ed & EP).
  exists m, g'.
  split; [exact E|]. split; [exact Er|]. split; [exact Ec|]. split; [exact V|].
  split; [exact Ed | exact (EP lcg_draw_bounds)].
Defined.


Lemma X18_witness :
  65536 < UINT_MOD /\ UINT_MOD <= 65536 * 65536 /\
  initRandomQSMatrix N lcg_draw 65536 65536 5%Z 42 = Undefined.
Proof.
  assert (Big : UINT_MOD <= 65536 * 65536) by (vm_compute; discriminate).
  split; [reflexivity|]. split; [exact Big|].
  exact (X18_random_overflow_undefined N lcg_draw 65536 65536 5%Z 42
           eq_refl eq_refl Big).
Defined.

Lemma X19_witness :
  (forall a : Z, Tadd a Tzero = a) /\ valid M_2x3 /\
  operator_plus false M_2x3 (Matrix_filled (rows M_2x3) (cols M_2x3) Tzero) =
    Ok M_2x3 /\
  operator_plus false M_2x3 (Matrix_filled 1 (cols M_2x3) Tzero) = Ok M_2x3.
Proof.
  split; [exact Z.add_0_r|]. split; [exact valid_M_2x3|].
  exact (X19_plus_zero false M_2x3 Z.add_0_r valid_M_2x3).
Defined.

Lemma X20_witness :
  valid M_3x4 /\ valid M_1x4 /\
  rows M_1x4 * cols M_1x4 < rows M_3x4 * cols M_3x4 /\
  operator_minus true M_3x4 M_1x4 = Undefined /\
  hadamardMultiplication true M_3x4 M_1x4 = Undefined /\
  exists D P,
    operator_minus true M_1x4 M_3x4 = Ok D /\
    hadamardMultiplication true M_1x4 M_3x4 = Ok P /\
    same_shape D M_1x4 /\ same_shape P M_1x4 /\ valid D /\ valid P /\
    forall k, (k < length (mat M_1x4))%nat ->
      nth k (mat D) Tzero =
        Tsub (nth k (mat M_1x4) Tzero) (nth k (mat M_3x4) Tzero) /\
      nth k (mat P) Tzero =
        Tmul (nth k (mat M_1x4) Tzero) (nth k (mat M_3x4) Tzero).
Proof.
  assert (Long : rows M_1x4 * cols M_1x4 <= rows M_3x4 * cols M_3x4)
    by (vm_compute; discriminate).
  split; [exact valid_M_3x4|]. split; [exact valid_M_1x4|].
  split; [reflexivity|].
  pose proof (proj1 (X20_ndebug_shape_mismatch M_3x4 M_1x4 valid_M_3x4 valid_M_1x4)
                    eq_refl) as (E1 & E2).
  split; [exact E1|]. split; [exact E2|].
  exact (proj2 (X20_ndebug_shape_mismatch M_1x4 M_3x4 valid_M_1x4 valid_M_3x4) Long).
Defined.

Lemma X21_witness :
  semiring_laws (T := Z) /\
  valid M_2x3 /\ valid M_3x2 /\ valid M_2x2_A /\
  cols M_2x3 = rows M_3x2 /\ cols M_3x2 = rows M_2x2_A /\
  rows M_2x3 * cols M_3x2 < UINT_MOD /\ rows M_3x2 * cols M_2x2_A < UINT_MOD /\
  rows M_2x3 * cols M_2x2_A < UINT_MOD /\
  exists AB BC R,
    operator_mul false M_2x3 M_3x2 = Ok AB /\
    operator_mul false M_3x2 M_2x2_A = Ok BC /\
    operator_mul false AB M_2x2_A = Ok R /\ operator_mul false M_2x3 BC = Ok R.
Proof.
  split; [exact semiring_laws_Z|].
  split; [exact valid_M_2x3|]. split; [exact valid_M_3x2|].
  split; [exact valid_M_2x2_A|].
  split; [reflexivity|]. split; [reflexivity|]. split; [reflexivity|].
  split; [reflexivity|]. split; [reflexivity|].
  exact (X21_product_associative false semiring_laws_Z M_2x3 M_3x2 M_2x2_A
           valid_M_2x3 valid_M_3x2 valid_M_2x2_A
           eq_refl eq_refl eq_refl eq_refl eq_refl).
Defined.

(** ** Sequences of random initializations *)

Lemma lcg_draw_within (w : Z) (gen : N) :
  (0 <= w)%Z -> (- w <= fst (lcg_draw (- w) w gen) <= w)%Z.
Proof.
  intros Hw; unfold lcg_draw; cbv zeta; unfold fst.
  assert (Pos : (0 < w - - w + 1)%Z) by lia.
  pose proof (Z.mod_pos_bound
                (Z.of_N ((gen * 1103515245 + 12345) mod 2147483648))
                (w - - w + 1)%Z Pos) as B.
  lia.
Qed.

(** C9 as worded: two successive random initializations of a 0 x 3 matrix
    return equal matrices, and the generator is where it was. *)
Lemma C9_counterexample :
  random_calls N lcg_draw [(0, 3, 5%Z); (0, 3, 5%Z)] 42 =
  Ok ([mkMatrix 0 3 []; mkMatrix 0 3 []], 42).
Proof. vm_compute; reflexivity. Qed.

Lemma C9_witness :
  let calls := [(2, 2, 5%Z); (0, 4294967296, 1%Z); (1, 3, 2%Z)] in
  let within := fun (w x : Z) => (0 <= w -> - w <= x <= w)%Z in
  Forall (fun call => fst (fst call) * snd (fst call) < UINT_MOD) calls /\
  (forall r c w gen, In (r, c, w) calls ->
                     within w (fst (lcg_draw (Topp w) w gen))) /\
  random_calls N lcg_draw calls 42 = Ok (stream_matrices N lcg_draw calls 42) /\
  Forall2 (fun call m => N.of_nat (length (mat m)) =
                         fst (fst call) * snd (fst call))
          calls (fst (stream_matrices N lcg_draw calls 42)) /\
  Forall2 (fun call m => Forall (within (snd call)) (mat m))
          calls (fst (stream_matrices N lcg_draw calls 42)).
Proof.
  intros calls within.
  assert (Small : Forall (fun call => fst (fst call) * snd (fst call) < UINT_MOD)
                         calls).
  { repeat constructor. }
  assert (Bounds : forall r c w gen, In (r, c, w) calls ->
                                     within w (fst (lcg_draw (Topp w) w gen))).
  { intros r c w gen _ Hw. exact (lcg_draw_within w gen Hw). }
  split; [exact Small|]. split; [exact Bounds|].
  destruct (C9_random_call_sequence N lcg_draw calls within Small 42)
    as (Run & Count & Within).
  split; [exact Run|]. split; [exact Count|]. exact (Within Bounds).
Defined.
